(** * go-queue: deque, doubly-linked list and priority queue

    A shallow embedding of the three container packages of the repository
    (package [deque], package [dll], package [priorityqueue]) together with
    the properties their specification states about them.

    Conventions.
    - A Go slice is a [list]; [len] is [length]; a Go [int] that holds a
      slice position is a [nat] where the code only ever uses it as a
      position, and a [Z] where the code stores a negative value in it
      (the [index] field of a priority-queue item).
    - [var zero T] is the parameter [zero] of each section.
    - A Go pointer is an address into an explicit store; [nil] is [None]. *)

From stdpp Require Import base list sorting.
From Stdlib Require Import ZArith Lia.

Open Scope nat_scope.

(** ** Package deque *)

Module deque.
Section Deque.
Context {T : Type} (zero : T).

(** [type Deque[T any] struct { items []T }] *)
Record Deque := mkDeque { items : list T }.

(** [func New[T any]() *Deque[T]] *)
Definition New : Deque := mkDeque [].

(** [d.items = append(d.items, item)] *)
Definition PushBack (d : Deque) (item : T) : Deque :=
  mkDeque (items d ++ [item]).

(** [PopBack]: the guard on [len(d.items) == 0], then the last element and
    the slice [d.items[:last]]. *)
Definition PopBack (d : Deque) : (T * bool) * Deque :=
  if length (items d) =? 0 then ((zero, false), d)
  else
    let last := length (items d) - 1 in
    let item := nth last (items d) zero in
    ((item, true), mkDeque (take last (items d))).

(** [d.items = append([]T{item}, d.items...)] *)
Definition PushFront (d : Deque) (item : T) : Deque :=
  mkDeque ([item] ++ items d).

(** [PopFront]: the guard, then [d.items[0]] and [d.items[1:]]. *)
Definition PopFront (d : Deque) : (T * bool) * Deque :=
  if length (items d) =? 0 then ((zero, false), d)
  else
    let item := nth 0 (items d) zero in
    ((item, true), mkDeque (drop 1 (items d))).

Definition PeekFront (d : Deque) : T * bool :=
  if length (items d) =? 0 then (zero, false)
  else (nth 0 (items d) zero, true).

Definition PeekBack (d : Deque) : T * bool :=
  if length (items d) =? 0 then (zero, false)
  else (nth (length (items d) - 1) (items d) zero, true).

(** The unsuffixed methods call the back-end ones. *)
Definition Push (d : Deque) (item : T) : Deque := PushBack d item.
Definition Pop (d : Deque) : (T * bool) * Deque := PopBack d.
Definition Peek (d : Deque) : T * bool := PeekBack d.

Definition Len (d : Deque) : nat := length (items d).
Definition IsEmpty (d : Deque) : bool := length (items d) =? 0.
Definition Clear (d : Deque) : Deque := mkDeque [].

(** Drivers for the scenario properties: push a whole sequence, pop [n]
    times collecting the results in call order. *)
Definition pushBackAll (d : Deque) (s : list T) : Deque :=
  foldl PushBack d s.

Fixpoint popFrontN (n : nat) (d : Deque) : list (T * bool) * Deque :=
  match n with
  | O => ([], d)
  | S n' =>
      let '(r, d1) := PopFront d in
      let '(rs, d2) := popFrontN n' d1 in
      (r :: rs, d2)
  end.

Fixpoint popBackN (n : nat) (d : Deque) : list (T * bool) * Deque :=
  match n with
  | O => ([], d)
  | S n' =>
      let '(r, d1) := PopBack d in
      let '(rs, d2) := popBackN n' d1 in
      (r :: rs, d2)
  end.

Definition found (x : T) : T * bool := (x, true).

(** *** Lemmas *)

Lemma items_pushBackAll d s : items (pushBackAll d s) = items d ++ s.
Proof.
  revert d. induction s as [|x s IH]; intros d; simpl.
  - by rewrite app_nil_r.
  - rewrite IH. simpl. by rewrite <- app_assoc.
Qed.

Lemma PopFront_cons x l :
  PopFront (mkDeque (x :: l)) = (found x, mkDeque l).
Proof. unfold PopFront. simpl. by rewrite drop_0. Qed.

Lemma PopBack_snoc l x :
  PopBack (mkDeque (l ++ [x])) = (found x, mkDeque l).
Proof.
  unfold PopBack. simpl. rewrite length_app. simpl.
  replace (length l + 1 =? 0) with false by (symmetry; apply Nat.eqb_neq; lia).
  replace (length l + 1 - 1) with (length l) by lia.
  rewrite app_nth2 by lia. rewrite Nat.sub_diag. simpl.
  by rewrite take_app_length.
Qed.

Lemma popFrontN_all l :
  popFrontN (length l) (mkDeque l) = (found <$> l, mkDeque []).
Proof.
  induction l as [|x l IH]; [done|]. cbn [length popFrontN].
  rewrite PopFront_cons, IH. done.
Qed.

Lemma popBackN_all l :
  popBackN (length l) (mkDeque l) = (found <$> rev l, mkDeque []).
Proof.
  induction l as [|x l IH] using rev_ind; [done|].
  rewrite length_app. cbn [length].
  replace (length l + 1) with (S (length l)) by lia.
  cbn [popBackN]. rewrite PopBack_snoc, IH, rev_unit. done.
Qed.

(** C9. Deque FIFO/LIFO duality: pushing the elements of [s] in order with
    [PushBack] on a new deque and calling [PopFront] [len(s)] times returns
    exactly [s], each with [found = true]; calling [PopBack] [len(s)] times
    instead returns [s] reversed.  Either way the deque ends empty. *)
Theorem fifo_lifo_duality (s : list T) :
  popFrontN (length s) (pushBackAll New s) = (found <$> s, New) /\
  popBackN (length s) (pushBackAll New s) = (found <$> rev s, New).
Proof.
  assert (E : pushBackAll New s = mkDeque s).
  { pose proof (items_pushBackAll New s) as H.
    destruct (pushBackAll New s) as [l]. simpl in H. by subst. }
  rewrite E. split; [apply popFrontN_all | apply popBackN_all].
Qed.

(** C10. The unsuffixed methods are aliases of the back-end operations:
    [Push] gives the state of [PushBack], [Pop] and [Peek] give the result
    (and state) of [PopBack] and [PeekBack]; hence the unsuffixed interface
    is a LIFO stack on the back end: after [Push(v)], [Peek] reads [v] and
    [Pop] returns [v] and restores the items. *)
Theorem unsuffixed_are_back_aliases (d : Deque) (v : T) :
  Push d v = PushBack d v /\
  Pop d = PopBack d /\
  Peek d = PeekBack d /\
  Peek (Push d v) = (v, true) /\
  Pop (Push d v) = ((v, true), d).
Proof.
  repeat split.
  - unfold Peek, Push, PeekBack, PushBack. simpl. rewrite length_app. simpl.
    replace (length (items d) + 1 =? 0) with false
      by (symmetry; apply Nat.eqb_neq; lia).
    rewrite app_nth2 by lia.
    replace (length (items d) + 1 - 1 - length (items d)) with 0 by lia.
    done.
  - unfold Pop, Push, PushBack. rewrite PopBack_snoc. by destruct d.
Qed.

(** The deque half of C8: on an empty deque each pop and peek returns the
    zero value with [found = false] and the deque is unchanged. *)
Lemma empty_deque_reads (d : Deque) :
  Len d = 0 ->
  PopFront d = ((zero, false), d) /\ PopBack d = ((zero, false), d) /\
  PeekFront d = (zero, false) /\ PeekBack d = (zero, false).
Proof.
  unfold Len, PopFront, PopBack, PeekFront, PeekBack. intros ->. done.
Qed.

(** *** The front end, and both ends together *)

Definition pushFrontAll (d : Deque) (s : list T) : Deque :=
  foldl PushFront d s.

Lemma items_pushFrontAll d s : items (pushFrontAll d s) = rev s ++ items d.
Proof.
  revert d. induction s as [|x s IH]; intros d; simpl; [done|].
  rewrite IH. simpl. by rewrite <- app_assoc.
Qed.

(** X10. The duality from the front: pushing the elements of [s] in order
    with [PushFront] on a new deque and calling [PopBack] [len(s)] times
    returns exactly [s], each with [found = true]; calling [PopFront]
    [len(s)] times instead returns [s] reversed.  Either way the deque ends
    empty. *)
Theorem front_fifo_lifo_duality (s : list T) :
  popBackN (length s) (pushFrontAll New s) = (found <$> s, New) /\
  popFrontN (length s) (pushFrontAll New s) = (found <$> rev s, New).
Proof.
  assert (E : pushFrontAll New s = mkDeque (rev s)).
  { pose proof (items_pushFrontAll New s) as H.
    destruct (pushFrontAll New s) as [l]. simpl in H. rewrite app_nil_r in H.
    by subst. }
  rewrite E. rewrite <- (length_rev s). split.
  - rewrite popBackN_all. by rewrite rev_involutive.
  - apply popFrontN_all.
Qed.

(** X11. The two ends do not disturb each other.  On a deque that is not
    empty, [PopBack] after [PushFront(v)] returns what [PopBack] alone
    returns and leaves the deque [PopBack] alone leaves with [v] pushed at
    its front; likewise [PopFront] after [PushBack(v)].  On an empty deque
    the pushed value is at both ends and comes straight back. *)
Theorem opposite_ends_commute (d : Deque) (v : T) :
  PopBack (PushFront d v)
    = (if IsEmpty d then ((v, true), d)
       else ((PopBack d).1, PushFront (PopBack d).2 v)) /\
  PopFront (PushBack d v)
    = (if IsEmpty d then ((v, true), d)
       else ((PopFront d).1, PushBack (PopFront d).2 v)).
Proof.
  destruct d as [l]. split.
  - destruct l as [|y l] using rev_ind.
    + done.
    + replace (IsEmpty (mkDeque (l ++ [y]))) with false
        by (unfold IsEmpty; simpl; rewrite length_app; simpl;
            symmetry; apply Nat.eqb_neq; lia).
      rewrite PopBack_snoc. unfold PushFront. simpl.
      rewrite (app_comm_cons l [y] v). by rewrite PopBack_snoc.
  - destruct l as [|y l]; [done|].
    change (IsEmpty (mkDeque (y :: l))) with false. cbv iota.
    rewrite PopFront_cons. unfold PushBack. simpl. by rewrite PopFront_cons.
Qed.

(** X12. Size accounting.  A push at either end adds one to [Len()]; a pop
    at either end reports [found = true] exactly when the deque is not
    empty, then takes one off [Len()] and returns what the peek at that end
    shows; [IsEmpty()] is [Len() == 0]; after [Clear()] the deque is empty. *)
Theorem deque_size_accounting (d : Deque) (v : T) :
  Len (PushFront d v) = S (Len d) /\
  Len (PushBack d v) = S (Len d) /\
  (PopFront d).1 = PeekFront d /\
  (PopBack d).1 = PeekBack d /\
  (PeekFront d).2 = negb (IsEmpty d) /\
  (PeekBack d).2 = negb (IsEmpty d) /\
  Len (PopFront d).2 = Len d - 1 /\
  Len (PopBack d).2 = Len d - 1 /\
  (IsEmpty d = true <-> Len d = 0) /\
  Len (Clear d) = 0.
Proof.
  destruct d as [l]. split; [done|].
  split; [unfold Len, PushBack; simpl; rewrite length_app; simpl; lia|].
  destruct l as [|x l] using rev_ind; [by do 7 (split; [done|])|].
  assert (E : (length (l ++ [x]) =? 0) = false)
    by (rewrite length_app; simpl; apply Nat.eqb_neq; lia).
  unfold Len, PopFront, PopBack, PeekFront, PeekBack, IsEmpty, Clear.
  cbn [items]. rewrite E. cbn [fst snd items negb length].
  do 4 (split; [done|]).
  split; [rewrite length_drop; lia|].
  split; [rewrite length_take; lia|].
  split; [|done]. split; [done|]. rewrite length_app. simpl. lia.
Qed.

End Deque.
End deque.

(** ** Slices *)

Section Slices.
Context {A : Type}.

(** [data[i], data[j] = data[j], data[i]] on a slice; positions outside
    the slice (a panic in Go) leave the list as it is. *)
Definition swap (data : list A) (i j : nat) : list A :=
  match data !! i, data !! j with
  | Some x, Some y => <[i := y]> (<[j := x]> data)
  | _, _ => data
  end.

Lemma length_swap data i j : length (swap data i j) = length data.
Proof.
  unfold swap. destruct (data !! i), (data !! j); try done.
  by rewrite !length_insert.
Qed.

Lemma lookup_swap data i j k :
  i < length data -> j < length data ->
  swap data i j !! k =
    if decide (k = i) then data !! j
    else if decide (k = j) then data !! i else data !! k.
Proof.
  intros Hi Hj. unfold swap.
  destruct (lookup_lt_is_Some_2 data i Hi) as [x Hx].
  destruct (lookup_lt_is_Some_2 data j Hj) as [y Hy].
  rewrite Hx, Hy. destruct (decide (k = i)) as [->|Hki].
  - by rewrite list_lookup_insert_eq by (by rewrite length_insert).
  - rewrite list_lookup_insert_ne by done.
    destruct (decide (k = j)) as [->|Hkj].
    + by rewrite list_lookup_insert_eq.
    + by rewrite list_lookup_insert_ne.
Qed.

Lemma insert_cons_Permutation (m : list A) i a b :
  m !! i = Some b -> b :: <[i := a]> m ≡ₚ a :: m.
Proof.
  intros Hb. pose proof (lookup_lt_Some _ _ _ Hb) as Hlt.
  rewrite insert_take_drop by done.
  rewrite <- (take_drop_middle m i b Hb) at 3.
  rewrite <- !Permutation_middle. apply perm_swap.
Qed.

Lemma swap_Permutation data i j : swap data i j ≡ₚ data.
Proof.
  unfold swap. destruct (data !! i) as [x|] eqn:Hx; [|done].
  destruct (data !! j) as [y|] eqn:Hy; [|done].
  apply (Permutation_cons_inv (a := x)).
  assert (Hm : <[j := x]> data !! i = Some x).
  { destruct (decide (i = j)) as [->|Hne].
    - apply list_lookup_insert_eq. by eapply lookup_lt_Some.
    - by rewrite list_lookup_insert_ne. }
  rewrite (insert_cons_Permutation _ i y x Hm).
  by rewrite (insert_cons_Permutation data j x y Hy).
Qed.

Lemma NoDup_swap data i j : NoDup data -> NoDup (swap data i j).
Proof. intros H. by rewrite swap_Permutation. Qed.
End Slices.

Lemma fmap_swap {A B} (f : A -> B) (data : list A) i j :
  f <$> swap data i j = swap (f <$> data) i j.
Proof.
  unfold swap. rewrite !list_lookup_fmap.
  destruct (data !! i) as [x|]; [|done]. destruct (data !! j) as [y|]; [|done].
  simpl. by rewrite !list_fmap_insert.
Qed.

(** ** Ordering vocabulary shared by the list sort and the priority queue *)

Section Ordering.
Context {T : Type}.

(** The comparator contract of the specification: a strict weak ordering,
    stated on the boolean function the Go code receives. *)
Record strict_weak_order (less : T -> T -> bool) : Prop := {
  swo_irrefl : forall x, less x x = false;
  swo_trans : forall x y z, less x y = true -> less y z = true -> less x z = true;
  swo_negtrans : forall x y z, less x y = false -> less y z = false -> less x z = false
}.

(** [out] is in order for [less]: no later element is strictly before an
    earlier one. *)
Definition in_order (less : T -> T -> bool) (out : list T) : Prop :=
  forall i j x y, i < j -> out !! i = Some x -> out !! j = Some y -> less y x = false.

(** Two values compare equal under [less]. *)
Definition equiv_by (less : T -> T -> bool) (x y : T) : bool :=
  negb (less x y) && negb (less y x).

(** [out] keeps, for every value [x], the elements of [l] that compare
    equal to [x] in their original relative order. *)
Definition stable_for (less : T -> T -> bool) (l out : list T) : Prop :=
  forall x, List.filter (equiv_by less x) out = List.filter (equiv_by less x) l.
End Ordering.

Section OrderingLemmas.
Context {T : Type} (less : T -> T -> bool).

(** [x] is not after [y]. *)
Definition le_of (x y : T) : Prop := less y x = false.

Lemma StronglySorted_in_order l :
  StronglySorted le_of l -> in_order less l.
Proof.
  induction 1 as [|x l Hs IH Hx]; intros i j a b Hij Ha Hb.
  - done.
  - destruct j as [|j']; [lia|]. simpl in Hb. destruct i as [|i']; simpl in Ha.
    + injection Ha as <-. rewrite Forall_forall in Hx.
      apply Hx, list_elem_of_lookup. eauto.
    + apply (IH i' j'); [lia|done..].
Qed.

Lemma in_order_short l : length l <= 1 -> in_order less l.
Proof.
  intros Hl i j a b Hij Ha Hb. apply lookup_lt_Some in Hb. lia.
Qed.

Lemma swo_asym : strict_weak_order less ->
  forall x y, less x y = true -> less y x = false.
Proof.
  intros [Hirr Htr _] x y Hxy. destruct (less y x) eqn:Hyx; [|done].
  by rewrite <- (Hirr x), (Htr x y x Hxy Hyx).
Qed.
End OrderingLemmas.

(** ** Go's [sort.Slice] on short slices

    [sort.Slice] is standard-library code.  On a slice of at most 12
    elements it is an insertion sort (Go 1.19 and later); in Go 1.18, the
    first release with generics, the insertion sort is preceded by one
    Shell pass with gap 6.  These are the instances used to run
    [dll.SortFunc] on concrete lists; both meet the documented contract of
    [sort.Slice]. *)

Module sort.
Section Sort.
Context {T : Type} (less : T -> T -> bool).

(** [for j := i; j > a && less(data[j], data[j-1]); j-- { swap(j, j-1) }]
    with [a = 0]. *)
Fixpoint insert_loop (j : nat) (data : list T) : list T :=
  match j with
  | O => data
  | S j' =>
      match data !! j, data !! j' with
      | Some x, Some y =>
          if less x y then insert_loop j' (swap data j j') else data
      | _, _ => data
      end
  end.

(** [for i := a + 1; i < b; i++ { ... }] with [a = 0], [b = len(data)]. *)
Definition insertionSort (data : list T) : list T :=
  foldl (fun d i => insert_loop i d) data (seq 1 (length data - 1)).

(** Go 1.18: [for i := a + 6; i < b; i++ { if less(i, i-6) { swap(i, i-6) } }]. *)
Definition shellPass (data : list T) : list T :=
  foldl (fun d i =>
           match d !! i, d !! (i - 6) with
           | Some x, Some y => if less x y then swap d i (i - 6) else d
           | _, _ => d
           end) data (seq 6 (length data - 6)).

Definition shellInsertionSort (data : list T) : list T :=
  if length data <=? 1 then data else insertionSort (shellPass data).

(** *** The insertion sort sorts *)

Lemma lookup_adjacent_0 (pre post : list T) x y :
  (pre ++ y :: x :: post) !! length pre = Some y.
Proof. by apply list_lookup_middle. Qed.

Lemma lookup_adjacent_1 (pre post : list T) x y :
  (pre ++ y :: x :: post) !! S (length pre) = Some x.
Proof.
  rewrite lookup_app_r by lia.
  by replace (S (length pre) - length pre) with 1 by lia.
Qed.

Lemma swap_adjacent (pre post : list T) x y :
  swap (pre ++ y :: x :: post) (S (length pre)) (length pre) = pre ++ x :: y :: post.
Proof.
  unfold swap. rewrite lookup_adjacent_1, lookup_adjacent_0.
  rewrite (insert_app_r_alt pre _ (length pre)) by lia.
  rewrite Nat.sub_diag. simpl.
  rewrite (insert_app_r_alt pre _ (S (length pre))) by lia.
  replace (S (length pre) - length pre) with 1 by lia. done.
Qed.

Lemma insert_loop_spec (pre : list T) :
  forall x post,
  exists pre1 pre2,
    pre = pre1 ++ pre2 /\
    insert_loop (length pre) (pre ++ x :: post) = pre1 ++ x :: pre2 ++ post /\
    Forall (fun y => less x y = true) pre2 /\
    match last pre1 with Some y => less x y = false | None => True end.
Proof.
  induction pre as [|y pre IH] using rev_ind; intros x post.
  - exists [], []. done.
  - rewrite length_app. simpl. replace (length pre + 1) with (S (length pre)) by lia.
    cbn [insert_loop]. rewrite <- app_assoc. simpl.
    rewrite lookup_adjacent_1, lookup_adjacent_0.
    destruct (less x y) eqn:Hxy.
    + rewrite swap_adjacent.
      destruct (IH x (y :: post)) as (p1 & p2 & -> & E & Hall & Hlast).
      exists p1, (p2 ++ [y]). rewrite E, <- !app_assoc. simpl.
      split; [done|]. split; [done|]. split; [|done].
      apply Forall_app. split; [done|]. by apply Forall_singleton.
    + exists (pre ++ [y]), []. rewrite app_nil_r, <- app_assoc, last_snoc. done.
Qed.

Section Correct.
Hypothesis Hswo : strict_weak_order less.

Lemma sorted_before_last (l : list T) x :
  StronglySorted (le_of less) l ->
  match last l with Some y => less x y = false | None => True end ->
  Forall (fun y => le_of less y x) l.
Proof.
  intros Hs Hl. apply Forall_forall. intros y Hy.
  destruct l as [|z l] using rev_ind; [by apply elem_of_nil in Hy|].
  rewrite last_snoc in Hl. apply StronglySorted_app in Hs as (Hle & _ & _).
  apply elem_of_app in Hy as [Hy|Hy].
  - unfold le_of. destruct Hswo as [_ _ Hnt].
    apply (Hnt x z y); [done|]. apply Hle; [done|]. apply list_elem_of_singleton. done.
  - apply list_elem_of_singleton in Hy. by subst.
Qed.

Lemma insert_loop_sorted (pre post : list T) x :
  StronglySorted (le_of less) pre ->
  exists pre',
    insert_loop (length pre) (pre ++ x :: post) = pre' ++ post /\
    length pre' = S (length pre) /\
    StronglySorted (le_of less) pre' /\
    pre' ≡ₚ pre ++ [x].
Proof.
  intros Hs. destruct (insert_loop_spec pre x post) as (p1 & p2 & -> & E & Hall & Hlast).
  exists (p1 ++ x :: p2). rewrite E, <- app_assoc. simpl. split; [done|].
  split; [rewrite !length_app; simpl; lia|]. split.
  - apply StronglySorted_app in Hs as (H12 & H1 & H2).
    apply StronglySorted_app. split; [|split; [done|]].
    + intros a b Ha Hb. apply elem_of_cons in Hb as [->|Hb]; [|by apply H12].
      pose proof (sorted_before_last p1 x H1 Hlast) as Hf.
      rewrite Forall_forall in Hf. by apply Hf.
    + apply StronglySorted_cons. split; [|done].
      eapply Forall_impl; [exact Hall|]. intros y Hy. simpl in Hy.
      unfold le_of. by apply swo_asym.
  - rewrite <- app_assoc. apply Permutation_app_head.
    apply Permutation_cons_append.
Qed.

Lemma insertion_steps_sorted (post : list T) :
  forall pre,
    StronglySorted (le_of less) pre ->
    exists out,
      foldl (fun d i => insert_loop i d) (pre ++ post)
            (seq (length pre) (length post)) = out /\
      StronglySorted (le_of less) out /\ out ≡ₚ pre ++ post.
Proof.
  induction post as [|x post IH]; intros pre Hs.
  - exists pre. rewrite app_nil_r. done.
  - destruct (insert_loop_sorted pre post x Hs) as (pre' & E & Hlen & Hs' & Hp).
    destruct (IH pre' Hs') as (out & Eo & Hso & Hpo).
    exists out. simpl. rewrite E, <- Hlen. split; [done|]. split; [done|].
    rewrite Hpo, Hp, <- app_assoc. done.
Qed.

Lemma insertionSort_sorted (data : list T) :
  StronglySorted (le_of less) (insertionSort data) /\ insertionSort data ≡ₚ data.
Proof.
  unfold insertionSort. destruct data as [|x data]; [split; [constructor|done]|].
  simpl. rewrite Nat.sub_0_r.
  destruct (insertion_steps_sorted data [x]) as (out & E & Hs & Hp).
  { repeat constructor. }
  simpl in E. rewrite E. done.
Qed.

Lemma insertionSort_in_order (data : list T) : in_order less (insertionSort data).
Proof. apply StronglySorted_in_order, insertionSort_sorted. Qed.
End Correct.

(** Whatever the comparator, the result is a rearrangement. *)
Lemma insert_loop_Permutation j : forall data, insert_loop j data ≡ₚ data.
Proof.
  induction j as [|j IH]; intros data; simpl; [done|].
  destruct (data !! S j); [|done]. destruct (data !! j); [|done].
  destruct (less _ _); [|done]. by rewrite IH, swap_Permutation.
Qed.

Lemma insertionSort_Permutation (data : list T) : insertionSort data ≡ₚ data.
Proof.
  unfold insertionSort. generalize (seq 1 (length data - 1)) as idx.
  intros idx. revert data.
  induction idx as [|i idx IH]; intros data; simpl; [done|].
  by rewrite IH, insert_loop_Permutation.
Qed.

Lemma shellPass_Permutation (data : list T) : shellPass data ≡ₚ data.
Proof.
  unfold shellPass. generalize (seq 6 (length data - 6)) as idx.
  intros idx. revert data.
  induction idx as [|i idx IH]; intros data; simpl; [done|].
  rewrite IH. destruct (data !! i); [|done]. destruct (data !! (i - 6)); [|done].
  destruct (less _ _); [|done]. apply swap_Permutation.
Qed.

Lemma shellInsertionSort_Permutation (data : list T) :
  shellInsertionSort data ≡ₚ data.
Proof.
  unfold shellInsertionSort. destruct (length data <=? 1); [done|].
  by rewrite insertionSort_Permutation, shellPass_Permutation.
Qed.

Lemma shellInsertionSort_in_order (data : list T) :
  strict_weak_order less -> in_order less (shellInsertionSort data).
Proof.
  intros Hswo. unfold shellInsertionSort. destruct (length data <=? 1) eqn:E.
  - apply in_order_short. by apply Nat.leb_le.
  - by apply insertionSort_in_order.
Qed.
End Sort.
End sort.

(** ** Package dll *)

Module dll.
Section DLL.
Context {T : Type} (zero : T).

(** [*Node[T]]: an address in the node store, [None] for [nil]. *)
Abbreviation ptr := (option nat).

(** [type Node[T any] struct { Value T; prev, next *Node[T] }] *)
Record Node := mkNode { Value : T; prev : ptr; next : ptr }.

(** [type List[T any] struct { head, tail *Node[T]; len int }] *)
Record List := mkList { head : ptr; tail : ptr; len : Z }.

(** The node store: every node ever allocated, by address.  Allocation
    ([&Node[T]{Value: v}]) appends a node whose links are [nil]. *)
Abbreviation store := (list Node).

Definition node (st : store) (a : nat) : Node :=
  default (mkNode zero None None) (st !! a).

(** [a.prev = p] and [a.next = p]. *)
Definition set_prev (a : nat) (p : ptr) (st : store) : store :=
  alter (fun n => mkNode (Value n) p (next n)) a st.
Definition set_next (a : nat) (p : ptr) (st : store) : store :=
  alter (fun n => mkNode (Value n) (prev n) p) a st.

Definition set_head (l : List) (p : ptr) : List := mkList p (tail l) (len l).
Definition set_tail (l : List) (p : ptr) : List := mkList (head l) p (len l).
Definition set_len (l : List) (n : Z) : List := mkList (head l) (tail l) n.

(** [func New[T any]() *List[T]] *)
Definition New : List := mkList None None 0.

Definition Len (l : List) : Z := len l.
Definition Front (l : List) : ptr := head l.
Definition Back (l : List) : ptr := tail l.

(** [PushFront]: allocate [n]; on an empty list it becomes head and tail,
    otherwise it is linked before the head. *)
Definition PushFront (st : store) (l : List) (v : T) : store * List * nat :=
  let n := length st in
  let st := st ++ [mkNode v None None] in
  match head l with
  | None => (st, mkList (Some n) (Some n) (len l + 1), n)
  | Some h =>
      let st := set_next n (Some h) st in
      let st := set_prev h (Some n) st in
      (st, mkList (Some n) (tail l) (len l + 1), n)
  end.

(** [PushBack]: the mirror image on the tail. *)
Definition PushBack (st : store) (l : List) (v : T) : store * List * nat :=
  let n := length st in
  let st := st ++ [mkNode v None None] in
  match tail l with
  | None => (st, mkList (Some n) (Some n) (len l + 1), n)
  | Some t =>
      let st := set_prev n (Some t) st in
      let st := set_next t (Some n) st in
      (st, mkList (head l) (Some n) (len l + 1), n)
  end.

(** [func (l *List[T]) Remove(n *Node[T]) (zero T)]: one result, the value.
    The statements are kept in source order and every field is read from
    the store as it is at that statement. *)
Definition Remove (st : store) (l : List) (n : ptr) : store * List * T :=
  match n with
  | None => (st, l, zero)
  | Some a =>
      if (len l =? 0)%Z then (st, l, zero)
      else
        let '(st, l) :=
          match prev (node st a) with
          | Some p => (set_next p (next (node st a)) st, l)
          | None => (st, set_head l (next (node st a)))
          end in
        let '(st, l) :=
          match next (node st a) with
          | Some q => (set_prev q (prev (node st a)) st, l)
          | None => (st, set_tail l (prev (node st a)))
          end in
        let st := set_prev a None st in
        let st := set_next a None st in
        (st, set_len l (len l - 1), Value (node st a))
  end.

(** [MoveToFront]: guard; [l.Remove(n)]; [val := n.Value]; [l.PushFront(val)]
    (the node [PushFront] allocates is not returned to the caller). *)
Definition MoveToFront (st : store) (l : List) (n : ptr) : store * List :=
  match n with
  | None => (st, l)
  | Some a =>
      if bool_decide (n = head l) || (len l <? 2)%Z then (st, l)
      else
        let '(st, l, _) := Remove st l n in
        let val := Value (node st a) in
        let '(st, l, _) := PushFront st l val in
        (st, l)
  end.

Definition MoveToBack (st : store) (l : List) (n : ptr) : store * List :=
  match n with
  | None => (st, l)
  | Some a =>
      if bool_decide (n = tail l) || (len l <? 2)%Z then (st, l)
      else
        let '(st, l, _) := Remove st l n in
        let val := Value (node st a) in
        let '(st, l, _) := PushBack st l val in
        (st, l)
  end.

(** [for e := l.head; e != nil; e = e.next { out = append(out, e.Value) }].
    The loop follows [next] links; [None] stands for a walk that does not
    end within the fuel. *)
Fixpoint walk (fuel : nat) (st : store) (e : ptr) : option (list T) :=
  match e with
  | None => Some []
  | Some a =>
      match fuel with
      | O => None
      | S fuel' => cons (Value (node st a)) <$> walk fuel' st (next (node st a))
      end
  end.

(** [ToSlice].  A walk over distinct nodes visits at most every address of
    the store once (and then at most one address outside it), so this fuel
    is enough whenever the loop terminates. *)
Definition ToSlice (st : store) (l : List) : option (list T) :=
  walk (S (length st)) st (head l).

(** The loop of [Clear]: [n := e.next; e.prev = nil; e.next = nil; e = n]. *)
Fixpoint clear_loop (fuel : nat) (st : store) (e : ptr) : option store :=
  match e with
  | None => Some st
  | Some a =>
      match fuel with
      | O => None
      | S fuel' =>
          let n := next (node st a) in
          let st := set_prev a None st in
          let st := set_next a None st in
          clear_loop fuel' st n
      end
  end.

Definition Clear (st : store) (l : List) : option (store * List) :=
  st' ← clear_loop (S (length st)) st (head l);
  Some (st', mkList None None 0).

(** [FromSlice]: [l.Clear()], then [PushBack] of every element. *)
Definition pushBackAll (st : store) (l : List) (s : list T) : store * List :=
  foldl (fun '(st, l) v => let '(st, l, _) := PushBack st l v in (st, l)) (st, l) s.

Definition FromSlice (st : store) (l : List) (s : list T) : option (store * List) :=
  '(st, l) ← Clear st l;
  Some (pushBackAll st l s).

(** [InsertAfter]: [nil] and the tail go through [PushBack]; otherwise the
    new node is linked between [n] and [n.next], in source order:
    [next := n.next; newNode.prev = n; newNode.next = next; n.next = newNode;
    if next != nil { next.prev = newNode }; l.len++]. *)
Definition InsertAfter (st : store) (l : List) (n : ptr) (v : T)
  : store * List * nat :=
  match n with
  | None => PushBack st l v
  | Some a =>
      if bool_decide (n = tail l) then PushBack st l v
      else
        let newNode := length st in
        let st := st ++ [mkNode v None None] in
        let nx := next (node st a) in
        let st := set_prev newNode (Some a) st in
        let st := set_next newNode nx st in
        let st := set_next a (Some newNode) st in
        let st := match nx with
                  | Some q => set_prev q (Some newNode) st
                  | None => st
                  end in
        (st, set_len l (len l + 1), newNode)
  end.

(** [InsertBefore]: [nil] and the head go through [PushFront]; otherwise
    [prev := n.prev; newNode.next = n; newNode.prev = prev; n.prev = newNode;
    if prev != nil { prev.next = newNode }; l.len++]. *)
Definition InsertBefore (st : store) (l : List) (n : ptr) (v : T)
  : store * List * nat :=
  match n with
  | None => PushFront st l v
  | Some a =>
      if bool_decide (n = head l) then PushFront st l v
      else
        let newNode := length st in
        let st := st ++ [mkNode v None None] in
        let pv := prev (node st a) in
        let st := set_next newNode (Some a) st in
        let st := set_prev newNode pv st in
        let st := set_prev a (Some newNode) st in
        let st := match pv with
                  | Some p => set_next p (Some newNode) st
                  | None => st
                  end in
        (st, set_len l (len l + 1), newNode)
  end.

(** [Find]: [for e := l.head; e != nil; e = e.next { if f(e.Value) { return e } };
    return nil].  The outer [None] stands for a walk that does not end
    within the fuel. *)
Fixpoint find_loop (fuel : nat) (st : store) (e : ptr) (f : T -> bool)
  : option ptr :=
  match e with
  | None => Some None
  | Some a =>
      match fuel with
      | O => None
      | S fuel' =>
          if f (Value (node st a)) then Some (Some a)
          else find_loop fuel' st (next (node st a)) f
      end
  end.

Definition Find (st : store) (l : List) (f : T -> bool) : option ptr :=
  find_loop (S (length st)) st (head l) f.

(** The loop of [Reverse]:
    [cur.prev, cur.next = cur.next, cur.prev; cur = cur.prev]. *)
Fixpoint reverse_loop (fuel : nat) (st : store) (cur : ptr) : option store :=
  match cur with
  | None => Some st
  | Some a =>
      match fuel with
      | O => None
      | S fuel' =>
          let p := prev (node st a) in
          let nx := next (node st a) in
          let st := set_prev a nx st in
          let st := set_next a p st in
          reverse_loop fuel' st (prev (node st a))
      end
  end.

(** [Reverse]: nothing below two elements; otherwise swap the links of
    every node from the head on, then swap [head] and [tail]. *)
Definition Reverse (st : store) (l : List) : option (store * List) :=
  if (len l <? 2)%Z then Some (st, l)
  else
    st' ← reverse_loop (S (length st)) st (head l);
    Some (st', mkList (tail l) (head l) (len l)).

(** [n.Prev()] and [n.Next()] on a non-nil node. *)
Definition Prev (st : store) (a : nat) : ptr := prev (node st a).
Definition Next (st : store) (a : nat) : ptr := next (node st a).

(** [sort.Slice] belongs to Go's standard library, not to this repository.
    It is a parameter here, with the contract its documentation gives: it
    rearranges the slice (by swaps), the result is sorted when [less] is a
    strict weak ordering, and the sort is not guaranteed to be stable. *)
Variable sort_Slice : list T -> (T -> T -> bool) -> list T.

(** [SortFunc]: nothing below two elements; otherwise snapshot, sort the
    snapshot, rebuild. *)
Definition SortFunc (st : store) (l : List) (less : T -> T -> bool)
  : option (store * List) :=
  if (len l <? 2)%Z then Some (st, l)
  else
    slice ← ToSlice st l;
    FromSlice st l (sort_Slice slice less).

(** *** The representation invariant

    [addrs] lists the addresses of the nodes of the list from head to
    tail.  The nodes are distinct and allocated; each node's [prev] and
    [next] are its neighbours in [addrs] ([nil] at the ends); [head] and
    [tail] are the ends and [len] is the count. *)
Definition linked (st : store) (addrs : list nat) : Prop :=
  NoDup addrs /\
  forall i a, addrs !! i = Some a ->
    a < length st /\
    prev (node st a) = match i with O => None | S i' => addrs !! i' end /\
    next (node st a) = addrs !! S i.

Definition wf (st : store) (l : List) (addrs : list nat) : Prop :=
  linked st addrs /\
  head l = addrs !! 0 /\
  tail l = last addrs /\
  len l = Z.of_nat (length addrs).

(** The values held by the nodes [addrs], in that order. *)
Definition values (st : store) (addrs : list nat) : list T :=
  (fun a => Value (node st a)) <$> addrs.

(** *** Store lemmas *)

Lemma length_set_prev a p st : length (set_prev a p st) = length st.
Proof. apply length_alter. Qed.

Lemma length_set_next a p st : length (set_next a p st) = length st.
Proof. apply length_alter. Qed.

Lemma node_set_prev_ne a b p st : a <> b -> node (set_prev a p st) b = node st b.
Proof. intros H. unfold node, set_prev. by rewrite list_lookup_alter_ne. Qed.

Lemma node_set_next_ne a b p st : a <> b -> node (set_next a p st) b = node st b.
Proof. intros H. unfold node, set_next. by rewrite list_lookup_alter_ne. Qed.

Lemma node_set_prev_eq a p st :
  a < length st ->
  node (set_prev a p st) a = mkNode (Value (node st a)) p (next (node st a)).
Proof.
  intros H. unfold node, set_prev. rewrite list_lookup_alter_eq.
  destruct (lookup_lt_is_Some_2 st a H) as [x ->]. done.
Qed.

Lemma node_set_next_eq a p st :
  a < length st ->
  node (set_next a p st) a = mkNode (Value (node st a)) (prev (node st a)) p.
Proof.
  intros H. unfold node, set_next. rewrite list_lookup_alter_eq.
  destruct (lookup_lt_is_Some_2 st a H) as [x ->]. done.
Qed.

Lemma Value_set_prev a b p st : Value (node (set_prev a p st) b) = Value (node st b).
Proof.
  unfold node, set_prev. destruct (decide (a = b)) as [->|Hne].
  - rewrite list_lookup_alter_eq. by destruct (st !! b).
  - by rewrite list_lookup_alter_ne.
Qed.

Lemma Value_set_next a b p st : Value (node (set_next a p st) b) = Value (node st b).
Proof.
  unfold node, set_next. destruct (decide (a = b)) as [->|Hne].
  - rewrite list_lookup_alter_eq. by destruct (st !! b).
  - by rewrite list_lookup_alter_ne.
Qed.

Lemma node_app_l st x a : a < length st -> node (st ++ x) a = node st a.
Proof. intros H. unfold node. by rewrite lookup_app_l. Qed.

Lemma node_app_new st x : node (st ++ [x]) (length st) = x.
Proof. unfold node. by rewrite list_lookup_middle. Qed.

(** *** Traversal of a well-formed list *)

Lemma linked_bound st addrs : linked st addrs -> length addrs <= length st.
Proof.
  intros [Hnd Hl].
  apply Nat.le_trans with (length (seq 0 (length st)));
    [|by rewrite length_seq].
  apply submseteq_length, NoDup_submseteq; [done|].
  intros a Ha. apply list_elem_of_lookup in Ha as [i Hi].
  destruct (Hl i a Hi) as [Hlt _]. apply elem_of_seq. lia.
Qed.

Lemma walk_linked st addrs :
  linked st addrs ->
  forall fuel i, length addrs - i <= fuel ->
    walk fuel st (addrs !! i) = Some (values st (drop i addrs)).
Proof.
  intros [Hnd Hl]. induction fuel as [|fuel IH]; intros i Hi.
  - rewrite lookup_ge_None_2 by lia. rewrite drop_ge by lia. done.
  - destruct (addrs !! i) as [a|] eqn:Ha.
    + destruct (Hl i a Ha) as (_ & _ & Hn). cbn [walk]. rewrite Hn.
      rewrite IH by lia.
      rewrite (drop_S _ _ _ Ha). done.
    + apply lookup_ge_None_1 in Ha. rewrite drop_ge by lia. done.
Qed.

Lemma ToSlice_wf st l addrs :
  wf st l addrs -> ToSlice st l = Some (values st addrs).
Proof.
  intros (Hl & Hh & _ & _). unfold ToSlice. rewrite Hh.
  rewrite (walk_linked _ _ Hl); [by rewrite drop_0|].
  pose proof (linked_bound _ _ Hl). lia.
Qed.

Lemma wf_New st : wf st New [].
Proof.
  repeat split; simpl; try done. apply NoDup_nil_2.
Qed.

(** *** Field reads after a link update *)

Lemma prev_set_next a b p st : prev (node (set_next a p st) b) = prev (node st b).
Proof.
  unfold node, set_next. destruct (decide (a = b)) as [->|Hne].
  - rewrite list_lookup_alter_eq. by destruct (st !! b).
  - by rewrite list_lookup_alter_ne.
Qed.

Lemma next_set_prev a b p st : next (node (set_prev a p st) b) = next (node st b).
Proof.
  unfold node, set_prev. destruct (decide (a = b)) as [->|Hne].
  - rewrite list_lookup_alter_eq. by destruct (st !! b).
  - by rewrite list_lookup_alter_ne.
Qed.

Lemma prev_set_prev a b p st :
  a < length st ->
  prev (node (set_prev a p st) b) = if decide (a = b) then p else prev (node st b).
Proof.
  intros H. destruct (decide (a = b)) as [->|Hne].
  - by rewrite node_set_prev_eq.
  - by rewrite node_set_prev_ne.
Qed.

Lemma next_set_next a b p st :
  a < length st ->
  next (node (set_next a p st) b) = if decide (a = b) then p else next (node st b).
Proof.
  intros H. destruct (decide (a = b)) as [->|Hne].
  - by rewrite node_set_next_eq.
  - by rewrite node_set_next_ne.
Qed.

Lemma values_ext st st' addrs :
  (forall a, a ∈ addrs -> Value (node st' a) = Value (node st a)) ->
  values st' addrs = values st addrs.
Proof.
  intros H. unfold values. apply list_fmap_ext. intros i a Ha. simpl.
  apply H. apply list_elem_of_lookup. eauto.
Qed.

Lemma linked_lookup_inj st addrs i j a :
  linked st addrs -> addrs !! i = Some a -> addrs !! j = Some a -> i = j.
Proof. intros [Hnd _]. by apply NoDup_lookup. Qed.

(** *** PushBack and PushFront keep the invariant *)

Lemma PushBack_wf st l addrs v :
  wf st l addrs ->
  exists st' l',
    PushBack st l v = (st', l', length st) /\
    wf st' l' (addrs ++ [length st]) /\
    values st' (addrs ++ [length st]) = values st addrs ++ [v] /\
    length st' = S (length st).
Proof.
  intros (Hl & Hh & Ht & Hn). pose proof Hl as [Hnd Hlk].
  set (n := length st).
  assert (Hfresh : n ∉ addrs).
  { intros Hin. apply list_elem_of_lookup in Hin as [i Hi].
    destruct (Hlk i n Hi) as [Hlt _]. unfold n in Hlt. lia. }
  assert (Hnd' : NoDup (addrs ++ [n])).
  { apply NoDup_app. split; [done|]. split; [|apply NoDup_singleton].
    intros x Hx Hx'. apply list_elem_of_singleton in Hx'. by subst. }
  unfold PushBack. fold n. destruct (tail l) as [t|] eqn:Etl.
  - (* non-empty list: [t] is the last node *)
    assert (Hti : addrs !! pred (length addrs) = Some t)
      by (by rewrite <- last_lookup, <- Ht).
    destruct (Hlk _ _ Hti) as (Htlt & _ & _).
    assert (Hlen : 0 < length addrs) by (apply lookup_lt_Some in Hti; lia).
    eexists _, _. split; [reflexivity|]. split; [|split].
    + split; [|split; [|split]]; simpl.
      * split; [done|]. intros i a Hi.
        rewrite length_set_next, length_set_prev, length_app. simpl.
        rewrite next_set_next
          by (rewrite length_set_prev, length_app; simpl; lia).
        rewrite prev_set_next, next_set_prev.
        rewrite prev_set_prev by (rewrite length_app; simpl; fold n; lia).
        apply lookup_app_Some in Hi as [Hi|[Hge Hi]].
        -- destruct (Hlk i a Hi) as (Halt & Hp & Hx).
           assert (a <> n) by (unfold n; lia).
           rewrite decide_False by done.
           rewrite node_app_l by done. split; [lia|]. split.
           ++ rewrite Hp. destruct i as [|i']; [done|].
              apply lookup_lt_Some in Hi. by rewrite lookup_app_l by lia.
           ++ destruct (decide (t = a)) as [->|Hne].
              ** assert (i = pred (length addrs))
                   by (eapply linked_lookup_inj; eauto).
                 subst i. replace (S (pred (length addrs))) with (length addrs) by lia.
                 by rewrite list_lookup_middle.
              ** rewrite Hx. apply lookup_lt_Some in Hi as Hilt.
                 destruct (decide (S i < length addrs)).
                 --- by rewrite lookup_app_l by lia.
                 --- exfalso. apply Hne.
                     replace i with (pred (length addrs)) in Hi by lia. congruence.
        -- apply list_lookup_singleton_Some in Hi as [Hi0 <-].
           assert (i = length addrs) by lia. subst i.
           rewrite decide_True by done. rewrite decide_False by lia.
           rewrite node_app_new. simpl. split; [fold n; lia|]. split.
           ++ destruct (length addrs) as [|k] eqn:Ek; [lia|].
              rewrite lookup_app_l by lia. by simpl in Hti.
           ++ rewrite lookup_ge_None_2; [done|]. rewrite length_app. simpl. lia.
      * rewrite Hh. destruct addrs; [simpl in Hlen; lia | done].
      * by rewrite last_snoc.
      * rewrite Hn, length_app. simpl. lia.
    + unfold values. rewrite fmap_app. simpl. f_equal.
      * apply list_fmap_ext. intros i a Hi. simpl.
        rewrite Value_set_next, Value_set_prev.
        destruct (Hlk i a Hi) as (Halt & _). by rewrite node_app_l.
      * by rewrite Value_set_next, Value_set_prev, node_app_new.
    + rewrite length_set_next, length_set_prev, length_app. simpl. lia.
  - (* empty list *)
    assert (addrs = []) as ->.
    { destruct addrs as [|a addrs] using rev_ind; [done|].
      rewrite last_snoc in Ht. congruence. }
    eexists _, _. split; [reflexivity|]. split; [|split].
    + split; [|split; [|split]]; simpl; try done.
      * split; [apply NoDup_singleton|]. intros i a Hi.
        apply list_lookup_singleton_Some in Hi as [-> <-].
        rewrite node_app_new, length_app. simpl. fold n. split; [lia|done].
      * rewrite Hn. simpl. lia.
    + unfold values. simpl. by rewrite node_app_new.
    + rewrite length_app. simpl. lia.
Qed.

Lemma PushFront_wf st l addrs v :
  wf st l addrs ->
  exists st' l',
    PushFront st l v = (st', l', length st) /\
    wf st' l' (length st :: addrs) /\
    values st' (length st :: addrs) = v :: values st addrs /\
    length st' = S (length st).
Proof.
  intros (Hl & Hh & Ht & Hn). pose proof Hl as [Hnd Hlk].
  set (n := length st).
  assert (Hfresh : n ∉ addrs).
  { intros Hin. apply list_elem_of_lookup in Hin as [i Hi].
    destruct (Hlk i n Hi) as [Hlt _]. unfold n in Hlt. lia. }
  unfold PushFront. fold n. destruct (head l) as [h|] eqn:Ehd.
  - symmetry in Hh. destruct (Hlk _ _ Hh) as (Hhlt & _ & _).
    eexists _, _. split; [reflexivity|]. split; [|split].
    + split; [|split; [|split]]; simpl.
      * split; [by apply NoDup_cons|]. intros i a Hi.
        rewrite length_set_prev, length_set_next, length_app. simpl.
        rewrite prev_set_prev
          by (rewrite length_set_next, length_app; simpl; lia).
        rewrite next_set_prev, prev_set_next.
        rewrite next_set_next by (rewrite length_app; simpl; fold n; lia).
        destruct i as [|i']; simpl in Hi.
        -- injection Hi as <-. rewrite decide_False by (fold n in Hhlt; lia).
           rewrite decide_True by done. rewrite node_app_new. simpl.
           split; [fold n; lia|]. by split.
        -- destruct (Hlk i' a Hi) as (Halt & Hp & Hx).
           assert (n <> a) by (unfold n; lia).
           rewrite (decide_False (P := n = a)) by done.
           rewrite node_app_l by done. split; [lia|]. split; [|done].
           destruct (decide (h = a)) as [->|Hne].
           ++ assert (i' = 0) by (eapply linked_lookup_inj; eauto). by subst.
           ++ rewrite Hp. destruct i' as [|i'']; [congruence|done].
      * done.
      * rewrite Ht. destruct addrs; [done|]. done.
      * rewrite Hn. lia.
    + unfold values. simpl. f_equal.
      * by rewrite Value_set_prev, Value_set_next, node_app_new.
      * apply list_fmap_ext. intros i a Hi. simpl.
        rewrite Value_set_prev, Value_set_next.
        destruct (Hlk i a Hi) as (Halt & _). by rewrite node_app_l.
    + rewrite length_set_prev, length_set_next, length_app. simpl. lia.
  - assert (addrs = []) as -> by (destruct addrs; [done | simpl in Hh; congruence]).
    eexists _, _. split; [reflexivity|]. split; [|split].
    + split; [|split; [|split]]; simpl; try done.
      * split; [apply NoDup_singleton|]. intros i a Hi.
        apply list_lookup_singleton_Some in Hi as [-> <-].
        rewrite node_app_new, length_app. simpl. fold n. split; [lia|done].
      * rewrite Hn. simpl. lia.
    + unfold values. simpl. by rewrite node_app_new.
    + rewrite length_app. simpl. lia.
Qed.

(** *** Remove

    What [Remove] does to the store and the list header when the node's
    neighbours (if any) are allocated nodes other than the node itself. *)
Lemma Remove_shape st l a :
  a < length st ->
  (forall p, prev (node st a) = Some p -> p < length st /\ p <> a) ->
  (forall q, next (node st a) = Some q -> q < length st /\ q <> a) ->
  len l <> 0%Z ->
  exists st' l',
    Remove st l (Some a) = (st', l', Value (node st a)) /\
    length st' = length st /\
    (forall b, Value (node st' b) = Value (node st b)) /\
    prev (node st' a) = None /\ next (node st' a) = None /\
    (forall b, b <> a ->
       prev (node st' b) =
         if decide (next (node st a) = Some b) then prev (node st a)
         else prev (node st b)) /\
    (forall b, b <> a ->
       next (node st' b) =
         if decide (prev (node st a) = Some b) then next (node st a)
         else next (node st b)) /\
    head l' = (if decide (prev (node st a) = None) then next (node st a) else head l) /\
    tail l' = (if decide (next (node st a) = None) then prev (node st a) else tail l) /\
    len l' = (len l - 1)%Z.
Proof.
  intros Ha Hp Hq Hlen. unfold Remove.
  rewrite (proj2 (Z.eqb_neq _ _) Hlen).
  destruct (prev (node st a)) as [p|] eqn:Ep;
    [destruct (Hp p eq_refl) as [Hplt Hpa]|];
    (destruct (next (node st a)) as [q|] eqn:Eq;
      [destruct (Hq q eq_refl) as [Hqlt Hqa]|]).
  - (* interior node *)
    rewrite next_set_next, decide_False, Eq by done.
    rewrite prev_set_next, Ep.
    eexists _, _. split.
    { f_equal. by rewrite Value_set_next, Value_set_prev, Value_set_prev, Value_set_next. }
    rewrite !length_set_next, !length_set_prev, !length_set_next.
    split; [done|]. split.
    { intros b. by rewrite Value_set_next, Value_set_prev, Value_set_prev, Value_set_next. }
    split.
    { rewrite prev_set_next, prev_set_prev, decide_True; [done..|].
      by rewrite length_set_prev, length_set_next. }
    split.
    { rewrite next_set_next, decide_True; [done..|].
      by rewrite !length_set_prev, length_set_next. }
    split.
    { intros b Hb. rewrite prev_set_next, !prev_set_prev, decide_False,
        prev_set_next; rewrite ?length_set_prev, ?length_set_next; try done.
      destruct (decide (q = b)) as [->|Hne].
      - by rewrite decide_True.
      - rewrite decide_False; [done|congruence]. }
    split.
    { intros b Hb. rewrite next_set_next, decide_False, !next_set_prev, next_set_next;
        rewrite ?length_set_prev, ?length_set_next; try done.
      destruct (decide (p = b)) as [->|Hne].
      - by rewrite decide_True.
      - rewrite decide_False; [done|congruence]. }
    simpl. done.
  - (* tail node with a predecessor *)
    rewrite next_set_next, decide_False, Eq by done.
    rewrite prev_set_next, Ep.
    eexists _, _. split.
    { f_equal. by rewrite Value_set_next, Value_set_prev, Value_set_next. }
    rewrite !length_set_next, !length_set_prev, !length_set_next.
    split; [done|]. split.
    { intros b. by rewrite Value_set_next, Value_set_prev, Value_set_next. }
    split.
    { rewrite prev_set_next, prev_set_prev, decide_True; [done..|].
      by rewrite length_set_next. }
    split.
    { rewrite next_set_next, decide_True; [done..|].
      by rewrite !length_set_prev, length_set_next. }
    split.
    { intros b Hb. rewrite prev_set_next, !prev_set_prev, decide_False,
        prev_set_next; rewrite ?length_set_prev, ?length_set_next; done. }
    split.
    { intros b Hb. rewrite next_set_next, decide_False, !next_set_prev, next_set_next;
        rewrite ?length_set_prev, ?length_set_next; try done.
      destruct (decide (p = b)) as [->|Hne].
      - by rewrite decide_True.
      - rewrite decide_False; [done|congruence]. }
    simpl. done.
  - (* head node with a successor *)
    eexists _, _. split.
    { f_equal. by rewrite Value_set_next, Value_set_prev, Value_set_prev. }
    rewrite !length_set_next, !length_set_prev.
    split; [done|]. split.
    { intros b. by rewrite Value_set_next, Value_set_prev, Value_set_prev. }
    split.
    { rewrite prev_set_next, prev_set_prev, decide_True; [done..|].
      by rewrite length_set_prev. }
    split.
    { rewrite next_set_next, decide_True; [done..|].
      by rewrite !length_set_prev. }
    split.
    { intros b Hb. rewrite prev_set_next, !prev_set_prev, decide_False;
        rewrite ?length_set_prev, ?length_set_next; try done.
      destruct (decide (q = b)) as [->|Hne].
      - by rewrite decide_True.
      - rewrite decide_False; [done|congruence]. }
    split.
    { intros b Hb. rewrite next_set_next, decide_False, !next_set_prev;
        rewrite ?length_set_prev, ?length_set_next; done. }
    simpl. done.
  - (* the only node *)
    eexists _, _. split.
    { f_equal. by rewrite Value_set_next, Value_set_prev. }
    rewrite !length_set_next, !length_set_prev.
    split; [done|]. split.
    { intros b. by rewrite Value_set_next, Value_set_prev. }
    split.
    { by rewrite prev_set_next, prev_set_prev, decide_True. }
    split.
    { rewrite next_set_next, decide_True; [done..|].
      by rewrite !length_set_prev. }
    split.
    { intros b Hb. by rewrite prev_set_next, !prev_set_prev, decide_False. }
    split.
    { intros b Hb. rewrite next_set_next, decide_False, !next_set_prev;
        rewrite ?length_set_prev; done. }
    simpl. done.
Qed.

Lemma delete_not_elem (addrs : list nat) i a :
  NoDup addrs -> addrs !! i = Some a -> a ∉ delete i addrs.
Proof.
  intros Hnd Hi Hin. apply list_elem_of_lookup in Hin as [k Hk].
  destruct (decide (k < i)).
  - rewrite list_lookup_delete_lt in Hk by done.
    pose proof (NoDup_lookup _ _ _ _ Hnd Hi Hk). lia.
  - rewrite list_lookup_delete_ge in Hk by lia.
    pose proof (NoDup_lookup _ _ _ _ Hnd Hi Hk). lia.
Qed.

(** Removing the live node at position [i] unlinks it: the list is
    well-formed over the remaining nodes, the values are the old ones
    without position [i], and the removed node's links are [nil]. *)
Lemma Remove_wf st l addrs i a :
  wf st l addrs -> addrs !! i = Some a ->
  exists st' l',
    Remove st l (Some a) = (st', l', Value (node st a)) /\
    wf st' l' (delete i addrs) /\
    values st' (delete i addrs) = delete i (values st addrs) /\
    length st' = length st /\
    prev (node st' a) = None /\ next (node st' a) = None /\
    Value (node st' a) = Value (node st a).
Proof.
  intros (Hl & Hh & Ht & Hn) Hi. pose proof Hl as [Hnd Hlk].
  destruct (Hlk i a Hi) as (Ha & HP & HN).
  pose proof (lookup_lt_Some _ _ _ Hi) as Hilt.
  destruct (Remove_shape st l a) as
    (st' & l' & HR & Hlen & HV & Hpa & Hna & Hprev & Hnext & Hhd & Htl & Hln);
    [done| | |lia|].
  { intros p Hp. rewrite HP in Hp. destruct i as [|i']; [done|].
    destruct (Hlk i' p Hp) as (Hplt & _). split; [done|]. intros ->.
    pose proof (NoDup_lookup _ _ _ _ Hnd Hi Hp). lia. }
  { intros q Hq. rewrite HN in Hq.
    destruct (Hlk _ q Hq) as (Hqlt & _). split; [done|]. intros ->.
    pose proof (NoDup_lookup _ _ _ _ Hnd Hi Hq). lia. }
  exists st', l'. split; [done|]. split; [|split; [|done]].
  - split; [|split; [|split]].
    + split; [eapply sublist_NoDup; [done|apply sublist_delete]|].
      intros k b Hk. rewrite Hlen.
      assert (Hba : b <> a).
      { intros ->. eapply delete_not_elem; [done..|].
        apply list_elem_of_lookup; eauto. }
      rewrite Hprev, Hnext by done. rewrite HP, HN.
      destruct (decide (k < i)) as [Hki|Hki].
      * rewrite list_lookup_delete_lt in Hk by done.
        destruct (Hlk k b Hk) as (Hb & HPb & HNb). split; [done|]. split.
        -- rewrite decide_False.
           ++ rewrite HPb. destruct k as [|k']; [done|].
              by rewrite list_lookup_delete_lt by lia.
           ++ intros Hq. pose proof (NoDup_lookup _ _ _ _ Hnd Hk Hq). lia.
        -- destruct i as [|i']; [lia|].
           destruct (decide (addrs !! i' = Some b)) as [Hq|Hq].
           ++ pose proof (NoDup_lookup _ _ _ _ Hnd Hk Hq). subst i'.
              by rewrite list_lookup_delete_ge by lia.
           ++ rewrite HNb. rewrite list_lookup_delete_lt; [done|].
              destruct (decide (S k < S i')); [done|].
              exfalso. apply Hq. by replace i' with k by lia.
      * rewrite list_lookup_delete_ge in Hk by lia.
        destruct (Hlk _ b Hk) as (Hb & HPb & HNb). split; [done|]. split.
        -- destruct (decide (addrs !! S i = Some b)) as [Hq|Hq].
           ++ pose proof (NoDup_lookup _ _ _ _ Hnd Hk Hq).
              assert (k = i) by lia. subst k.
              destruct i as [|i']; [done|].
              by rewrite list_lookup_delete_lt by lia.
           ++ rewrite HPb. destruct k as [|k'].
              ** exfalso. apply Hq. by replace i with 0 by lia.
              ** rewrite list_lookup_delete_ge; [done|].
                 destruct (decide (i <= k')); [done|].
                 exfalso. apply Hq. by replace i with (S k') by lia.
        -- rewrite decide_False.
           ++ rewrite HNb. by rewrite list_lookup_delete_ge by lia.
           ++ destruct i as [|i']; [done|]. intros Hq.
              pose proof (NoDup_lookup _ _ _ _ Hnd Hk Hq). lia.
    + rewrite Hhd, HP, HN. destruct i as [|i'].
      * rewrite decide_True by done. by rewrite list_lookup_delete_ge by lia.
      * rewrite decide_False.
        -- rewrite Hh. by rewrite list_lookup_delete_lt by lia.
        -- intros Hq. apply lookup_ge_None_1 in Hq. lia.
    + rewrite Htl, HP, HN, last_lookup, length_delete by eauto.
      destruct (decide (S i < length addrs)) as [Hlt|Hge].
      * rewrite decide_False.
        -- rewrite Ht, last_lookup. rewrite list_lookup_delete_ge by lia.
           f_equal. lia.
        -- intros Hq. apply lookup_ge_None_1 in Hq. lia.
      * rewrite decide_True by (apply lookup_ge_None_2; lia).
        destruct i as [|i'].
        -- rewrite lookup_ge_None_2; [done|]. rewrite length_delete by eauto. lia.
        -- rewrite list_lookup_delete_lt by lia. f_equal. lia.
    + rewrite Hln, Hn, length_delete by eauto. lia.
  - unfold values. rewrite <- list_fmap_delete. apply list_fmap_ext.
    intros k b _. simpl. apply HV.
Qed.

(** *** Clear, FromSlice *)

Lemma clear_loop_linked addrs :
  NoDup addrs ->
  forall fuel i st,
    length addrs - i <= fuel ->
    (forall k b, i <= k -> addrs !! k = Some b ->
       b < length st /\ next (node st b) = addrs !! S k) ->
    exists st', clear_loop fuel st (addrs !! i) = Some st' /\ length st' = length st.
Proof.
  intros Hnd. induction fuel as [|fuel IH]; intros i st Hfuel Hsuf.
  - rewrite lookup_ge_None_2 by lia. by exists st.
  - destruct (addrs !! i) as [a|] eqn:Ha; [|by exists st].
    destruct (Hsuf i a (le_n _) Ha) as (Halt & Hnx). cbn [clear_loop]. rewrite Hnx.
    destruct (IH (S i) (set_next a None (set_prev a None st))) as (st' & E & Hlen).
    + lia.
    + intros k b Hk Hb. rewrite length_set_next, length_set_prev.
      destruct (Hsuf k b ltac:(lia) Hb) as (Hblt & Hbn). split; [done|].
      assert (a <> b).
      { intros ->. pose proof (NoDup_lookup _ _ _ _ Hnd Ha Hb). lia. }
      rewrite next_set_next, decide_False, next_set_prev by
        (rewrite ?length_set_prev; done). done.
    + exists st'. split; [done|]. by rewrite Hlen, length_set_next, length_set_prev.
Qed.

Lemma Clear_wf st l addrs :
  wf st l addrs ->
  exists st', Clear st l = Some (st', New) /\ wf st' New [].
Proof.
  intros (Hl & Hh & _ & _). pose proof Hl as [Hnd Hlk].
  unfold Clear. rewrite Hh.
  destruct (clear_loop_linked addrs Hnd (S (length st)) 0 st) as (st' & -> & _).
  - pose proof (linked_bound _ _ Hl). lia.
  - intros k b _ Hb. destruct (Hlk k b Hb) as (? & _ & ?). done.
  - exists st'. split; [done|]. apply wf_New.
Qed.

Lemma pushBackAll_wf s :
  forall st l addrs,
    wf st l addrs ->
    exists st' l' addrs',
      pushBackAll st l s = (st', l') /\
      wf st' l' (addrs ++ addrs') /\
      values st' (addrs ++ addrs') = values st addrs ++ s.
Proof.
  induction s as [|v s IH]; intros st l addrs Hwf.
  - exists st, l, []. rewrite !app_nil_r. done.
  - destruct (PushBack_wf st l addrs v Hwf) as (st1 & l1 & E & Hwf1 & Hv1 & _).
    destruct (IH st1 l1 _ Hwf1) as (st' & l' & addrs' & E' & Hwf' & Hv').
    exists st', l', (length st :: addrs'). unfold pushBackAll in *. simpl.
    rewrite E. split; [done|].
    replace (addrs ++ length st :: addrs') with ((addrs ++ [length st]) ++ addrs')
      by (by rewrite <- app_assoc).
    split; [done|]. rewrite Hv', Hv1, <- app_assoc. done.
Qed.

(** List round-trip: [FromSlice(s)] rebuilds a well-formed list whose
    [ToSlice] is [s]. *)
Lemma FromSlice_wf st l addrs s :
  wf st l addrs ->
  exists st' l' addrs',
    FromSlice st l s = Some (st', l') /\
    wf st' l' addrs' /\ values st' addrs' = s /\
    ToSlice st' l' = Some s.
Proof.
  intros Hwf. destruct (Clear_wf _ _ _ Hwf) as (st1 & E1 & Hwf1).
  destruct (pushBackAll_wf s st1 New [] Hwf1) as (st' & l' & addrs' & E & Hwf' & Hv).
  exists st', l', addrs'. unfold FromSlice. rewrite E1. simpl. rewrite E.
  simpl in Hwf', Hv. split; [done|]. split; [done|]. split; [done|].
  by rewrite (ToSlice_wf _ _ _ Hwf'), Hv.
Qed.

(** *** MoveToFront, MoveToBack *)

Lemma MoveToFront_noop st l n :
  n = None \/ n = head l \/ (len l < 2)%Z -> MoveToFront st l n = (st, l).
Proof.
  unfold MoveToFront. intros H. destruct n as [a|]; [|done].
  destruct H as [H|[H|H]]; [done| |].
  - by rewrite bool_decide_eq_true_2.
  - rewrite (proj2 (Z.ltb_lt _ _) H). by rewrite orb_true_r.
Qed.

Lemma MoveToBack_noop st l n :
  n = None \/ n = tail l \/ (len l < 2)%Z -> MoveToBack st l n = (st, l).
Proof.
  unfold MoveToBack. intros H. destruct n as [a|]; [|done].
  destruct H as [H|[H|H]]; [done| |].
  - by rewrite bool_decide_eq_true_2.
  - rewrite (proj2 (Z.ltb_lt _ _) H). by rewrite orb_true_r.
Qed.

(** Moving a live node that is not the head: the value sequence is the
    node's value followed by the others in order and the length is kept,
    but the node at the front is the freshly allocated one; the handle
    passed in is no longer a node of the list. *)
Lemma MoveToFront_wf st l addrs i a :
  wf st l addrs -> addrs !! i = Some a -> 0 < i ->
  exists st' l',
    MoveToFront st l (Some a) = (st', l') /\
    wf st' l' (length st :: delete i addrs) /\
    values st' (length st :: delete i addrs)
      = Value (node st a) :: delete i (values st addrs) /\
    len l' = len l /\
    a ∉ length st :: delete i addrs.
Proof.
  intros Hwf Hi Hpos. pose proof Hwf as ((Hnd & Hlk) & Hh & _ & Hn).
  pose proof (lookup_lt_Some _ _ _ Hi) as Hilt.
  destruct (Remove_wf _ _ _ _ _ Hwf Hi) as (st1 & l1 & E1 & Hwf1 & Hv1 & Hlen1 & _ & _ & HV).
  destruct (PushFront_wf st1 l1 _ (Value (node st1 a)) Hwf1)
    as (st2 & l2 & E2 & Hwf2 & Hv2 & _).
  exists st2, l2. unfold MoveToFront.
  rewrite bool_decide_eq_false_2.
  2:{ rewrite Hh. intros Hq. pose proof (NoDup_lookup _ _ _ _ Hnd Hi (eq_sym Hq)). lia. }
  replace (len l <? 2)%Z with false by (symmetry; apply Z.ltb_ge; lia).
  cbn [orb]. rewrite E1. cbv beta iota zeta. rewrite E2. cbv beta iota.
  rewrite <- Hlen1. split; [done|]. split; [done|].
  split; [by rewrite Hv2, Hv1, HV|]. split.
  - destruct Hwf2 as (_ & _ & _ & ->), Hwf as (_ & _ & _ & ->).
    simpl. rewrite length_delete by eauto. lia.
  - intros Hin. apply elem_of_cons in Hin as [->|Hin].
    + destruct (Hlk i _ Hi) as (Hlt & _). lia.
    + by eapply delete_not_elem.
Qed.

Lemma MoveToBack_wf st l addrs i a :
  wf st l addrs -> addrs !! i = Some a -> S i < length addrs ->
  exists st' l',
    MoveToBack st l (Some a) = (st', l') /\
    wf st' l' (delete i addrs ++ [length st]) /\
    values st' (delete i addrs ++ [length st])
      = delete i (values st addrs) ++ [Value (node st a)] /\
    len l' = len l /\
    a ∉ delete i addrs ++ [length st].
Proof.
  intros Hwf Hi Hpos. pose proof Hwf as ((Hnd & Hlk) & _ & Ht & Hn).
  destruct (Remove_wf _ _ _ _ _ Hwf Hi) as (st1 & l1 & E1 & Hwf1 & Hv1 & Hlen1 & _ & _ & HV).
  destruct (PushBack_wf st1 l1 _ (Value (node st1 a)) Hwf1)
    as (st2 & l2 & E2 & Hwf2 & Hv2 & _).
  exists st2, l2. unfold MoveToBack.
  rewrite bool_decide_eq_false_2.
  2:{ rewrite Ht, last_lookup. intros Hq.
      pose proof (NoDup_lookup _ _ _ _ Hnd Hi (eq_sym Hq)). lia. }
  replace (len l <? 2)%Z with false by (symmetry; apply Z.ltb_ge; lia).
  cbn [orb]. rewrite E1. cbv beta iota zeta. rewrite E2. cbv beta iota.
  rewrite <- Hlen1. split; [done|]. split; [done|].
  split; [by rewrite Hv2, Hv1, HV|]. split.
  - destruct Hwf2 as (_ & _ & _ & ->), Hwf as (_ & _ & _ & ->).
    rewrite length_app, length_delete by eauto. simpl. lia.
  - intros Hin. apply elem_of_app in Hin as [Hin|Hin].
    + by eapply delete_not_elem.
    + apply list_elem_of_singleton in Hin. subst a.
      destruct (Hlk i _ Hi) as (Hlt & _). lia.
Qed.

(** *** SortFunc, under the contract of [sort.Slice] *)

Section SortContract.
Hypothesis sort_Slice_Permutation :
  forall (s : list T) (less : T -> T -> bool), sort_Slice s less ≡ₚ s.
Hypothesis sort_Slice_in_order :
  forall (s : list T) (less : T -> T -> bool),
    strict_weak_order less -> in_order less (sort_Slice s less).

(** C5 (as amended). For a well-formed list and a comparator that is a
    strict weak ordering, [SortFunc(less)] returns, the list it leaves
    is well-formed, and its [ToSlice()] is in order for [less] and is a
    permutation of the values present before the call.  (No stability:
    [sort.Slice] does not promise it.) *)
Theorem SortFunc_sorted_permutation st l addrs (less : T -> T -> bool) :
  wf st l addrs ->
  strict_weak_order less ->
  exists before st' l' addrs' out,
    ToSlice st l = Some before /\
    SortFunc st l less = Some (st', l') /\
    wf st' l' addrs' /\
    ToSlice st' l' = Some out /\
    in_order less out /\
    out ≡ₚ before.
Proof.
  intros Hwf Hswo. pose proof (ToSlice_wf _ _ _ Hwf) as Hts.
  exists (values st addrs). unfold SortFunc.
  destruct (len l <? 2)%Z eqn:Hlen.
  - exists st, l, addrs, (values st addrs).
    do 4 (split; [done|]). split; [|done].
    apply in_order_short. unfold values. rewrite length_fmap.
    apply Z.ltb_lt in Hlen. destruct Hwf as (_ & _ & _ & Hn). lia.
  - rewrite Hts. simpl.
    destruct (FromSlice_wf st l addrs (sort_Slice (values st addrs) less) Hwf)
      as (st' & l' & addrs' & E & Hwf' & _ & Hts').
    exists st', l', addrs', (sort_Slice (values st addrs) less).
    do 4 (split; [done|]). split; [|done].
    by apply sort_Slice_in_order.
Qed.
End SortContract.

(** C4 (as amended). [Remove] returns one result, the value.  Given a live
    handle of a well-formed list it unlinks that node: the list is
    well-formed over the remaining nodes (so neighbour links, head and tail
    are updated), [ToSlice] loses exactly that position, [len] drops by
    one, the removed node's own links are [nil], and the node's value is
    returned.  Given [nil], or any handle while the list is empty, it
    returns the zero value and changes nothing. *)
Theorem Remove_live_nil_empty st l addrs :
  wf st l addrs ->
  (forall i a, addrs !! i = Some a ->
     exists st' l',
       Remove st l (Some a) = (st', l', Value (node st a)) /\
       wf st' l' (delete i addrs) /\
       ToSlice st l = Some (values st addrs) /\
       ToSlice st' l' = Some (delete i (values st addrs)) /\
       len l' = (len l - 1)%Z /\
       prev (node st' a) = None /\ next (node st' a) = None) /\
  Remove st l None = (st, l, zero) /\
  (len l = 0%Z -> forall n, Remove st l n = (st, l, zero)).
Proof.
  intros Hwf. split; [|split].
  - intros i a Hi.
    destruct (Remove_wf _ _ _ _ _ Hwf Hi)
      as (st' & l' & E & Hwf' & Hv & _ & Hp & Hn & _).
    exists st', l'. split; [done|]. split; [done|].
    split; [by apply ToSlice_wf|]. split; [by rewrite (ToSlice_wf _ _ _ Hwf'), Hv|].
    split; [|done].
    destruct Hwf' as (_ & _ & _ & ->), Hwf as (_ & _ & _ & ->).
    rewrite length_delete by eauto. apply lookup_lt_Some in Hi. lia.
  - done.
  - intros H0 [a|]; [|done]. unfold Remove. by rewrite H0.
Qed.

(** *** InsertAfter, InsertBefore *)

(** [x] put at position [j] of [l]. *)
Definition splice {A} (j : nat) (x : A) (l : list A) : list A :=
  take j l ++ x :: drop j l.

Lemma lookup_splice {A} (l : list A) j x k :
  j <= length l ->
  splice j x l !! k =
    if decide (k < j) then l !! k
    else if decide (k = j) then Some x else l !! (k - 1).
Proof.
  intros Hj. unfold splice. destruct (decide (k < j)) as [Hk|Hk].
  - rewrite lookup_app_l by (rewrite length_take; lia). by rewrite lookup_take_lt.
  - rewrite lookup_app_r by (rewrite length_take; lia).
    rewrite length_take. replace (j `min` length l) with j by lia.
    destruct (decide (k = j)) as [->|Hkj].
    + by rewrite Nat.sub_diag.
    + destruct (k - j) as [|d] eqn:Hd; [lia|]. simpl. rewrite lookup_drop.
      f_equal. lia.
Qed.

Lemma length_splice {A} (l : list A) j x : length (splice j x l) = S (length l).
Proof.
  unfold splice. rewrite length_app. simpl. rewrite length_take, length_drop. lia.
Qed.

Lemma splice_Permutation {A} (l : list A) j x : splice j x l ≡ₚ x :: l.
Proof.
  unfold splice. rewrite <- Permutation_middle. by rewrite take_drop.
Qed.

Lemma fmap_splice {A B} (f : A -> B) (l : list A) j x :
  f <$> splice j x l = splice j (f x) (f <$> l).
Proof. unfold splice. by rewrite fmap_app, fmap_cons, fmap_take, fmap_drop. Qed.

Lemma InsertAfter_wf st l addrs i a v :
  wf st l addrs -> addrs !! i = Some a ->
  exists st' l',
    InsertAfter st l (Some a) v = (st', l', length st) /\
    wf st' l' (splice (S i) (length st) addrs) /\
    values st' (splice (S i) (length st) addrs) = splice (S i) v (values st addrs) /\
    length st' = S (length st).
Proof.
  intros Hwf Hi. pose proof Hwf as ((Hnd & Hlk) & Hh & Ht & Hn).
  pose proof (lookup_lt_Some _ _ _ Hi) as Hilt.
  destruct (Hlk i a Hi) as (Halt & HP & HN).
  unfold InsertAfter. destruct (bool_decide (Some a = tail l)) eqn:Etl.
  - apply bool_decide_eq_true_1 in Etl.
    rewrite Ht, last_lookup in Etl.
    assert (i = pred (length addrs)) as Hil
      by (eapply NoDup_lookup; [exact Hnd|exact Hi|by rewrite <- Etl]).
    assert (Hs : forall A (x : A) (k : list A), length k = length addrs ->
                   splice (S i) x k = k ++ [x]).
    { intros A x k Hk. unfold splice.
      rewrite take_ge, drop_ge by lia. done. }
    rewrite (Hs _ _ addrs eq_refl).
    rewrite (Hs _ v (values st addrs)) by (unfold values; by rewrite length_fmap).
    apply PushBack_wf. exact Hwf.
  - apply bool_decide_eq_false_1 in Etl.
    assert (HSi : S i < length addrs).
    { destruct (decide (S i < length addrs)); [done|]. exfalso. apply Etl.
      rewrite Ht, last_lookup. replace (pred (length addrs)) with i by lia. done. }
    destruct (lookup_lt_is_Some_2 addrs (S i) HSi) as [q Hq].
    destruct (Hlk _ q Hq) as (Hqlt & _ & _).
    set (n := length st).
    assert (Hna : n <> a) by (unfold n; lia).
    assert (Hnq : n <> q) by (unfold n; lia).
    assert (Haq : a <> q).
    { intros ->. pose proof (NoDup_lookup _ _ _ _ Hnd Hi Hq). lia. }
    rewrite node_app_l by done. rewrite HN, Hq.
    eexists _, _. split; [reflexivity|].
    assert (Hlen1 : length (st ++ [mkNode v None None]) = S n)
      by (rewrite length_app; simpl; unfold n; lia).
    assert (HL : forall k, splice (S i) n addrs !! k =
                   if decide (k < S i) then addrs !! k
                   else if decide (k = S i) then Some n else addrs !! (k - 1))
      by (intros k; apply lookup_splice; lia).
    split; [|split].
    + split; [|split; [|split]]; simpl.
      * split.
        { rewrite splice_Permutation. apply NoDup_cons. split; [|done].
          intros Hin. apply list_elem_of_lookup in Hin as [k Hk].
          destruct (Hlk k _ Hk) as (Hlt & _). unfold n in Hlt. lia. }
        intros k b Hk.
        rewrite !length_set_prev, !length_set_next, !length_set_prev, Hlen1.
        rewrite prev_set_prev
          by (rewrite !length_set_next, length_set_prev, Hlen1; lia).
        rewrite !prev_set_next.
        rewrite prev_set_prev by (rewrite Hlen1; lia).
        rewrite next_set_prev.
        rewrite next_set_next
          by (rewrite length_set_next, length_set_prev, Hlen1; lia).
        rewrite next_set_next by (rewrite length_set_prev, Hlen1; lia).
        rewrite next_set_prev.
        rewrite HL in Hk.
        destruct (decide (k < S i)) as [Hki|Hki].
        -- destruct (Hlk k b Hk) as (Hblt & HPb & HNb).
           assert (Hbn : n <> b) by (unfold n; lia).
           assert (Hqb : q <> b).
           { intros ->. pose proof (NoDup_lookup _ _ _ _ Hnd Hk Hq). lia. }
           rewrite (decide_False (P := q = b)), (decide_False (P := n = b)) by done.
           rewrite node_app_l by done. split; [lia|]. split.
           ++ rewrite HPb. destruct k as [|k']; [done|]. rewrite HL.
              by rewrite decide_True by lia.
           ++ rewrite HL, ?(decide_False (P := n = b)) by done.
              destruct (decide (a = b)) as [->|Hab].
              ** assert (k = i) by (eapply NoDup_lookup; eauto). subst k.
                 rewrite (decide_False (P := S i < S i)) by lia.
                 by rewrite decide_True.
              ** assert (k <> i) by (intros ->; congruence).
                 by rewrite (decide_True (P := S k < S i)) by lia.
        -- destruct (decide (k = S i)) as [->|Hki'].
           ++ injection Hk as <-. split; [lia|]. rewrite !HL.
              replace (S (S i) - 1) with (S i) by lia.
              split; repeat case_decide; try lia; congruence.
           ++ destruct (Hlk _ b Hk) as (Hblt & HPb & HNb).
              assert (Hbn : n <> b) by (unfold n; lia).
              assert (Hab : a <> b).
              { intros ->. pose proof (NoDup_lookup _ _ _ _ Hnd Hi Hk). lia. }
              rewrite node_app_l by done. split; [lia|].
              destruct k as [|k']; [lia|]. rewrite !HL.
              replace (S k' - 1) with k' in * by lia.
              replace (S (S k') - 1) with (S k') by lia. split.
              ** destruct (decide (q = b)) as [->|Hqb].
                 --- assert (k' = S i) by (eapply NoDup_lookup; eauto). subst k'.
                     repeat case_decide; try lia; congruence.
                 --- assert (k' <> S i) by (intros ->; congruence).
                     rewrite HPb. destruct k' as [|k'']; [lia|].
                     replace (S k'' - 1) with k'' by lia.
                     repeat case_decide; try lia; congruence.
              ** rewrite HNb. repeat case_decide; try lia; congruence.
      * rewrite Hh, HL. by rewrite decide_True by lia.
      * rewrite Ht, !last_lookup, length_splice, HL. simpl.
        rewrite decide_False by lia. rewrite decide_False by lia.
        f_equal. lia.
      * rewrite Hn, length_splice. lia.
    + unfold values. rewrite fmap_splice. f_equal.
      * by rewrite Value_set_prev, !Value_set_next, Value_set_prev, node_app_new.
      * apply list_fmap_ext. intros k b Hk. simpl.
        rewrite Value_set_prev, !Value_set_next, Value_set_prev.
        destruct (Hlk k b Hk) as (Hblt & _). by rewrite node_app_l.
    + by rewrite length_set_prev, !length_set_next, length_set_prev.
Qed.

Lemma InsertBefore_wf st l addrs i a v :
  wf st l addrs -> addrs !! i = Some a ->
  exists st' l',
    InsertBefore st l (Some a) v = (st', l', length st) /\
    wf st' l' (splice i (length st) addrs) /\
    values st' (splice i (length st) addrs) = splice i v (values st addrs) /\
    length st' = S (length st).
Proof.
  intros Hwf Hi. pose proof Hwf as ((Hnd & Hlk) & Hh & Ht & Hn).
  pose proof (lookup_lt_Some _ _ _ Hi) as Hilt.
  destruct (Hlk i a Hi) as (Halt & HP & HN).
  unfold InsertBefore. destruct (bool_decide (Some a = head l)) eqn:Ehd.
  - apply bool_decide_eq_true_1 in Ehd. rewrite Hh in Ehd.
    assert (i = 0) as -> by (eapply NoDup_lookup; [exact Hnd|exact Hi|by rewrite <- Ehd]).
    unfold splice. rewrite !take_0, !drop_0. simpl. apply PushFront_wf. exact Hwf.
  - apply bool_decide_eq_false_1 in Ehd.
    destruct i as [|i']; [exfalso; apply Ehd; by rewrite Hh|].
    destruct (lookup_lt_is_Some_2 addrs i' ltac:(lia)) as [p Hp].
    destruct (Hlk _ p Hp) as (Hplt & _ & _).
    set (n := length st).
    assert (Hna : n <> a) by (unfold n; lia).
    assert (Hnp : n <> p) by (unfold n; lia).
    assert (Hap : a <> p).
    { intros ->. pose proof (NoDup_lookup _ _ _ _ Hnd Hi Hp). lia. }
    rewrite node_app_l by done. rewrite HP, Hp.
    eexists _, _. split; [reflexivity|].
    assert (Hlen1 : length (st ++ [mkNode v None None]) = S n)
      by (rewrite length_app; simpl; unfold n; lia).
    assert (HL : forall k, splice (S i') n addrs !! k =
                   if decide (k < S i') then addrs !! k
                   else if decide (k = S i') then Some n else addrs !! (k - 1))
      by (intros k; apply lookup_splice; lia).
    split; [|split].
    + split; [|split; [|split]]; simpl.
      * split.
        { rewrite splice_Permutation. apply NoDup_cons. split; [|done].
          intros Hin. apply list_elem_of_lookup in Hin as [k Hk].
          destruct (Hlk k _ Hk) as (Hlt & _). unfold n in Hlt. lia. }
        intros k b Hk.
        rewrite !length_set_next, !length_set_prev, !length_set_next, Hlen1.
        rewrite next_set_next
          by (rewrite !length_set_prev, length_set_next, Hlen1; lia).
        rewrite !next_set_prev.
        rewrite next_set_next by (rewrite Hlen1; lia).
        rewrite prev_set_next.
        rewrite prev_set_prev
          by (rewrite length_set_prev, length_set_next, Hlen1; lia).
        rewrite prev_set_prev by (rewrite length_set_next, Hlen1; lia).
        rewrite prev_set_next.
        rewrite HL in Hk.
        destruct (decide (k < S i')) as [Hki|Hki].
        -- destruct (Hlk k b Hk) as (Hblt & HPb & HNb).
           assert (Hbn : n <> b) by (unfold n; lia).
           assert (Hab : a <> b).
           { intros ->. pose proof (NoDup_lookup _ _ _ _ Hnd Hi Hk). lia. }
           rewrite node_app_l by done. split; [lia|]. split.
           ++ rewrite HPb. destruct k as [|k']; [repeat case_decide; congruence|].
              rewrite HL. repeat case_decide; try lia; congruence.
           ++ rewrite HL, HNb. destruct (decide (p = b)) as [->|Hpb].
              ** assert (k = i') by (eapply NoDup_lookup; eauto). subst k.
                 repeat case_decide; try lia; congruence.
              ** assert (k <> i') by (intros ->; congruence).
                 repeat case_decide; try lia; congruence.
        -- destruct (decide (k = S i')) as [->|Hki'].
           ++ injection Hk as <-. split; [lia|]. rewrite !HL.
              replace (S (S i') - 1) with (S i') by lia.
              split; repeat case_decide; try lia; congruence.
           ++ destruct (Hlk _ b Hk) as (Hblt & HPb & HNb).
              assert (Hbn : n <> b) by (unfold n; lia).
              assert (Hpb : p <> b).
              { intros ->. pose proof (NoDup_lookup _ _ _ _ Hnd Hp Hk). lia. }
              rewrite node_app_l by done. split; [lia|].
              destruct k as [|k']; [lia|]. rewrite !HL.
              replace (S k' - 1) with k' in * by lia.
              replace (S (S k') - 1) with (S k') by lia. split.
              ** destruct (decide (a = b)) as [->|Hab].
                 --- assert (k' = S i') by (eapply NoDup_lookup; eauto). subst k'.
                     repeat case_decide; try lia; congruence.
                 --- assert (k' <> S i') by (intros ->; congruence).
                     rewrite HPb. destruct k' as [|k'']; [lia|].
                     replace (S k'' - 1) with k'' by lia.
                     repeat case_decide; try lia; congruence.
              ** rewrite HNb. repeat case_decide; try lia; congruence.
      * rewrite Hh, HL. by rewrite decide_True by lia.
      * rewrite Ht, !last_lookup, length_splice, HL. simpl.
        rewrite decide_False by lia. rewrite decide_False by lia.
        f_equal. lia.
      * rewrite Hn, length_splice. lia.
    + unfold values. rewrite fmap_splice. f_equal.
      * by rewrite Value_set_next, !Value_set_prev, Value_set_next, node_app_new.
      * apply list_fmap_ext. intros k b Hk. simpl.
        rewrite Value_set_next, !Value_set_prev, Value_set_next.
        destruct (Hlk k b Hk) as (Hblt & _). by rewrite node_app_l.
    + by rewrite length_set_next, !length_set_prev, length_set_next.
Qed.

(** *** Reverse *)

Definition before (addrs : list nat) (k : nat) : ptr :=
  match k with O => None | S k' => addrs !! k' end.

Lemma reverse_loop_linked addrs :
  NoDup addrs ->
  forall fuel i st,
    length addrs - i <= fuel ->
    (forall k b, i <= k -> addrs !! k = Some b ->
       b < length st /\ prev (node st b) = before addrs k /\
       next (node st b) = addrs !! S k) ->
    exists st',
      reverse_loop fuel st (addrs !! i) = Some st' /\
      length st' = length st /\
      (forall b, Value (node st' b) = Value (node st b)) /\
      (forall k b, i <= k -> addrs !! k = Some b ->
         prev (node st' b) = addrs !! S k /\ next (node st' b) = before addrs k) /\
      (forall k b, k < i -> addrs !! k = Some b -> node st' b = node st b).
Proof.
  intros Hnd. induction fuel as [|fuel IH]; intros i st Hfuel Hsuf.
  - rewrite lookup_ge_None_2 by lia. exists st. do 3 (split; [done|]).
    split; [|done]. intros k b Hk Hb. apply lookup_lt_Some in Hb. lia.
  - destruct (addrs !! i) as [a|] eqn:Ha.
    2:{ exists st. do 3 (split; [done|]). split; [|done].
        intros k b Hk Hb. apply lookup_ge_None_1 in Ha.
        apply lookup_lt_Some in Hb. lia. }
    destruct (Hsuf i a (le_n _) Ha) as (Halt & Hpa & Hna). cbn [reverse_loop].
    rewrite prev_set_next, prev_set_prev, decide_True by done.
    rewrite Hna.
    set (st1 := set_next a (prev (node st a)) (set_prev a (addrs !! S i) st)).
    assert (Hlen1 : length st1 = length st)
      by (unfold st1; by rewrite length_set_next, length_set_prev).
    assert (Hne : forall b, a <> b -> node st1 b = node st b).
    { intros b Hb. unfold st1. by rewrite node_set_next_ne, node_set_prev_ne. }
    destruct (IH (S i) st1) as (st' & E & Hlen & Hval & Hrev & Hkeep).
    + lia.
    + intros k b Hk Hb. rewrite Hlen1.
      destruct (Hsuf k b ltac:(lia) Hb) as (Hblt & Hbp & Hbn).
      rewrite Hne; [done|]. intros ->.
      pose proof (NoDup_lookup _ _ _ _ Hnd Ha Hb). lia.
    + exists st'. split; [done|]. split; [congruence|]. split.
      { intros b. rewrite Hval. unfold st1.
        by rewrite Value_set_next, Value_set_prev. }
      split.
      * intros k b Hk Hb. destruct (decide (k = i)) as [->|Hki].
        -- assert (b = a) as -> by congruence.
           rewrite (Hkeep i a (Nat.lt_succ_diag_r i) Ha). unfold st1.
           rewrite prev_set_next, prev_set_prev, decide_True by done.
           rewrite next_set_next, decide_True;
             [done..|by rewrite length_set_prev].
        -- apply Hrev; [lia|done].
      * intros k b Hk Hb. rewrite (Hkeep k b ltac:(lia) Hb). apply Hne.
        intros ->. pose proof (NoDup_lookup _ _ _ _ Hnd Ha Hb). lia.
Qed.

Lemma Reverse_wf st l addrs :
  wf st l addrs ->
  exists st' l',
    Reverse st l = Some (st', l') /\
    wf st' l' (reverse addrs) /\
    values st' (reverse addrs) = reverse (values st addrs) /\
    length st' = length st.
Proof.
  intros Hwf. pose proof Hwf as (Hl & Hh & Ht & Hn). pose proof Hl as [Hnd Hlk].
  unfold Reverse. destruct (len l <? 2)%Z eqn:Hlen.
  - apply Z.ltb_lt in Hlen. exists st, l.
    assert (reverse addrs = addrs) as ->.
    { destruct addrs as [|a [|b addrs]]; [done..|]. simpl in Hn. lia. }
    split; [done|]. split; [done|]. split; [|done].
    unfold values. destruct addrs as [|a [|b addrs]]; [done..|]. simpl in Hn. lia.
  - apply Z.ltb_ge in Hlen. rewrite Hh.
    destruct (reverse_loop_linked addrs Hnd (S (length st)) 0 st)
      as (st' & -> & Hlen' & Hval & Hrev & _).
    { pose proof (linked_bound _ _ Hl). lia. }
    { intros k b _ Hb. destruct (Hlk k b Hb) as (? & ? & ?). done. }
    simpl. eexists _, _. split; [reflexivity|]. split; [|split; [|done]].
    + split; [|split; [|split]]; simpl.
      * split; [by rewrite reverse_Permutation|]. intros j b Hj.
        apply reverse_lookup_Some in Hj as [Hj Hjlt].
        destruct (Hlk _ b Hj) as (Hblt & _ & _).
        destruct (Hrev _ b (Nat.le_0_l _) Hj) as [Hp Hx].
        rewrite Hlen', Hp, Hx. split; [done|]. split.
        -- destruct j as [|j'].
           ++ apply lookup_ge_None_2. lia.
           ++ rewrite reverse_lookup by lia. f_equal. lia.
        -- destruct (decide (S j < length addrs)) as [HSj|HSj].
           ++ rewrite reverse_lookup by lia.
              destruct (length addrs - S j) as [|k'] eqn:Hk; [lia|]. simpl.
              f_equal. lia.
           ++ rewrite (lookup_ge_None_2 (reverse addrs))
                by (rewrite length_reverse; lia).
              by replace (length addrs - S j) with 0 by lia.
      * by rewrite Ht, <- head_reverse, head_lookup.
      * by rewrite last_reverse, head_lookup.
      * by rewrite length_reverse.
    + unfold values. rewrite <- fmap_reverse. apply list_fmap_ext.
      intros k b _. simpl. apply Hval.
Qed.

(** *** Find *)

Lemma find_loop_linked st addrs (f : T -> bool) :
  linked st addrs ->
  forall fuel i, length addrs - i <= fuel ->
    exists r,
      find_loop fuel st (addrs !! i) f = Some r /\
      match r with
      | Some a =>
          exists j, i <= j /\ addrs !! j = Some a /\
            f (Value (node st a)) = true /\
            forall k b, i <= k < j -> addrs !! k = Some b ->
              f (Value (node st b)) = false
      | None =>
          forall k b, i <= k -> addrs !! k = Some b -> f (Value (node st b)) = false
      end.
Proof.
  intros [Hnd Hlk]. induction fuel as [|fuel IH]; intros i Hfuel.
  - rewrite lookup_ge_None_2 by lia. exists None. split; [done|].
    intros k b Hk Hb. apply lookup_lt_Some in Hb. lia.
  - destruct (addrs !! i) as [a|] eqn:Ha.
    2:{ exists None. split; [done|]. intros k b Hk Hb.
        apply lookup_ge_None_1 in Ha. apply lookup_lt_Some in Hb. lia. }
    cbn [find_loop]. destruct (f (Value (node st a))) eqn:Hfa.
    + exists (Some a). split; [done|]. exists i. split; [done|]. split; [done|].
      split; [done|]. intros k b Hk. lia.
    + destruct (Hlk i a Ha) as (_ & _ & ->).
      destruct (IH (S i) ltac:(lia)) as (r & -> & Hr). exists r. split; [done|].
      destruct r as [c|].
      * destruct Hr as (j & Hj & Hc & Hfc & Hbefore). exists j.
        split; [lia|]. split; [done|]. split; [done|].
        intros k b Hk Hb. destruct (decide (k = i)) as [->|Hki].
        -- congruence.
        -- apply (Hbefore k); [lia|done].
      * intros k b Hk Hb. destruct (decide (k = i)) as [->|Hki].
        -- congruence.
        -- apply (Hr k); [lia|done].
Qed.

(** *** Clear detaches the nodes *)

Lemma clear_loop_detach addrs :
  NoDup addrs ->
  forall fuel i st,
    length addrs - i <= fuel ->
    (forall k b, i <= k -> addrs !! k = Some b ->
       b < length st /\ next (node st b) = addrs !! S k) ->
    exists st',
      clear_loop fuel st (addrs !! i) = Some st' /\
      length st' = length st /\
      (forall b, Value (node st' b) = Value (node st b)) /\
      (forall k b, i <= k -> addrs !! k = Some b ->
         prev (node st' b) = None /\ next (node st' b) = None) /\
      (forall b, (forall k, i <= k -> addrs !! k <> Some b) -> node st' b = node st b).
Proof.
  intros Hnd. induction fuel as [|fuel IH]; intros i st Hfuel Hsuf.
  - rewrite lookup_ge_None_2 by lia. exists st. do 3 (split; [done|]).
    split; [|done]. intros k b Hk Hb. apply lookup_lt_Some in Hb. lia.
  - destruct (addrs !! i) as [a|] eqn:Ha.
    2:{ exists st. do 3 (split; [done|]). split; [|done].
        intros k b Hk Hb. apply lookup_ge_None_1 in Ha.
        apply lookup_lt_Some in Hb. lia. }
    destruct (Hsuf i a (le_n _) Ha) as (Halt & Hnx). cbn [clear_loop]. rewrite Hnx.
    set (st1 := set_next a None (set_prev a None st)).
    assert (Hne : forall b, a <> b -> node st1 b = node st b).
    { intros b Hb. unfold st1. by rewrite node_set_next_ne, node_set_prev_ne. }
    assert (Hlen1 : length st1 = length st)
      by (unfold st1; by rewrite length_set_next, length_set_prev).
    destruct (IH (S i) st1) as (st' & E & Hlen & Hval & Hnil & Hkeep).
    + lia.
    + intros k b Hk Hb. rewrite Hlen1.
      destruct (Hsuf k b ltac:(lia) Hb) as (Hblt & Hbn). split; [done|].
      rewrite Hne; [done|]. intros ->.
      pose proof (NoDup_lookup _ _ _ _ Hnd Ha Hb). lia.
    + exists st'. split; [done|]. split; [congruence|]. split.
      { intros b. rewrite Hval. unfold st1. by rewrite Value_set_next, Value_set_prev. }
      split.
      * intros k b Hk Hb. destruct (decide (k = i)) as [->|Hki].
        -- assert (b = a) as -> by congruence.
           rewrite Hkeep.
           ++ unfold st1. rewrite prev_set_next, prev_set_prev, decide_True by done.
              rewrite next_set_next, decide_True;
                [done..|by rewrite length_set_prev].
           ++ intros k Hk' Hk''. pose proof (NoDup_lookup _ _ _ _ Hnd Ha Hk''). lia.
        -- apply (Hnil k); [lia|done].
      * intros b Hb. rewrite Hkeep.
        -- apply Hne. intros ->. by apply (Hb i).
        -- intros k Hk. apply Hb. lia.
Qed.

(** *** The nodes of a list, and operations addressed by position *)

(** The node handles from head to tail, as a caller collects them with
    [Front()] and [Next()]. *)
Fixpoint walk_nodes (fuel : nat) (st : store) (e : ptr) : option (list nat) :=
  match e with
  | None => Some []
  | Some a =>
      match fuel with
      | O => None
      | S fuel' => cons a <$> walk_nodes fuel' st (Next st a)
      end
  end.

Definition nodes (st : store) (l : List) : option (list nat) :=
  walk_nodes (S (length st)) st (Front l).

(** The handle of the [i]-th node, [nil] when there is none. *)
Definition handle (st : store) (l : List) (i : nat) : ptr :=
  ns ← nodes st l; ns !! i.

Lemma walk_nodes_linked st addrs :
  linked st addrs ->
  forall fuel i, length addrs - i <= fuel ->
    walk_nodes fuel st (addrs !! i) = Some (drop i addrs).
Proof.
  intros [Hnd Hl]. induction fuel as [|fuel IH]; intros i Hi.
  - rewrite lookup_ge_None_2 by lia. by rewrite drop_ge by lia.
  - destruct (addrs !! i) as [a|] eqn:Ha.
    + destruct (Hl i a Ha) as (_ & _ & Hn). cbn [walk_nodes]. unfold Next.
      rewrite Hn, IH by lia. by rewrite (drop_S _ _ _ Ha).
    + apply lookup_ge_None_1 in Ha. by rewrite drop_ge by lia.
Qed.

Lemma nodes_wf st l addrs : wf st l addrs -> nodes st l = Some addrs.
Proof.
  intros (Hl & Hh & _ & _). unfold nodes, Front. rewrite Hh.
  rewrite (walk_nodes_linked _ _ Hl); [by rewrite drop_0|].
  pose proof (linked_bound _ _ Hl). lia.
Qed.

Lemma handle_wf st l addrs i : wf st l addrs -> handle st l i = addrs !! i.
Proof. intros Hwf. unfold handle. by rewrite (nodes_wf _ _ _ Hwf). Qed.

Inductive op : Type :=
| OpPushFront (v : T)
| OpPushBack (v : T)
| OpInsertAfter (i : nat) (v : T)
| OpInsertBefore (i : nat) (v : T)
| OpRemove (i : nat)
| OpMoveToFront (i : nat)
| OpMoveToBack (i : nat)
| OpReverse
| OpClear
| OpFromSlice (s : list T)
| OpSortFunc (less : T -> T -> bool).

(** One call on the list, every node argument being the handle of the
    [i]-th node of the list at that moment ([nil] when [i] is out of range). *)
Definition step (sl : store * List) (o : op) : option (store * List) :=
  let '(st, l) := sl in
  match o with
  | OpPushFront v => let '(st, l, _) := PushFront st l v in Some (st, l)
  | OpPushBack v => let '(st, l, _) := PushBack st l v in Some (st, l)
  | OpInsertAfter i v =>
      let '(st, l, _) := InsertAfter st l (handle st l i) v in Some (st, l)
  | OpInsertBefore i v =>
      let '(st, l, _) := InsertBefore st l (handle st l i) v in Some (st, l)
  | OpRemove i => let '(st, l, _) := Remove st l (handle st l i) in Some (st, l)
  | OpMoveToFront i => Some (MoveToFront st l (handle st l i))
  | OpMoveToBack i => Some (MoveToBack st l (handle st l i))
  | OpReverse => Reverse st l
  | OpClear => Clear st l
  | OpFromSlice s => FromSlice st l s
  | OpSortFunc less => SortFunc st l less
  end.

Fixpoint run (sl : store * List) (ops : list op) : option (store * List) :=
  match ops with
  | [] => Some sl
  | o :: ops' => sl ← step sl o; run sl ops'
  end.

Lemma step_wf st l addrs o :
  wf st l addrs ->
  exists st' l' addrs', step (st, l) o = Some (st', l') /\ wf st' l' addrs'.
Proof.
  intros Hwf. destruct o as [v|v|i v|i v|i|i|i| | |s|less]; cbn [step].
  - destruct (PushFront_wf st l addrs v Hwf) as (st' & l' & -> & Hwf' & _).
    by exists st', l', (length st :: addrs).
  - destruct (PushBack_wf st l addrs v Hwf) as (st' & l' & -> & Hwf' & _).
    by exists st', l', (addrs ++ [length st]).
  - rewrite (handle_wf _ _ _ i Hwf). destruct (addrs !! i) as [a|] eqn:Ha.
    + destruct (InsertAfter_wf st l addrs i a v Hwf Ha) as (st' & l' & -> & Hwf' & _).
      by eexists st', l', _.
    + cbn [InsertAfter].
      destruct (PushBack_wf st l addrs v Hwf) as (st' & l' & -> & Hwf' & _).
      by eexists st', l', _.
  - rewrite (handle_wf _ _ _ i Hwf). destruct (addrs !! i) as [a|] eqn:Ha.
    + destruct (InsertBefore_wf st l addrs i a v Hwf Ha) as (st' & l' & -> & Hwf' & _).
      by eexists st', l', _.
    + cbn [InsertBefore].
      destruct (PushFront_wf st l addrs v Hwf) as (st' & l' & -> & Hwf' & _).
      by eexists st', l', _.
  - rewrite (handle_wf _ _ _ i Hwf). destruct (addrs !! i) as [a|] eqn:Ha.
    + destruct (Remove_wf st l addrs i a Hwf Ha) as (st' & l' & -> & Hwf' & _).
      by eexists st', l', _.
    + by exists st, l, addrs.
  - rewrite (handle_wf _ _ _ i Hwf). destruct (addrs !! i) as [a|] eqn:Ha.
    + destruct i as [|i'].
      * rewrite MoveToFront_noop; [by exists st, l, addrs|].
        right. left. destruct Hwf as (_ & -> & _). done.
      * destruct (MoveToFront_wf st l addrs (S i') a Hwf Ha ltac:(lia))
          as (st' & l' & -> & Hwf' & _).
        by eexists st', l', _.
    + rewrite MoveToFront_noop by (by left). by exists st, l, addrs.
  - rewrite (handle_wf _ _ _ i Hwf). destruct (addrs !! i) as [a|] eqn:Ha.
    + destruct (decide (S i < length addrs)) as [Hi|Hi].
      * destruct (MoveToBack_wf st l addrs i a Hwf Ha Hi) as (st' & l' & -> & Hwf' & _).
        by eexists st', l', _.
      * rewrite MoveToBack_noop; [by exists st, l, addrs|].
        right. left. destruct Hwf as (_ & _ & -> & _). rewrite last_lookup.
        apply lookup_lt_Some in Ha as Hlt.
        by replace (pred (length addrs)) with i by lia.
    + rewrite MoveToBack_noop by (by left). by exists st, l, addrs.
  - destruct (Reverse_wf st l addrs Hwf) as (st' & l' & -> & Hwf' & _).
    by eexists st', l', _.
  - destruct (Clear_wf st l addrs Hwf) as (st' & -> & Hwf').
    by eexists st', _, _.
  - destruct (FromSlice_wf st l addrs s Hwf) as (st' & l' & addrs' & -> & Hwf' & _).
    by exists st', l', addrs'.
  - unfold SortFunc. destruct (len l <? 2)%Z; [by exists st, l, addrs|].
    rewrite (ToSlice_wf _ _ _ Hwf). simpl.
    destruct (FromSlice_wf st l addrs (sort_Slice (values st addrs) less) Hwf)
      as (st' & l' & addrs' & -> & Hwf' & _).
    by exists st', l', addrs'.
Qed.

Lemma run_wf ops :
  forall st l addrs,
    wf st l addrs ->
    exists st' l' addrs', run (st, l) ops = Some (st', l') /\ wf st' l' addrs'.
Proof.
  induction ops as [|o ops IH]; intros st l addrs Hwf; [by exists st, l, addrs|].
  destruct (step_wf st l addrs o Hwf) as (st1 & l1 & addrs1 & E1 & Hwf1).
  destruct (IH st1 l1 addrs1 Hwf1) as (st' & l' & addrs' & E & Hwf').
  exists st', l', addrs'. cbn [run]. rewrite E1. done.
Qed.

(** *** Properties of the remaining operations *)

(** X1. List round trip: on a well-formed list, [FromSlice(s)] returns and
    leaves a list whose [ToSlice()] is exactly [s] and whose [Len()] is
    [len(s)], whatever the list held before. *)
Theorem FromSlice_ToSlice_roundtrip st l addrs (s : list T) :
  wf st l addrs ->
  exists st' l',
    FromSlice st l s = Some (st', l') /\
    ToSlice st' l' = Some s /\
    Len l' = Z.of_nat (length s).
Proof.
  intros Hwf.
  destruct (FromSlice_wf st l addrs s Hwf) as (st' & l' & addrs' & E & Hwf' & Hv & Hts).
  exists st', l'. split; [done|]. split; [done|].
  destruct Hwf' as (_ & _ & _ & Hn). unfold Len. rewrite Hn, <- Hv.
  unfold values. by rewrite length_fmap.
Qed.

(** X2. [Reverse] on a well-formed list returns; [ToSlice()] is the old
    sequence reversed, [Len()] is unchanged and the nodes are the same nodes
    in reverse order (every handle stays valid).  A second [Reverse] restores
    the original order of nodes and values. *)
Theorem Reverse_involution st l addrs :
  wf st l addrs ->
  exists st1 l1 st2 l2,
    ToSlice st l = Some (values st addrs) /\
    Reverse st l = Some (st1, l1) /\
    nodes st1 l1 = Some (reverse addrs) /\
    ToSlice st1 l1 = Some (reverse (values st addrs)) /\
    Len l1 = Len l /\
    Reverse st1 l1 = Some (st2, l2) /\
    nodes st2 l2 = Some addrs /\
    ToSlice st2 l2 = Some (values st addrs).
Proof.
  intros Hwf.
  destruct (Reverse_wf st l addrs Hwf) as (st1 & l1 & E1 & Hwf1 & Hv1 & _).
  destruct (Reverse_wf st1 l1 _ Hwf1) as (st2 & l2 & E2 & Hwf2 & Hv2 & _).
  rewrite reverse_involutive in Hwf2, Hv2. rewrite Hv1, reverse_involutive in Hv2.
  exists st1, l1, st2, l2. split; [by apply ToSlice_wf|]. split; [done|].
  split; [by apply nodes_wf|]. split; [by rewrite (ToSlice_wf _ _ _ Hwf1), Hv1|].
  split.
  { destruct Hwf1 as (_ & _ & _ & H1), Hwf as (_ & _ & _ & H0). unfold Len.
    by rewrite H1, H0, length_reverse. }
  split; [done|]. split; [by apply nodes_wf|].
  by rewrite (ToSlice_wf _ _ _ Hwf2), Hv2.
Qed.

(** X3. [InsertAfter(n, v)] with the handle of the [i]-th node of a
    well-formed list puts [v] right after position [i]: [ToSlice()] gains [v]
    at position [i+1], [Len()] grows by one, the returned handle is the node
    at position [i+1] and the other nodes keep their order. *)
Theorem InsertAfter_inserts st l addrs i a (v : T) :
  wf st l addrs -> addrs !! i = Some a ->
  exists st' l' h,
    InsertAfter st l (Some a) v = (st', l', h) /\
    ToSlice st l = Some (values st addrs) /\
    ToSlice st' l' = Some (splice (S i) v (values st addrs)) /\
    Len l' = (Len l + 1)%Z /\
    nodes st' l' = Some (splice (S i) h addrs) /\
    h ∉ addrs.
Proof.
  intros Hwf Hi. pose proof Hwf as ((_ & Hlk) & _ & _ & Hn).
  destruct (InsertAfter_wf st l addrs i a v Hwf Hi) as (st' & l' & E & Hwf' & Hv & _).
  exists st', l', (length st). split; [done|]. split; [by apply ToSlice_wf|].
  split; [by rewrite (ToSlice_wf _ _ _ Hwf'), Hv|]. split.
  { destruct Hwf' as (_ & _ & _ & H1). unfold Len. rewrite H1, Hn, length_splice. lia. }
  split; [by apply nodes_wf|].
  intros Hin. apply list_elem_of_lookup in Hin as [k Hk].
  destruct (Hlk k _ Hk) as (Hlt & _). lia.
Qed.

(** X4. [InsertBefore(n, v)] with the handle of the [i]-th node of a
    well-formed list puts [v] right before it: [ToSlice()] gains [v] at
    position [i], [Len()] grows by one, the returned handle is the node at
    position [i] and the other nodes keep their order. *)
Theorem InsertBefore_inserts st l addrs i a (v : T) :
  wf st l addrs -> addrs !! i = Some a ->
  exists st' l' h,
    InsertBefore st l (Some a) v = (st', l', h) /\
    ToSlice st l = Some (values st addrs) /\
    ToSlice st' l' = Some (splice i v (values st addrs)) /\
    Len l' = (Len l + 1)%Z /\
    nodes st' l' = Some (splice i h addrs) /\
    h ∉ addrs.
Proof.
  intros Hwf Hi. pose proof Hwf as ((_ & Hlk) & _ & _ & Hn).
  destruct (InsertBefore_wf st l addrs i a v Hwf Hi) as (st' & l' & E & Hwf' & Hv & _).
  exists st', l', (length st). split; [done|]. split; [by apply ToSlice_wf|].
  split; [by rewrite (ToSlice_wf _ _ _ Hwf'), Hv|]. split.
  { destruct Hwf' as (_ & _ & _ & H1). unfold Len. rewrite H1, Hn, length_splice. lia. }
  split; [by apply nodes_wf|].
  intros Hin. apply list_elem_of_lookup in Hin as [k Hk].
  destruct (Hlk k _ Hk) as (Hlt & _). lia.
Qed.

(** X5. With a [nil] node [InsertAfter] appends and [InsertBefore] prepends:
    on a well-formed list, [ToSlice()] afterwards is the old sequence with
    [v] at the back, respectively at the front, and the returned handle is
    [Back()], respectively [Front()]. *)
Theorem Insert_nil_is_push st l addrs (v : T) :
  wf st l addrs ->
  exists st1 l1 h1 st2 l2 h2,
    InsertAfter st l None v = (st1, l1, h1) /\
    ToSlice st1 l1 = Some (values st addrs ++ [v]) /\
    Back l1 = Some h1 /\
    InsertBefore st l None v = (st2, l2, h2) /\
    ToSlice st2 l2 = Some (v :: values st addrs) /\
    Front l2 = Some h2.
Proof.
  intros Hwf.
  destruct (PushBack_wf st l addrs v Hwf) as (st1 & l1 & E1 & Hwf1 & Hv1 & _).
  destruct (PushFront_wf st l addrs v Hwf) as (st2 & l2 & E2 & Hwf2 & Hv2 & _).
  exists st1, l1, (length st), st2, l2, (length st). cbn [InsertAfter InsertBefore].
  split; [done|]. split; [by rewrite (ToSlice_wf _ _ _ Hwf1), Hv1|]. split.
  { destruct Hwf1 as (_ & _ & Ht1 & _). unfold Back. by rewrite Ht1, last_snoc. }
  split; [done|]. split; [by rewrite (ToSlice_wf _ _ _ Hwf2), Hv2|].
  destruct Hwf2 as (_ & Hh2 & _). unfold Front. by rewrite Hh2.
Qed.

(** X6. [Find(f)] on a well-formed list returns the first node, from the
    head, whose value satisfies [f]: every node before it fails [f]; it
    returns [nil] exactly when no value of the list satisfies [f]. *)
Theorem Find_first_match st l addrs (f : T -> bool) :
  wf st l addrs ->
  exists r,
    Find st l f = Some r /\
    match r with
    | Some a =>
        exists j, addrs !! j = Some a /\ f (Value (node st a)) = true /\
          forall k b, k < j -> addrs !! k = Some b -> f (Value (node st b)) = false
    | None => forall x, x ∈ values st addrs -> f x = false
    end.
Proof.
  intros (Hl & Hh & _ & _). unfold Find. rewrite Hh.
  destruct (find_loop_linked st addrs f Hl (S (length st)) 0) as (r & -> & Hr).
  { pose proof (linked_bound _ _ Hl). lia. }
  exists r. split; [done|]. destruct r as [a|].
  - destruct Hr as (j & _ & Hj & Hfa & Hbefore). exists j. split; [done|].
    split; [done|]. intros k b Hk. apply Hbefore. lia.
  - intros x Hx. apply list_elem_of_fmap in Hx as (b & -> & Hb).
    apply list_elem_of_lookup in Hb as [k Hk]. apply (Hr k); [lia|done].
Qed.

(** X7. [Clear] on a well-formed list returns an empty list ([Len() = 0],
    [Front()] and [Back()] nil, [ToSlice()] empty) and detaches every former
    node: its [Prev()] and [Next()] are nil, its value is kept. *)
Theorem Clear_detaches st l addrs :
  wf st l addrs ->
  exists st' l',
    Clear st l = Some (st', l') /\
    Len l' = 0%Z /\ Front l' = None /\ Back l' = None /\
    ToSlice st' l' = Some [] /\
    forall a, a ∈ addrs ->
      Prev st' a = None /\ Next st' a = None /\
      Value (node st' a) = Value (node st a).
Proof.
  intros (Hl & Hh & _ & _). pose proof Hl as [Hnd Hlk]. unfold Clear. rewrite Hh.
  destruct (clear_loop_detach addrs Hnd (S (length st)) 0 st)
    as (st' & -> & _ & Hval & Hnil & _).
  { pose proof (linked_bound _ _ Hl). lia. }
  { intros k b _ Hb. destruct (Hlk k b Hb) as (? & _ & ?). done. }
  simpl. eexists _, _. split; [reflexivity|]. do 4 (split; [done|]).
  intros a Ha. apply list_elem_of_lookup in Ha as [k Hk].
  destruct (Hnil k a (Nat.le_0_l _) Hk) as [Hp Hx]. done.
Qed.

(** X8. [MoveToFront(n)] and [MoveToBack(n)] with the handle of the [i]-th
    node of a well-formed list: [ToSlice()] afterwards is that node's value
    followed by the other values in order, respectively the other values in
    order followed by that node's value; [Len()] is unchanged.  (When the
    node already is at that end this is the sequence as it was.) *)
Theorem MoveTo_end_values st l addrs i a :
  wf st l addrs -> addrs !! i = Some a ->
  exists st1 l1 st2 l2,
    MoveToFront st l (Some a) = (st1, l1) /\
    ToSlice st1 l1 = Some (Value (node st a) :: delete i (values st addrs)) /\
    Len l1 = Len l /\
    MoveToBack st l (Some a) = (st2, l2) /\
    ToSlice st2 l2 = Some (delete i (values st addrs) ++ [Value (node st a)]) /\
    Len l2 = Len l.
Proof.
  intros Hwf Hi. pose proof Hwf as (_ & Hh & Ht & _).
  pose proof (lookup_lt_Some _ _ _ Hi) as Hilt.
  assert (Hvi : values st addrs !! i = Some (Value (node st a)))
    by (unfold values; by rewrite list_lookup_fmap, Hi).
  assert (HF : exists st1 l1,
             MoveToFront st l (Some a) = (st1, l1) /\
             ToSlice st1 l1 = Some (Value (node st a) :: delete i (values st addrs)) /\
             Len l1 = Len l).
  { destruct i as [|i'].
    - exists st, l. rewrite MoveToFront_noop by (right; left; by rewrite Hh).
      split; [done|]. split; [|done]. rewrite (ToSlice_wf _ _ _ Hwf). f_equal.
      destruct (values st addrs) as [|x vs]; [done|]. simpl in *. congruence.
    - destruct (MoveToFront_wf st l addrs (S i') a Hwf Hi ltac:(lia))
        as (st1 & l1 & E & Hwf1 & Hv1 & Hlen & _).
      exists st1, l1. split; [done|]. split; [|done].
      by rewrite (ToSlice_wf _ _ _ Hwf1), Hv1. }
  assert (HB : exists st2 l2,
             MoveToBack st l (Some a) = (st2, l2) /\
             ToSlice st2 l2 = Some (delete i (values st addrs) ++ [Value (node st a)]) /\
             Len l2 = Len l).
  { destruct (decide (S i < length addrs)) as [HSi|HSi].
    - destruct (MoveToBack_wf st l addrs i a Hwf Hi HSi)
        as (st2 & l2 & E & Hwf2 & Hv2 & Hlen & _).
      exists st2, l2. split; [done|]. split; [|done].
      by rewrite (ToSlice_wf _ _ _ Hwf2), Hv2.
    - exists st, l. rewrite MoveToBack_noop.
      2:{ right. left. rewrite Ht, last_lookup.
          by replace (pred (length addrs)) with i by lia. }
      split; [done|]. split; [|done]. rewrite (ToSlice_wf _ _ _ Hwf). f_equal.
      rewrite delete_take_drop, drop_ge
        by (unfold values; rewrite length_fmap; lia).
      rewrite app_nil_r. rewrite <- (take_drop_middle _ _ _ Hvi) at 1.
      rewrite drop_ge; [done|]. unfold values. rewrite length_fmap. lia. }
  destruct HF as (st1 & l1 & ? & ? & ?), HB as (st2 & l2 & ? & ? & ?).
  by exists st1, l1, st2, l2.
Qed.

(** X9. Structural invariant.  Starting from a new list, after any
    sequence of [PushFront], [PushBack], [InsertAfter], [InsertBefore],
    [Remove], [MoveToFront], [MoveToBack] (each given the handle of a node
    then in the list, or nil), [Reverse], [Clear], [FromSlice] and
    [SortFunc], every call has returned and: the nodes reachable from
    [Front()] are distinct, [Len()] is their number and the length of
    [ToSlice()]; [Front()] has no [Prev()], [Back()] has no [Next()], [Back()]
    is the last node; and [Next()] and [Prev()] are inverse on the nodes. *)
Theorem list_structure_invariant (st0 : store) (ops : list op) :
  exists st l ns vs,
    run (st0, New) ops = Some (st, l) /\
    nodes st l = Some ns /\
    ToSlice st l = Some vs /\
    NoDup ns /\
    Len l = Z.of_nat (length ns) /\ length vs = length ns /\
    Front l = ns !! 0 /\ Back l = last ns /\
    (forall a, Front l = Some a -> Prev st a = None) /\
    (forall a, Back l = Some a -> Next st a = None) /\
    (forall a b, a ∈ ns -> Next st a = Some b -> b ∈ ns /\ Prev st b = Some a) /\
    (forall a b, b ∈ ns -> Prev st b = Some a -> a ∈ ns /\ Next st a = Some b).
Proof.
  destruct (run_wf ops st0 New [] (wf_New st0)) as (st & l & ns & E & Hwf).
  pose proof Hwf as ((Hnd & Hlk) & Hh & Ht & Hn).
  exists st, l, ns, (values st ns). split; [done|]. split; [by apply nodes_wf|].
  split; [by apply ToSlice_wf|]. split; [done|]. split; [done|].
  split; [unfold values; by rewrite length_fmap|]. split; [done|]. split; [done|].
  unfold Front, Back, Prev, Next. split; [|split; [|split]].
  - intros a Ha. rewrite Hh in Ha. by destruct (Hlk 0 a Ha) as (_ & -> & _).
  - intros a Ha. rewrite Ht, last_lookup in Ha.
    destruct (Hlk _ a Ha) as (_ & _ & ->). apply lookup_ge_None_2.
    apply lookup_lt_Some in Ha. lia.
  - intros a b Ha Hab. apply list_elem_of_lookup in Ha as [k Hk].
    destruct (Hlk k a Hk) as (_ & _ & Hx). rewrite Hx in Hab.
    split; [apply list_elem_of_lookup; eauto|].
    by destruct (Hlk _ b Hab) as (_ & -> & _).
  - intros a b Hb Hba. apply list_elem_of_lookup in Hb as [k Hk].
    destruct (Hlk k b Hk) as (_ & Hp & _). rewrite Hp in Hba.
    destruct k as [|k']; [done|]. simpl in Hba.
    split; [apply list_elem_of_lookup; eauto|].
    destruct (Hlk _ a Hba) as (_ & _ & ->). done.
Qed.

End DLL.

(** *** Concrete lists *)

Open Scope Z_scope.

(** The list built by [FromSlice([1, 2, 3])] on a new list: nodes 0, 1, 2. *)
Definition list123 : list Node * List := pushBackAll [] New [1; 2; 3].

Lemma wf_list123 : wf 0 list123.1 list123.2 [0; 1; 2]%nat.
Proof.
  split; [split|].
  - apply NoDup_ListNoDup. repeat constructor; simpl; lia.
  - intros i a Hi. do 3 (destruct i as [|i]; [injection Hi as <-; vm_compute; auto|]).
    done.
  - done.
Qed.

Lemma swo_Zltb : strict_weak_order Z.ltb.
Proof.
  split.
  - intros x. apply Z.ltb_irrefl.
  - intros x y z. rewrite !Z.ltb_lt. lia.
  - intros x y z. rewrite !Z.ltb_ge. lia.
Qed.

(** The theorem on [Remove], at the middle node of [1, 2, 3]. *)
Lemma Remove_live_nil_empty_witness :
  (forall i a, [0; 1; 2]%nat !! i = Some a ->
     exists st' l',
       Remove 0 list123.1 list123.2 (Some a) = (st', l', Value (node 0 list123.1 a)) /\
       wf 0 st' l' (delete i [0; 1; 2]%nat) /\
       ToSlice 0 list123.1 list123.2 = Some (values 0 list123.1 [0; 1; 2]%nat) /\
       ToSlice 0 st' l' = Some (delete i (values 0 list123.1 [0; 1; 2]%nat)) /\
       len l' = len list123.2 - 1 /\
       prev (node 0 st' a) = None /\ next (node 0 st' a) = None) /\
  Remove 0 list123.1 list123.2 None = (list123.1, list123.2, 0) /\
  (len list123.2 = 0 -> forall n, Remove 0 list123.1 list123.2 n = (list123.1, list123.2, 0)).
Proof. exact (Remove_live_nil_empty 0 _ _ _ wf_list123). Defined.

(** C4, counterexample.  (1) The result of [Remove] carries no [found]
    flag: on the one-element list [0], removing the live node and removing
    [nil] return the same thing although only the first changed the list.
    (2) Re-removing an already removed handle is not a no-op: on [1, 2, 3],
    after [Remove] of the node of 2 the list reads [1, 3]; a second [Remove]
    of the same handle returns 2 and leaves head and tail [nil] with
    [len = 1], so the list reads as empty. *)
Lemma Remove_counterexample :
  (let '(st0, l0) := pushBackAll [] New [0] in
   let '(st1, l1, v1) := Remove 0 st0 l0 (Some 0%nat) in
   let '(st1', l1', v1') := Remove 0 st0 l0 None in
   v1 = v1' /\ len l1 = 0 /\ len l1' = 1) /\
  (let '(st0, l0) := list123 in
   let '(st1, l1, v1) := Remove 0 st0 l0 (Some 1%nat) in
   let '(st2, l2, v2) := Remove 0 st1 l1 (Some 1%nat) in
   ToSlice 0 st1 l1 = Some [1; 3] /\ len l1 = 2 /\
   v2 = 2 /\ l2 <> l1 /\
   l2 = mkList None None 1 /\ ToSlice 0 st2 l2 = Some []).
Proof. vm_compute. repeat split; congruence. Qed.

(** C6, the code at the failing input.  On [1, 2, 3], [MoveToFront] of the
    handle [n] of 3 gives the value sequence [3, 1, 2] with [len = 3], but
    the node at the front is a newly allocated one; [n] itself is left
    detached (both links [nil], not reachable from the head).  A following
    [Remove(n)] returns 3 without removing that element and leaves the list
    reading as empty with [len = 2]. *)
Theorem MoveToFront_detaches_handle :
  let '(st0, l0) := list123 in
  let n := Some 2%nat in
  let '(st1, l1) := MoveToFront 0 st0 l0 n in
  ToSlice 0 st1 l1 = Some [3; 1; 2] /\ len l1 = 3 /\
  head l1 = Some 3%nat /\ head l1 <> n /\
  node 0 st1 2 = mkNode 3 None None /\
  (let '(st2, l2, v) := Remove 0 st1 l1 n in
   v = 3 /\ l2 = mkList None None 2 /\ ToSlice 0 st2 l2 = Some []).
Proof. vm_compute. repeat split; congruence. Qed.

(** [sort.Slice] on a short slice, as parameter of [SortFunc]: the
    insertion sort of Go 1.19 and later, and the Go 1.18 variant. *)
Definition sort_Slice_short {T} (s : list T) (less : T -> T -> bool) : list T :=
  sort.insertionSort less s.
Definition sort_Slice_short_go118 {T} (s : list T) (less : T -> T -> bool) : list T :=
  sort.shellInsertionSort less s.

Definition list312 : list Node * List := pushBackAll [] New [3; 1; 2].

Lemma wf_list312 : wf 0 list312.1 list312.2 [0; 1; 2]%nat.
Proof.
  split; [split|].
  - apply NoDup_ListNoDup. repeat constructor; simpl; lia.
  - intros i a Hi. do 3 (destruct i as [|i]; [injection Hi as <-; vm_compute; auto|]).
    done.
  - done.
Qed.

(** The scenario of the specification: [SortFunc(ascending)] on [3, 1, 2]. *)
Example SortFunc_312 :
  ('(st, l) ← SortFunc 0 sort_Slice_short list312.1 list312.2 Z.ltb; ToSlice 0 st l)
  = Some [1; 2; 3].
Proof. reflexivity. Qed.

Lemma SortFunc_sorted_permutation_witness :
  exists before st' l' addrs' out,
    ToSlice 0 list312.1 list312.2 = Some before /\
    SortFunc 0 sort_Slice_short list312.1 list312.2 Z.ltb = Some (st', l') /\
    wf 0 st' l' addrs' /\
    ToSlice 0 st' l' = Some out /\
    in_order Z.ltb out /\
    out ≡ₚ before.
Proof.
  exact (SortFunc_sorted_permutation 0 sort_Slice_short
           (fun s less => sort.insertionSort_Permutation less s)
           (fun s less H => sort.insertionSort_in_order less H s)
           _ _ _ Z.ltb wf_list312 swo_Zltb).
Defined.

(** Records [(key, tag)] compared by key alone. *)
Definition by_key (a b : Z * Z) : bool := a.1 <? b.1.

Definition tagged7 : list (Z * Z) :=
  [(2, 0); (1, 1); (1, 2); (1, 3); (1, 4); (1, 5); (1, 6)].

Lemma swo_by_key : strict_weak_order by_key.
Proof.
  unfold by_key. split.
  - intros x. apply Z.ltb_irrefl.
  - intros x y z. rewrite !Z.ltb_lt. lia.
  - intros x y z. rewrite !Z.ltb_ge. lia.
Qed.

(** C5, counterexample.  (1) Not every comparator: with the comparator
    that always answers [true] (no strict weak ordering), the list [1, 2]
    is sorted into [2, 1], which is not in order for that comparator.
    (2) Not stable: the short-slice path of Go 1.18's [sort.Slice] meets the
    contract of [sort.Slice] (a rearrangement, in order for a strict weak
    ordering), and with it and records compared by key (a strict weak
    ordering) the seven records [tagged7] come out with the record tagged 6
    ahead of the records tagged 1 to 5, all of key 1. *)
Lemma SortFunc_counterexample :
  (let '(st0, l0) := pushBackAll [] New [1; 2] in
   exists st' l' out,
     SortFunc 0 sort_Slice_short st0 l0 (fun _ _ => true) = Some (st', l') /\
     ToSlice 0 st' l' = Some out /\
     out = [2; 1] /\
     ~ in_order (fun _ _ => true) out) /\
  ((forall (s : list (Z * Z)) less, sort_Slice_short_go118 s less ≡ₚ s) /\
   (forall (s : list (Z * Z)) less,
      strict_weak_order less -> in_order less (sort_Slice_short_go118 s less)) /\
   strict_weak_order by_key /\
   let '(st0, l0) := pushBackAll [] New tagged7 in
   exists st' l' out,
     SortFunc (0, 0) sort_Slice_short_go118 st0 l0 by_key = Some (st', l') /\
     ToSlice (0, 0) st' l' = Some out /\
     out = [(1, 6); (1, 1); (1, 2); (1, 3); (1, 4); (1, 5); (2, 0)] /\
     ~ stable_for by_key tagged7 out).
Proof.
  split; [|split; [|split; [|split; [apply swo_by_key|]]]].
  - eexists _, _, _. split; [vm_compute; reflexivity|].
    split; [vm_compute; reflexivity|]. split; [reflexivity|].
    intros H. specialize (H 0%nat 1%nat 2 1). simpl in H.
    discriminate H; [lia|done..].
  - intros s less. apply sort.shellInsertionSort_Permutation.
  - intros s less. apply sort.shellInsertionSort_in_order.
  - eexists _, _, _. split; [vm_compute; reflexivity|].
    split; [vm_compute; reflexivity|]. split; [reflexivity|].
    intros H. specialize (H (1, 0)). vm_compute in H. discriminate H.
Qed.

(** *** The properties of the remaining operations on [1, 2, 3] *)

Lemma FromSlice_ToSlice_roundtrip_witness :
  exists st' l',
    FromSlice 0 list123.1 list123.2 [7; 8] = Some (st', l') /\
    ToSlice 0 st' l' = Some [7; 8] /\
    Len l' = Z.of_nat (length [7; 8]).
Proof. exact (FromSlice_ToSlice_roundtrip 0 _ _ _ [7; 8] wf_list123). Defined.

Lemma Reverse_involution_witness :
  exists st1 l1 st2 l2,
    ToSlice 0 list123.1 list123.2 = Some (values 0 list123.1 [0; 1; 2]%nat) /\
    Reverse 0 list123.1 list123.2 = Some (st1, l1) /\
    nodes 0 st1 l1 = Some (reverse [0; 1; 2]%nat) /\
    ToSlice 0 st1 l1 = Some (reverse (values 0 list123.1 [0; 1; 2]%nat)) /\
    Len l1 = Len list123.2 /\
    Reverse 0 st1 l1 = Some (st2, l2) /\
    nodes 0 st2 l2 = Some [0; 1; 2]%nat /\
    ToSlice 0 st2 l2 = Some (values 0 list123.1 [0; 1; 2]%nat).
Proof. exact (Reverse_involution 0 _ _ _ wf_list123). Defined.

Lemma InsertAfter_inserts_witness :
  exists st' l' h,
    InsertAfter 0 list123.1 list123.2 (Some 1%nat) 9 = (st', l', h) /\
    ToSlice 0 list123.1 list123.2 = Some (values 0 list123.1 [0; 1; 2]%nat) /\
    ToSlice 0 st' l' = Some (splice 2 9 (values 0 list123.1 [0; 1; 2]%nat)) /\
    Len l' = Len list123.2 + 1 /\
    nodes 0 st' l' = Some (splice 2 h [0; 1; 2]%nat) /\
    h ∉ [0; 1; 2]%nat.
Proof. exact (InsertAfter_inserts 0 _ _ _ 1%nat 1%nat 9 wf_list123 eq_refl). Defined.

Lemma InsertBefore_inserts_witness :
  exists st' l' h,
    InsertBefore 0 list123.1 list123.2 (Some 1%nat) 9 = (st', l', h) /\
    ToSlice 0 list123.1 list123.2 = Some (values 0 list123.1 [0; 1; 2]%nat) /\
    ToSlice 0 st' l' = Some (splice 1 9 (values 0 list123.1 [0; 1; 2]%nat)) /\
    Len l' = Len list123.2 + 1 /\
    nodes 0 st' l' = Some (splice 1 h [0; 1; 2]%nat) /\
    h ∉ [0; 1; 2]%nat.
Proof. exact (InsertBefore_inserts 0 _ _ _ 1%nat 1%nat 9 wf_list123 eq_refl). Defined.

Lemma Insert_nil_is_push_witness :
  exists st1 l1 h1 st2 l2 h2,
    InsertAfter 0 list123.1 list123.2 None 9 = (st1, l1, h1) /\
    ToSlice 0 st1 l1 = Some (values 0 list123.1 [0; 1; 2]%nat ++ [9]) /\
    Back l1 = Some h1 /\
    InsertBefore 0 list123.1 list123.2 None 9 = (st2, l2, h2) /\
    ToSlice 0 st2 l2 = Some (9 :: values 0 list123.1 [0; 1; 2]%nat) /\
    Front l2 = Some h2.
Proof. exact (Insert_nil_is_push 0 _ _ _ 9 wf_list123). Defined.

Lemma Find_first_match_witness :
  exists r,
    Find 0 list123.1 list123.2 (fun x => 1 <? x) = Some r /\
    match r with
    | Some a =>
        exists j, [0; 1; 2]%nat !! j = Some a /\
          (fun x => 1 <? x) (Value (node 0 list123.1 a)) = true /\
          forall k b, (k < j)%nat -> [0; 1; 2]%nat !! k = Some b ->
            (fun x => 1 <? x) (Value (node 0 list123.1 b)) = false
    | None => forall x, x ∈ values 0 list123.1 [0; 1; 2]%nat ->
                        (fun x => 1 <? x) x = false
    end.
Proof. exact (Find_first_match 0 _ _ _ (fun x => 1 <? x) wf_list123). Defined.

Lemma Clear_detaches_witness :
  exists st' l',
    Clear 0 list123.1 list123.2 = Some (st', l') /\
    Len l' = 0 /\ Front l' = None /\ Back l' = None /\
    ToSlice 0 st' l' = Some [] /\
    forall a, a ∈ [0; 1; 2]%nat ->
      Prev 0 st' a = None /\ Next 0 st' a = None /\
      Value (node 0 st' a) = Value (node 0 list123.1 a).
Proof. exact (Clear_detaches 0 _ _ _ wf_list123). Defined.

Lemma MoveTo_end_values_witness :
  exists st1 l1 st2 l2,
    MoveToFront 0 list123.1 list123.2 (Some 1%nat) = (st1, l1) /\
    ToSlice 0 st1 l1
      = Some (Value (node 0 list123.1 1) :: delete 1%nat (values 0 list123.1 [0; 1; 2]%nat)) /\
    Len l1 = Len list123.2 /\
    MoveToBack 0 list123.1 list123.2 (Some 1%nat) = (st2, l2) /\
    ToSlice 0 st2 l2
      = Some (delete 1%nat (values 0 list123.1 [0; 1; 2]%nat) ++ [Value (node 0 list123.1 1)]) /\
    Len l2 = Len list123.2.
Proof. exact (MoveTo_end_values 0 _ _ _ 1%nat 1%nat wf_list123 eq_refl). Defined.

Close Scope Z_scope.

End dll.

(** ** Package priorityqueue *)

Module priorityqueue.

(** *** Binary-heap order on a slice of values

    The heap of [container/heap] lives in positions [0 .. n-1] of a slice;
    the parent of position [j > 0] is [(j - 1) / 2]. *)

Definition parent (j : nat) : nat := (j - 1) / 2.

Lemma parent_child c i :
  0 < c -> parent c = i <-> c = 2 * i + 1 \/ c = 2 * i + 2.
Proof.
  intros Hc. unfold parent. split.
  - intros <-. pose proof (Nat.div_mod_eq (c - 1) 2) as H.
    pose proof (Nat.mod_upper_bound (c - 1) 2) as H2. lia.
  - intros [->| ->].
    + replace (2 * i + 1 - 1) with (i * 2) by lia. apply Nat.div_mul. lia.
    + replace (2 * i + 2 - 1) with (1 + i * 2) by lia. by rewrite Nat.div_add by lia.
Qed.

Lemma parent_lt j : 0 < j -> parent j < j.
Proof.
  intros Hj. destruct (proj1 (parent_child j (parent j) Hj) eq_refl); lia.
Qed.

Lemma parent_0 : parent 0 = 0.
Proof. done. Qed.

Section HeapOrder.
Context {T : Type} (less : T -> T -> bool).

(** The entry at [k] is not before its parent's entry. *)
Definition edge_ok (vs : list T) (k : nat) : Prop :=
  forall x p, vs !! k = Some x -> vs !! parent k = Some p -> less x p = false.

(** Heap property of the specification on the first [n] positions. *)
Definition heap_upto (n : nat) (vs : list T) : Prop :=
  forall k, 0 < k < n -> edge_ok vs k.

(** The heap property with position [i] left out: every parent/child pair
    that does not involve [i] is in order, and the children of [i] are in
    order with the parent of [i]. *)
Definition hole (n : nat) (vs : list T) (i : nat) : Prop :=
  (forall k, 0 < k < n -> k <> i -> parent k <> i -> edge_ok vs k) /\
  (forall c x g, 0 < i -> 0 < c < n -> parent c = i ->
     vs !! c = Some x -> vs !! parent i = Some g -> less x g = false).

Definition children_ok (n : nat) (vs : list T) (i : nat) : Prop :=
  forall c, 0 < c < n -> parent c = i -> edge_ok vs c.

Lemma hole_closed n vs i :
  hole n vs i -> children_ok n vs i -> i = 0 \/ edge_ok vs i -> heap_upto n vs.
Proof.
  intros [Ha _] Hc Hi k Hk.
  destruct (decide (k = i)) as [->|Hki]; [destruct Hi; [lia|done]|].
  destruct (decide (parent k = i)) as [Hp|Hp]; [by apply Hc|by apply Ha].
Qed.

Lemma hole_ext n vs vs' i :
  hole n vs i ->
  (forall k, k < n -> k <> i -> vs' !! k = vs !! k) ->
  hole n vs' i.
Proof.
  intros [Ha Hb] Hsame. split.
  - intros k Hk Hki Hpi x p Hx Hp.
    pose proof (parent_lt k ltac:(lia)).
    rewrite Hsame in Hx, Hp by lia. by apply (Ha k Hk Hki Hpi).
  - intros c x g Hi Hc Hpc Hx Hg.
    pose proof (parent_lt c ltac:(lia)). pose proof (parent_lt i Hi).
    rewrite Hsame in Hx, Hg by lia. by apply (Hb c x g).
Qed.

Lemma heap_upto_ext n vs vs' :
  heap_upto n vs -> (forall k, k < n -> vs' !! k = vs !! k) -> heap_upto n vs'.
Proof.
  intros H Hsame k Hk x p Hx Hp. pose proof (parent_lt k ltac:(lia)).
  rewrite Hsame in Hx, Hp by lia. by apply (H k Hk).
Qed.

Lemma heap_upto_mono n m vs : heap_upto n vs -> m <= n -> heap_upto m vs.
Proof. intros H Hm k Hk. apply H. lia. Qed.

(** A new last position is a hole with no children. *)
Lemma hole_last n vs :
  heap_upto n vs -> hole (S n) vs n /\ children_ok (S n) vs n.
Proof.
  intros H. split; [split|].
  - intros k Hk Hkn _. apply H. lia.
  - intros c x g _ Hc Hpc. apply parent_child in Hpc; lia.
  - intros c Hc Hpc. apply parent_child in Hpc; lia.
Qed.

Section WithOrder.
Hypothesis Hswo : strict_weak_order less.

Lemma heap_hole n vs i :
  heap_upto n vs -> n <= length vs -> hole n vs i /\ children_ok n vs i.
Proof.
  intros H Hn. split; [split|].
  - intros k Hk _ _. by apply H.
  - intros c x g Hi Hc Hpc Hx Hg.
    destruct (lookup_lt_is_Some_2 vs i) as [y Hy].
    { pose proof (parent_lt c ltac:(lia)). lia. }
    destruct Hswo as [_ _ Hnt]. apply (Hnt x y g).
    + apply (H c Hc x y Hx). by rewrite Hpc.
    + apply (H i); [|done..]. pose proof (parent_lt c ltac:(lia)). lia.
  - intros c Hc _. by apply H.
Qed.

(** One iteration of [up]: the entry at [j] is before its parent's. *)
Lemma up_step n vs j x p :
  hole n vs j -> children_ok n vs j ->
  0 < j < n -> n <= length vs ->
  vs !! j = Some x -> vs !! parent j = Some p -> less x p = true ->
  hole n (swap vs (parent j) j) (parent j) /\
  children_ok n (swap vs (parent j) j) (parent j).
Proof.
  intros [Ha Hb] Hc Hj Hn Hx Hp Hlt.
  pose proof (parent_lt j ltac:(lia)) as Hpj.
  set (i := parent j) in *.
  assert (Hl : forall k, swap vs i j !! k =
                 if decide (k = i) then Some x
                 else if decide (k = j) then Some p else vs !! k).
  { intros k. rewrite lookup_swap by lia. by rewrite Hx, Hp. }
  assert (Hpg : 0 < i -> forall g, vs !! parent i = Some g -> less p g = false).
  { intros Hi g Hg. apply (Ha i); [lia|lia| |done..].
    pose proof (parent_lt i Hi). lia. }
  split; [split|].
  - intros k Hk Hki Hpki y q. rewrite !Hl.
    pose proof (parent_lt k ltac:(lia)) as Hpk.
    rewrite (decide_False (P := k = i)) by done.
    rewrite (decide_False (P := parent k = i)) by done.
    destruct (decide (k = j)) as [->|Hkj]; [done|].
    destruct (decide (parent k = j)) as [Hpkj|Hpkj].
    + intros Hy [= <-]. apply (Hb k y p); [lia|lia|done..].
    + by apply Ha.
  - intros c y g Hi Hci Hpc. rewrite !Hl.
    pose proof (parent_lt i Hi) as Hpi.
    pose proof (parent_lt c ltac:(lia)) as Hpclt.
    rewrite (decide_False (P := c = i)) by lia.
    rewrite (decide_False (P := parent i = i)) by lia.
    rewrite (decide_False (P := parent i = j)) by lia.
    destruct (decide (c = j)) as [->|Hcj].
    + intros [= <-] Hg. by apply Hpg.
    + intros Hy Hg. destruct Hswo as [_ _ Hnt]. apply (Hnt y p g).
      * apply (Ha c); [lia|done|lia|done|]. by rewrite Hpc.
      * by apply Hpg.
  - intros c Hci Hpc y q. rewrite !Hl.
    pose proof (parent_lt c ltac:(lia)) as Hpclt.
    rewrite (decide_False (P := c = i)) by lia.
    rewrite (decide_True (P := parent c = i)) by done.
    destruct (decide (c = j)) as [->|Hcj].
    + intros [= <-] [= <-]. by apply swo_asym.
    + intros Hy [= <-].
      assert (Hyp : less y p = false).
      { apply (Ha c); [lia|done|lia|done|]. by rewrite Hpc. }
      destruct (less y x) eqn:Hyx; [|done].
      destruct Hswo as [_ Htr _]. by rewrite (Htr y x p Hyx Hlt) in Hyp.
Qed.

(** One iteration of [down]: the child at [j] is before the entry at
    its parent [i], and no other child of [i] is before that child. *)
Lemma down_step n vs i j x c :
  hole n vs i ->
  0 < j < n -> parent j = i -> n <= length vs ->
  vs !! i = Some x -> vs !! j = Some c -> less c x = true ->
  (forall s y, 0 < s < n -> parent s = i -> s <> j ->
     vs !! s = Some y -> less y c = false) ->
  hole n (swap vs i j) j /\ edge_ok (swap vs i j) j.
Proof.
  intros [Ha Hb] Hj Hpj Hn Hx Hc Hlt Hsib.
  pose proof (parent_lt j ltac:(lia)) as Hij. rewrite Hpj in Hij.
  assert (Hl : forall k, swap vs i j !! k =
                 if decide (k = i) then Some c
                 else if decide (k = j) then Some x else vs !! k).
  { intros k. rewrite lookup_swap by lia. by rewrite Hx, Hc. }
  split; [split|].
  - intros k Hk Hkj Hpkj y q. rewrite !Hl.
    pose proof (parent_lt k ltac:(lia)) as Hpk.
    rewrite (decide_False (P := k = j)) by done.
    rewrite (decide_False (P := parent k = j)) by done.
    destruct (decide (k = i)) as [->|Hki].
    + rewrite (decide_False (P := parent i = i)) by lia.
      intros [= <-] Hq. apply (Hb j c q); [lia|done..].
    + destruct (decide (parent k = i)) as [Hpki|Hpki].
      * intros Hy [= <-]. by apply (Hsib k y).
      * by apply Ha.
  - intros d y g _ Hd Hpd. rewrite !Hl, Hpj.
    pose proof (parent_lt d ltac:(lia)) as Hpdlt.
    rewrite (decide_False (P := d = i)) by lia.
    rewrite (decide_False (P := d = j)) by lia.
    rewrite (decide_True (P := i = i)) by done.
    intros Hy [= <-]. apply (Ha d); [lia|lia|lia|done|]. by rewrite Hpd.
  - intros y q. rewrite !Hl, Hpj.
    rewrite (decide_False (P := j = i)) by lia.
    rewrite (decide_True (P := j = j)) by done.
    rewrite (decide_True (P := i = i)) by done.
    intros [= <-] [= <-]. by apply swo_asym.
Qed.

(** The entry at position 0 of a heap is before none of the others. *)
Lemma heap_top n vs t :
  heap_upto n vs -> n <= length vs -> vs !! 0 = Some t ->
  forall k x, k < n -> vs !! k = Some x -> less x t = false.
Proof.
  intros H Hn Ht k. induction k as [k IH] using lt_wf_ind. intros x Hk Hx.
  destruct (decide (k = 0)) as [->|Hk0].
  - destruct Hswo as [Hirr _ _]. rewrite Ht in Hx. injection Hx as <-.
    apply Hirr.
  - pose proof (parent_lt k ltac:(lia)) as Hp.
    destruct (lookup_lt_is_Some_2 vs (parent k)) as [y Hy]; [lia|].
    assert (Hxy : less x y = false) by (by apply (H k ltac:(lia))).
    destruct Hswo as [_ _ Hnt]. apply (Hnt x y t Hxy).
    by apply (IH (parent k) Hp y ltac:(lia)).
Qed.
End WithOrder.
End HeapOrder.

(** *** The queue and [container/heap] on it *)

Section PriorityQueue.
Context {T : Type} (zero : T).

(** [type Item[T any] struct { Value T; index int }].  A [*Item[T]] is an
    address in the item store (a non-nil pointer). *)
Record Item := mkItem { Value : T; index : Z }.

(** [type PriorityQueue[T any] struct { items []*Item[T]; less ... }],
    together with the store its pointers point into.  The store also holds
    the items the queue does not own (items of other queues, items the
    caller made).  [less] is fixed at [New]. *)
Record PriorityQueue := mkPQ { mem : list Item; items : list nat }.

Variable less : T -> T -> bool.

Definition item (m : list Item) (a : nat) : Item :=
  default (mkItem zero 0) (m !! a).

(** [it.index = i] *)
Definition set_index (a : nat) (i : Z) (m : list Item) : list Item :=
  alter (fun it => mkItem (Value it) i) a m.

(** The methods of [heap.Interface].  A position outside the slice is a
    run-time panic in Go: [None].  Positions are [nat]: where Go computes
    [-1] (as [h.Len() - 1] or [n - 1] on an empty slice) the model computes
    0, and both then fail on the slice access that follows. *)
Definition Len (pq : PriorityQueue) : nat := length (items pq).

Definition Less (pq : PriorityQueue) (i j : nat) : option bool :=
  a ← items pq !! i;
  b ← items pq !! j;
  Some (less (Value (item (mem pq) a)) (Value (item (mem pq) b))).

(** [pq.items[i], pq.items[j] = pq.items[j], pq.items[i];
    pq.items[i].index = i; pq.items[j].index = j] *)
Definition Swap (pq : PriorityQueue) (i j : nat) : option PriorityQueue :=
  _ ← items pq !! i;
  _ ← items pq !! j;
  let its := swap (items pq) i j in
  a ← its !! i;
  let m := set_index a (Z.of_nat i) (mem pq) in
  b ← its !! j;
  let m := set_index b (Z.of_nat j) m in
  Some (mkPQ m its).

(** [it.index = len(pq.items); pq.items = append(pq.items, it)] *)
Definition Push (pq : PriorityQueue) (it : nat) : PriorityQueue :=
  let m := set_index it (Z.of_nat (length (items pq))) (mem pq) in
  mkPQ m (items pq ++ [it]).

(** [n := len(pq.items); it := pq.items[n-1]; it.index = -1;
    pq.items = pq.items[:n-1]; return it] *)
Definition Pop (pq : PriorityQueue) : option (PriorityQueue * nat) :=
  let n := length (items pq) in
  it ← items pq !! (n - 1);
  let m := set_index it (-1) (mem pq) in
  Some (mkPQ m (take (n - 1) (items pq)), it).

(** [heap.up]: [for { i := (j - 1) / 2; if i == j || !h.Less(j, i) { break };
    h.Swap(i, j); j = i }].  [j] decreases at every iteration. *)
Fixpoint up_loop (fuel : nat) (pq : PriorityQueue) (j : nat) : option PriorityQueue :=
  match fuel with
  | O => None
  | S fuel' =>
      let i := (j - 1) / 2 in
      if decide (i = j) then Some pq
      else
        lt ← Less pq j i;
        if negb lt then Some pq
        else pq' ← Swap pq i j; up_loop fuel' pq' i
  end.

Definition up (pq : PriorityQueue) (j : nat) : option PriorityQueue :=
  up_loop (S j) pq j.

(** [heap.down]; the loop returns the final [i].  [i] increases at every
    iteration and the loop ends once [2*i + 1 >= n].  (The source also
    leaves the loop on [j1 < 0], the case of [2*i + 1] overflowing [int],
    which a position of a slice never reaches.) *)
Fixpoint down_loop (fuel : nat) (pq : PriorityQueue) (i n : nat)
  : option (PriorityQueue * nat) :=
  match fuel with
  | O => None
  | S fuel' =>
      let j1 := 2 * i + 1 in
      if n <=? j1 then Some (pq, i)
      else
        lt21 ← (if j1 + 1 <? n then Less pq (j1 + 1) j1 else Some false);
        let j := if (lt21 : bool) then j1 + 1 else j1 in
        lt ← Less pq j i;
        if negb lt then Some (pq, i)
        else pq' ← Swap pq i j; down_loop fuel' pq' j n
  end.

Definition down (pq : PriorityQueue) (i0 n : nat) : option (PriorityQueue * bool) :=
  '(pq', i) ← down_loop (S n) pq i0 n;
  Some (pq', i0 <? i).

(** [heap.Init]: [n := h.Len(); for i := n/2 - 1; i >= 0; i-- { down(h, i, n) }]. *)
Definition heap_Init (pq : PriorityQueue) : option PriorityQueue :=
  let n := Len pq in
  foldl (fun (acc : option PriorityQueue) (i : nat) =>
           pq ← acc; '(pq, _) ← down pq i n; Some pq)
        (Some pq) (rev (seq 0 (n / 2))).

(** [heap.Push]: [h.Push(x); up(h, h.Len()-1)]. *)
Definition heap_Push (pq : PriorityQueue) (x : nat) : option PriorityQueue :=
  let pq := Push pq x in
  up pq (Len pq - 1).

(** [heap.Pop]: [n := h.Len() - 1; h.Swap(0, n); down(h, 0, n); return h.Pop()]. *)
Definition heap_Pop (pq : PriorityQueue) : option (PriorityQueue * nat) :=
  let n := Len pq - 1 in
  pq ← Swap pq 0 n;
  '(pq, _) ← down pq 0 n;
  Pop pq.

(** [heap.Remove]: [n := h.Len() - 1; if n != i { h.Swap(i, n);
    if !down(h, i, n) { up(h, i) } }; return h.Pop()]. *)
Definition heap_Remove (pq : PriorityQueue) (i : nat) : option (PriorityQueue * nat) :=
  let n := Len pq - 1 in
  pq ← (if decide (n = i) then Some pq
        else
          pq ← Swap pq i n;
          '(pq, moved) ← down pq i n;
          if negb moved then up pq i else Some pq);
  Pop pq.

(** The package's own functions.  [m] is the store the new queue's
    pointers will live in. *)
Definition New (m : list Item) : option PriorityQueue :=
  heap_Init (mkPQ m []).

(** [it := &Item[T]{Value: value}; heap.Push(pq, it); return it]: the new
    item is allocated at the end of the store, with [index] zero. *)
Definition PushAndReturnItem (pq : PriorityQueue) (value : T)
  : option (PriorityQueue * nat) :=
  let it := length (mem pq) in
  let pq := mkPQ (mem pq ++ [mkItem value 0]) (items pq) in
  pq ← heap_Push pq it;
  Some (pq, it).

Definition PushValue (pq : PriorityQueue) (value : T) : option PriorityQueue :=
  '(pq, _) ← PushAndReturnItem pq value; Some pq.

(** [RemoveItem]: the guard [it.index < 0 || it.index >= pq.Len()], then
    [heap.Remove(pq, it.index)] and the removed item's value. *)
Definition RemoveItem (pq : PriorityQueue) (it : nat)
  : option (PriorityQueue * (T * bool)) :=
  let idx := index (item (mem pq) it) in
  if ((idx <? 0) || (Z.of_nat (Len pq) <=? idx))%Z then Some (pq, (zero, false))
  else
    '(pq, removed) ← heap_Remove pq (Z.to_nat idx);
    Some (pq, (Value (item (mem pq) removed), true)).

Definition PopValue (pq : PriorityQueue) : option (PriorityQueue * (T * bool)) :=
  if Len pq =? 0 then Some (pq, (zero, false))
  else
    '(pq, it) ← heap_Pop pq;
    Some (pq, (Value (item (mem pq) it), true)).

Definition Peek (pq : PriorityQueue) : option (T * bool) :=
  if Len pq =? 0 then Some (zero, false)
  else
    a ← items pq !! 0;
    Some (Value (item (mem pq) a), true).

Definition PeekValue (pq : PriorityQueue) : option (T * bool) := Peek pq.

(** *** Representation

    [vals] is the slice of values the queue holds, in slice order.  [inv]
    is the index-bookkeeping invariant: the entries of the slice are
    distinct allocated items and each one's [index] field is its position.
    [reorder pq pq'] says that [pq'] holds the same entries as [pq] in
    some order, with unchanged values, and that no item outside the slice
    was written. *)
Definition vals (pq : PriorityQueue) : list T :=
  (fun a => Value (item (mem pq) a)) <$> items pq.

Definition inv (pq : PriorityQueue) : Prop :=
  NoDup (items pq) /\
  forall i a, items pq !! i = Some a ->
    a < length (mem pq) /\ index (item (mem pq) a) = Z.of_nat i.

Definition reorder (pq pq' : PriorityQueue) : Prop :=
  length (mem pq') = length (mem pq) /\
  (forall a, Value (item (mem pq') a) = Value (item (mem pq) a)) /\
  items pq' ≡ₚ items pq /\
  (forall a, a ∉ items pq -> item (mem pq') a = item (mem pq) a).

(** The heap property of the specification, on the whole slice. *)
Definition heap (pq : PriorityQueue) : Prop := heap_upto less (Len pq) (vals pq).

(** [pq'] is [pq] without the entry [a]: the index bookkeeping still
    holds, [a]'s index is the sentinel [-1], values are untouched, items
    outside the queue are untouched, and a heap stays a heap. *)
Definition removes (pq : PriorityQueue) (a : nat) (pq' : PriorityQueue) : Prop :=
  inv pq' /\
  items pq ≡ₚ a :: items pq' /\
  length (mem pq') = length (mem pq) /\
  (forall b, Value (item (mem pq') b) = Value (item (mem pq) b)) /\
  index (item (mem pq') a) = (-1)%Z /\
  (forall b, b ∉ items pq -> item (mem pq') b = item (mem pq) b) /\
  (strict_weak_order less -> heap pq -> heap pq').

(** [pq'] is [pq] with the new entry [a] added. *)
Definition adds (pq : PriorityQueue) (a : nat) (pq' : PriorityQueue) : Prop :=
  inv pq' /\
  items pq' ≡ₚ a :: items pq /\
  length (mem pq') = length (mem pq) /\
  (forall b, Value (item (mem pq') b) = Value (item (mem pq) b)) /\
  (forall b, b <> a -> b ∉ items pq -> item (mem pq') b = item (mem pq) b) /\
  (strict_weak_order less -> heap pq -> heap pq').

(** *** Sequences of calls: drivers *)

Definition found (x : T) : T * bool := (x, true).

(** [PushAndReturnItem] of every value of [vs], in order; the handles in
    call order. *)
Fixpoint pushAll (pq : PriorityQueue) (vs : list T)
  : option (PriorityQueue * list nat) :=
  match vs with
  | [] => Some (pq, [])
  | v :: vs' =>
      '(pq, h) ← PushAndReturnItem pq v;
      '(pq, hs) ← pushAll pq vs';
      Some (pq, h :: hs)
  end.

(** [PushValue] of every value of [vs], in order. *)
Fixpoint pushValues (pq : PriorityQueue) (vs : list T) : option PriorityQueue :=
  match vs with
  | [] => Some pq
  | v :: vs' => pq ← PushValue pq v; pushValues pq vs'
  end.

(** [RemoveItem] of every handle of [rs], in order; the results in call
    order. *)
Fixpoint removeAll (pq : PriorityQueue) (rs : list nat)
  : option (list (T * bool) * PriorityQueue) :=
  match rs with
  | [] => Some ([], pq)
  | r :: rs' =>
      '(pq, res) ← RemoveItem pq r;
      '(ress, pq) ← removeAll pq rs';
      Some (res :: ress, pq)
  end.

(** [n] calls of [PopValue]; the results in call order. *)
Fixpoint popN (n : nat) (pq : PriorityQueue)
  : option (list (T * bool) * PriorityQueue) :=
  match n with
  | O => Some ([], pq)
  | S n' =>
      '(pq, res) ← PopValue pq;
      '(ress, pq) ← popN n' pq;
      Some (res :: ress, pq)
  end.

(** *** Any sequence of public operations: drivers *)

Inductive op : Type :=
| OpPushValue (v : T)
| OpPushAndReturnItem (v : T)
| OpPopValue
| OpRemoveItem (it : nat)
| OpPeek.

(** One call; the result of the call is dropped, the queue kept. *)
Definition step (pq : PriorityQueue) (o : op) : option PriorityQueue :=
  match o with
  | OpPushValue v => PushValue pq v
  | OpPushAndReturnItem v => '(pq, _) ← PushAndReturnItem pq v; Some pq
  | OpPopValue => '(pq, _) ← PopValue pq; Some pq
  | OpRemoveItem it => '(pq, _) ← RemoveItem pq it; Some pq
  | OpPeek => _ ← Peek pq; Some pq
  end.

Fixpoint run (pq : PriorityQueue) (ops : list op) : option PriorityQueue :=
  match ops with
  | [] => Some pq
  | o :: ops' => pq ← step pq o; run pq ops'
  end.

(** The state of a queue created by [New] over the store [m0]: the index
    bookkeeping holds; its entries are the items allocated since then that
    are still in the slice; the other items allocated since then carry the
    sentinel [-1]; the items of [m0] are as they were. *)
Definition tracked (m0 : list Item) (pq : PriorityQueue) : Prop :=
  inv pq /\
  length m0 <= length (mem pq) /\
  (forall a, a ∈ items pq -> length m0 <= a) /\
  (forall a, length m0 <= a < length (mem pq) -> a ∉ items pq ->
     index (item (mem pq) a) = (-1)%Z) /\
  (forall a, a < length m0 -> item (mem pq) a = item m0 a).

(** *** Lemmas *)

Lemma eq_reflexive_Permutation {A} (l k : list A) : l = k -> l ≡ₚ k.
Proof. by intros ->. Qed.

Lemma reorder_refl pq : reorder pq pq.
Proof. by repeat split. Qed.

Lemma reorder_trans pq1 pq2 pq3 :
  reorder pq1 pq2 -> reorder pq2 pq3 -> reorder pq1 pq3.
Proof.
  intros (Hl1 & Hv1 & Hp1 & Hf1) (Hl2 & Hv2 & Hp2 & Hf2).
  split; [congruence|]. split; [intros a; by rewrite Hv2|].
  split; [by rewrite Hp2|]. intros a Ha. rewrite Hf2, Hf1; [done..|].
  by rewrite Hp1.
Qed.

Lemma reorder_Len pq pq' : reorder pq pq' -> Len pq' = Len pq.
Proof. intros (_ & _ & Hp & _). unfold Len. by rewrite Hp. Qed.

Lemma reorder_vals pq pq' : reorder pq pq' -> vals pq' ≡ₚ vals pq.
Proof.
  intros (_ & Hv & Hp & _). unfold vals.
  transitivity ((fun a => Value (item (mem pq) a)) <$> items pq').
  - apply eq_reflexive_Permutation, list_fmap_ext. intros; apply Hv.
  - by rewrite Hp.
Qed.

(** *** Store lemmas *)

Lemma length_set_index a i m : length (set_index a i m) = length m.
Proof. apply length_alter. Qed.

Lemma Value_set_index a b i m : Value (item (set_index a i m) b) = Value (item m b).
Proof.
  unfold item, set_index. destruct (decide (a = b)) as [->|Hne].
  - rewrite list_lookup_alter_eq. by destruct (m !! b).
  - by rewrite list_lookup_alter_ne.
Qed.

Lemma item_set_index_ne a b i m : a <> b -> item (set_index a i m) b = item m b.
Proof. intros H. unfold item, set_index. by rewrite list_lookup_alter_ne. Qed.

Lemma index_set_index_eq a i m :
  a < length m -> index (item (set_index a i m) a) = i.
Proof.
  intros H. unfold item, set_index. rewrite list_lookup_alter_eq.
  by destruct (lookup_lt_is_Some_2 m a H) as [x ->].
Qed.

Lemma vals_lookup pq i :
  vals pq !! i = (fun a => Value (item (mem pq) a)) <$> items pq !! i.
Proof. unfold vals. by rewrite list_lookup_fmap. Qed.

Lemma length_vals pq : length (vals pq) = Len pq.
Proof. unfold vals, Len. by rewrite length_fmap. Qed.

(** *** The interface methods on a queue that satisfies [inv] *)

Lemma Less_vals pq i j x y :
  vals pq !! i = Some x -> vals pq !! j = Some y ->
  Less pq i j = Some (less x y).
Proof.
  rewrite !vals_lookup. unfold Less. intros Hx Hy.
  destruct (items pq !! i) as [a|]; [|done].
  destruct (items pq !! j) as [b|]; [|done].
  simpl in *. congruence.
Qed.

Lemma Swap_spec pq i j :
  inv pq -> i < Len pq -> j < Len pq ->
  exists pq',
    Swap pq i j = Some pq' /\
    items pq' = swap (items pq) i j /\
    vals pq' = swap (vals pq) i j /\
    inv pq' /\ reorder pq pq'.
Proof.
  intros [Hnd Hidx] Hi Hj. unfold Len in *.
  destruct (lookup_lt_is_Some_2 _ _ Hi) as [a Ha].
  destruct (lookup_lt_is_Some_2 _ _ Hj) as [b Hb].
  destruct (Hidx _ _ Ha) as [Halt _]. destruct (Hidx _ _ Hb) as [Hblt _].
  assert (Hl : forall k, swap (items pq) i j !! k =
                 if decide (k = i) then Some b
                 else if decide (k = j) then Some a else items pq !! k).
  { intros k. rewrite lookup_swap by done. by rewrite Ha, Hb. }
  unfold Swap. rewrite Ha, Hb. simpl. rewrite !Hl.
  rewrite (decide_True (P := i = i)) by done. simpl.
  set (c := if decide (j = i) then b else a).
  assert (Hc : (if decide (j = i) then Some b
                else if decide (j = j) then Some a else items pq !! j) = Some c).
  { unfold c. destruct (decide (j = i)); [done|]. by rewrite decide_True. }
  rewrite Hc. simpl.
  assert (Hclt : c < length (mem pq)) by (unfold c; by destruct (decide (j = i))).
  assert (Hbc : j <> i -> b <> c).
  { intros Hne E. unfold c in E. rewrite decide_False in E by done. subst b.
    pose proof (NoDup_lookup _ _ _ _ Hnd Ha Hb). lia. }
  eexists. split; [reflexivity|]. simpl. split; [done|]. split; [|split].
  - unfold vals. simpl. rewrite <- fmap_swap. apply list_fmap_ext.
    intros k x _. simpl. by rewrite !Value_set_index.
  - split; simpl; [by apply NoDup_swap|].
    intros k x. rewrite Hl, !length_set_index.
    destruct (decide (k = i)) as [->|Hki].
    + intros [= ->]. split; [done|].
      destruct (Nat.eq_dec j i) as [->|Hji].
      * unfold c. rewrite decide_True by done.
        by rewrite index_set_index_eq by (by rewrite length_set_index).
      * rewrite item_set_index_ne by (intros E; by apply Hbc).
        by rewrite index_set_index_eq.
    + destruct (decide (k = j)) as [->|Hkj].
      * intros [= ->]. split; [done|]. unfold c. rewrite decide_False by done.
        by rewrite index_set_index_eq by (by rewrite length_set_index).
      * intros Hx. destruct (Hidx _ _ Hx) as [Hxlt Hxi]. split; [done|].
        assert (x <> b).
        { intros ->. pose proof (NoDup_lookup _ _ _ _ Hnd Hb Hx). lia. }
        assert (x <> a).
        { intros ->. pose proof (NoDup_lookup _ _ _ _ Hnd Ha Hx). lia. }
        rewrite !item_set_index_ne; [done|..];
          unfold c; try destruct (decide (j = i)); congruence.
  - split; simpl; [by rewrite !length_set_index|].
    split; [intros x; by rewrite !Value_set_index|].
    split; [apply swap_Permutation|].
    intros x Hx. rewrite !item_set_index_ne; [done|..].
    + intros ->. apply Hx, list_elem_of_lookup. eauto.
    + intros <-. apply Hx, list_elem_of_lookup. unfold c.
      destruct (decide (j = i)); eauto.
Qed.

(** *** [heap.up] *)

Lemma up_loop_spec fuel :
  forall pq j,
    j < fuel -> inv pq -> j < Len pq ->
    exists pq',
      up_loop fuel pq j = Some pq' /\ inv pq' /\ reorder pq pq' /\
      (forall k, j < k -> items pq' !! k = items pq !! k) /\
      (strict_weak_order less -> forall n, j < n <= Len pq ->
         hole less n (vals pq) j -> children_ok less n (vals pq) j ->
         heap_upto less n (vals pq')).
Proof.
  induction fuel as [|fuel IH]; intros pq j Hfuel Hinv Hj; [lia|].
  cbn [up_loop]. change ((j - 1) / 2) with (parent j).
  destruct (decide (parent j = j)) as [Hpj|Hpj].
  - exists pq. split; [done|]. split; [done|]. split; [apply reorder_refl|].
    split; [done|]. intros _ n Hn Hh Hc. apply (hole_closed less n _ j Hh Hc).
    left. destruct (decide (j = 0)); [done|]. pose proof (parent_lt j). lia.
  - assert (Hj0 : 0 < j) by (destruct j; [done|lia]).
    pose proof (parent_lt j Hj0) as Hlt.
    destruct (lookup_lt_is_Some_2 (vals pq) j) as [x Hx]; [by rewrite length_vals|].
    destruct (lookup_lt_is_Some_2 (vals pq) (parent j)) as [p Hp];
      [rewrite length_vals; lia|].
    rewrite (Less_vals pq j (parent j) x p Hx Hp). simpl.
    destruct (less x p) eqn:Hxp; simpl.
    + destruct (Swap_spec pq (parent j) j Hinv ltac:(lia) Hj)
        as (pq1 & -> & Hits & Hvals & Hinv1 & Hre1).
      simpl.
      destruct (IH pq1 (parent j) ltac:(lia) Hinv1)
        as (pq' & E & Hinv' & Hre' & Hpos & Hheap).
      { rewrite (reorder_Len _ _ Hre1). lia. }
      exists pq'. split; [done|]. split; [done|].
      split; [by eapply reorder_trans|]. split.
      * intros k Hk. rewrite Hpos by lia. rewrite Hits.
        unfold Len in Hj. rewrite lookup_swap by lia.
        rewrite decide_False by lia. by rewrite decide_False by lia.
      * intros Hswo n Hn Hh Hc.
        destruct (up_step less Hswo n (vals pq) j x p Hh Hc)
          as [Hh1 Hc1]; [lia|rewrite length_vals; lia|done..|].
        rewrite <- Hvals in Hh1, Hc1.
        apply Hheap; [done| |done..]. rewrite (reorder_Len _ _ Hre1). lia.
    + exists pq. split; [done|]. split; [done|]. split; [apply reorder_refl|].
      split; [done|]. intros _ n Hn Hh Hc. apply (hole_closed less n _ j Hh Hc).
      right. intros x' p' Hx' Hp'. congruence.
Qed.

Lemma up_spec pq j :
  inv pq -> j < Len pq ->
  exists pq',
    up pq j = Some pq' /\ inv pq' /\ reorder pq pq' /\
    (forall k, j < k -> items pq' !! k = items pq !! k) /\
    (strict_weak_order less -> forall n, j < n <= Len pq ->
       hole less n (vals pq) j -> children_ok less n (vals pq) j ->
       heap_upto less n (vals pq')).
Proof. intros. apply up_loop_spec; [lia|done..]. Qed.

(** *** [heap.down] *)

(** The child [down] compares with the parent: the right child when it is
    before the left one, the left child otherwise.  No other child is
    before the chosen one. *)
Lemma down_choice pq i n :
  n <= Len pq -> 2 * i + 1 < n ->
  exists lt21 c,
    (if 2 * i + 1 + 1 <? n then Less pq (2 * i + 1 + 1) (2 * i + 1) else Some false)
      = Some lt21 /\
    let j := if lt21 then 2 * i + 1 + 1 else 2 * i + 1 in
    parent j = i /\ 0 < j < n /\ vals pq !! j = Some c /\
    (strict_weak_order less ->
     forall s y, 0 < s < n -> parent s = i -> s <> j ->
       vals pq !! s = Some y -> less y c = false).
Proof.
  intros Hn Hj1.
  destruct (lookup_lt_is_Some_2 (vals pq) (2 * i + 1)) as [y1 Hy1];
    [rewrite length_vals; lia|].
  destruct (2 * i + 1 + 1 <? n) eqn:Hj2.
  - apply Nat.ltb_lt in Hj2.
    destruct (lookup_lt_is_Some_2 (vals pq) (2 * i + 1 + 1)) as [y2 Hy2];
      [rewrite length_vals; lia|].
    rewrite (Less_vals pq _ _ y2 y1 Hy2 Hy1).
    destruct (less y2 y1) eqn:H21.
    + exists true, y2. split; [done|]. cbv zeta.
      split; [apply parent_child; lia|]. split; [lia|]. split; [done|].
      intros Hswo s y Hs Hps Hsj Hy. apply parent_child in Hps; [|lia].
      assert (s = 2 * i + 1) as -> by lia.
      rewrite Hy1 in Hy. injection Hy as <-. by apply swo_asym.
    + exists false, y1. split; [done|]. cbv zeta.
      split; [apply parent_child; lia|]. split; [lia|]. split; [done|].
      intros Hswo s y Hs Hps Hsj Hy. apply parent_child in Hps; [|lia].
      assert (s = 2 * i + 1 + 1) as -> by lia.
      rewrite Hy2 in Hy. by injection Hy as <-.
  - apply Nat.ltb_ge in Hj2. exists false, y1. split; [done|]. cbv zeta.
    split; [apply parent_child; lia|]. split; [lia|]. split; [done|].
    intros Hswo s y Hs Hps Hsj Hy. apply parent_child in Hps; lia.
Qed.

Lemma min_child_ok (vs : list T) n i j x c :
  strict_weak_order less ->
  vs !! i = Some x -> vs !! j = Some c -> parent j = i ->
  less c x = false ->
  (forall s y, 0 < s < n -> parent s = i -> s <> j ->
     vs !! s = Some y -> less y c = false) ->
  children_ok less n vs i.
Proof.
  intros Hswo Hx Hc Hpj Hcx Hsib s Hs Hps y q Hy Hq.
  rewrite Hps, Hx in Hq. injection Hq as <-.
  destruct (decide (s = j)) as [->|Hsj]; [congruence|].
  destruct Hswo as [_ _ Hnt]. apply (Hnt y c x); [|done]. by apply (Hsib s).
Qed.

Lemma down_loop_spec fuel :
  forall pq i n,
    n - i < fuel -> inv pq -> n <= Len pq ->
    exists pq' i',
      down_loop fuel pq i n = Some (pq', i') /\ inv pq' /\ reorder pq pq' /\
      i <= i' /\ (i' = i -> pq' = pq) /\
      (forall k, n <= k -> items pq' !! k = items pq !! k) /\
      (strict_weak_order less -> hole less n (vals pq) i ->
         hole less n (vals pq') i' /\ children_ok less n (vals pq') i' /\
         (i < i' -> edge_ok less (vals pq') i')).
Proof.
  induction fuel as [|fuel IH]; intros pq i n Hfuel Hinv Hn; [lia|].
  cbn [down_loop]. destruct (n <=? 2 * i + 1) eqn:Hj1.
  - apply Nat.leb_le in Hj1.
    exists pq, i. split; [done|]. split; [done|]. split; [apply reorder_refl|].
    split; [done|]. split; [done|]. split; [done|].
    intros _ Hh. split; [done|]. split; [|lia].
    intros c Hc Hpc. apply parent_child in Hpc; lia.
  - apply Nat.leb_gt in Hj1.
    destruct (down_choice pq i n Hn Hj1) as (lt21 & c & -> & Hchoice).
    cbv zeta in Hchoice. cbn [mbind option_bind]. cbv zeta.
    set (j := if lt21 then 2 * i + 1 + 1 else 2 * i + 1) in *.
    destruct Hchoice as (Hpj & Hj & Hc & Hsib).
    pose proof (parent_lt j ltac:(lia)) as Hij. rewrite Hpj in Hij.
    destruct (lookup_lt_is_Some_2 (vals pq) i) as [x Hx];
      [rewrite length_vals; lia|].
    rewrite (Less_vals pq j i c x Hc Hx). simpl.
    destruct (less c x) eqn:Hcx; simpl.
    + destruct (Swap_spec pq i j Hinv ltac:(lia) ltac:(lia))
        as (pq1 & -> & Hits & Hvals & Hinv1 & Hre1).
      simpl.
      destruct (IH pq1 j n ltac:(lia) Hinv1)
        as (pq' & i' & E & Hinv' & Hre' & Hle & Heq & Hpos & Hheap).
      { by rewrite (reorder_Len _ _ Hre1). }
      exists pq', i'. split; [done|]. split; [done|].
      split; [by eapply reorder_trans|]. split; [lia|]. split; [lia|]. split.
      * intros k Hk. rewrite Hpos by lia. rewrite Hits.
        unfold Len in Hn. rewrite lookup_swap by lia.
        rewrite decide_False by lia. by rewrite decide_False by lia.
      * intros Hswo Hh.
        destruct (down_step less Hswo n (vals pq) i j x c Hh)
          as [Hh1 He1]; [lia|done|rewrite length_vals; lia|done..|by apply Hsib|].
        rewrite <- Hvals in Hh1, He1.
        destruct (Hheap Hswo Hh1) as (Hh' & Hc' & He').
        split; [done|]. split; [done|]. intros _.
        destruct (decide (i' = j)) as [Hi'|Hi'].
        -- rewrite (Heq Hi'), Hi'. done.
        -- apply He'. lia.
    + exists pq, i. split; [done|]. split; [done|]. split; [apply reorder_refl|].
      split; [done|]. split; [done|]. split; [done|].
      intros Hswo Hh. split; [done|]. split; [|lia].
      by apply (min_child_ok (vals pq) n i j x c Hswo Hx Hc Hpj Hcx), Hsib.
Qed.

Lemma down_spec pq i n :
  inv pq -> n <= Len pq ->
  exists pq' moved,
    down pq i n = Some (pq', moved) /\ inv pq' /\ reorder pq pq' /\
    (moved = false -> pq' = pq) /\
    (forall k, n <= k -> items pq' !! k = items pq !! k) /\
    (strict_weak_order less -> hole less n (vals pq) i ->
       if moved then heap_upto less n (vals pq')
       else children_ok less n (vals pq) i).
Proof.
  intros Hinv Hn.
  destruct (down_loop_spec (S n) pq i n ltac:(lia) Hinv Hn)
    as (pq' & i' & E & Hinv' & Hre & Hle & Heq & Hpos & Hheap).
  exists pq', (i <? i'). unfold down. rewrite E. simpl.
  split; [done|]. split; [done|]. split; [done|]. split.
  { intros Hm. apply Nat.ltb_ge in Hm. apply Heq. lia. }
  split; [done|]. intros Hswo Hh. destruct (Hheap Hswo Hh) as (Hh' & Hc' & He').
  destruct (i <? i') eqn:Hm.
  - apply Nat.ltb_lt in Hm. apply (hole_closed less n _ i' Hh' Hc'). right. by apply He'.
  - apply Nat.ltb_ge in Hm. assert (i' = i) as -> by lia. by rewrite (Heq eq_refl) in Hc'.
Qed.

(** *** [Push], [Pop] and the three entry points of [container/heap] *)

Lemma Pop_after_reorder pq pq3 a :
  inv pq3 -> reorder pq pq3 -> 0 < Len pq ->
  items pq3 !! (Len pq - 1) = Some a ->
  (strict_weak_order less -> heap pq -> heap_upto less (Len pq - 1) (vals pq3)) ->
  exists pq', Pop pq3 = Some (pq', a) /\ removes pq a pq'.
Proof.
  intros [Hnd Hidx] Hre Hpos Ha Hheap.
  pose proof (reorder_Len _ _ Hre) as HLen. unfold Len in *.
  destruct Hre as (Hlen & Hval & Hperm & Hframe).
  destruct (Hidx _ _ Ha) as [Halt _].
  set (n := length (items pq) - 1) in *.
  assert (Hsplit : items pq3 = take n (items pq3) ++ [a]).
  { rewrite <- (take_drop_middle _ _ _ Ha) at 1. f_equal.
    rewrite drop_ge; [done|]. unfold n. lia. }
  assert (Hnot : a ∉ take n (items pq3)).
  { rewrite Hsplit in Hnd. apply NoDup_app in Hnd as (_ & Hd & _).
    intros Hin. apply (Hd a Hin). by apply list_elem_of_singleton. }
  unfold Pop. rewrite HLen. fold n. rewrite Ha. simpl.
  eexists. split; [reflexivity|]. split; [|split; [|split; [|split; [|split; [|split]]]]];
    simpl.
  - split; simpl.
    + eapply sublist_NoDup; [done|apply sublist_take].
    + intros k b Hk. apply lookup_take_Some in Hk as [Hk Hkn].
      destruct (Hidx _ _ Hk) as [Hblt Hbi]. rewrite length_set_index. split; [done|].
      rewrite item_set_index_ne; [done|]. intros ->.
      apply Hnot, list_elem_of_lookup. exists k. by apply lookup_take_Some.
  - rewrite <- Hperm, Hsplit at 1. by rewrite Permutation_app_comm.
  - by rewrite length_set_index.
  - intros b. by rewrite Value_set_index.
  - by apply index_set_index_eq.
  - intros b Hb. rewrite item_set_index_ne; [by apply Hframe|].
    intros ->. apply Hb. rewrite <- Hperm. apply list_elem_of_lookup. eauto.
  - intros Hswo Hh. unfold heap, Len. simpl.
    rewrite length_take, HLen. replace (n `min` length (items pq)) with n by (unfold n; lia).
    eapply heap_upto_ext; [by apply Hheap|].
    intros k Hk. rewrite !vals_lookup. simpl. rewrite lookup_take_lt by done.
    destruct (items pq3 !! k); [|done]. simpl. by rewrite Value_set_index.
Qed.

Lemma heap_Remove_spec pq i a :
  inv pq -> items pq !! i = Some a ->
  exists pq', heap_Remove pq i = Some (pq', a) /\ removes pq a pq'.
Proof.
  intros Hinv Ha. pose proof (lookup_lt_Some _ _ _ Ha) as Hi. fold (Len pq) in Hi.
  unfold heap_Remove. destruct (decide (Len pq - 1 = i)) as [Hn|Hn]; simpl.
  - apply Pop_after_reorder; [done|apply reorder_refl|lia|by rewrite Hn|].
    intros _ Hh. eapply heap_upto_mono; [exact Hh|lia].
  - set (n := Len pq - 1) in *.
    destruct (Swap_spec pq i n Hinv Hi ltac:(lia))
      as (pq1 & -> & Hits1 & Hvals1 & Hinv1 & Hre1). simpl.
    assert (Ha1 : items pq1 !! n = Some a).
    { rewrite Hits1. unfold Len in *. rewrite lookup_swap by lia.
      rewrite decide_False by lia. by rewrite decide_True. }
    assert (Hhole : strict_weak_order less -> heap pq -> hole less n (vals pq1) i).
    { intros Hswo Hh.
      apply (hole_ext less n (vals pq)).
      - apply heap_hole; [done| |rewrite length_vals; lia].
        eapply heap_upto_mono; [exact Hh|lia].
      - intros k Hk Hki. rewrite Hvals1.
        rewrite lookup_swap by (rewrite length_vals; lia).
        rewrite decide_False by done. by rewrite decide_False by lia. }
    destruct (down_spec pq1 i n Hinv1) as
      (pq2 & moved & -> & Hinv2 & Hre2 & Hsame & Hpos2 & Hheap2).
    { rewrite (reorder_Len _ _ Hre1). lia. }
    simpl. destruct moved; simpl.
    + apply Pop_after_reorder; [done|by eapply reorder_trans|lia| |].
      * by rewrite Hpos2.
      * intros Hswo Hh. by apply Hheap2, Hhole.
    + rewrite (Hsame eq_refl) in *.
      destruct (up_spec pq1 i Hinv1) as (pq3 & -> & Hinv3 & Hre3 & Hpos3 & Hheap3).
      { rewrite (reorder_Len _ _ Hre1). lia. }
      simpl. apply Pop_after_reorder; [done|by eapply reorder_trans|lia| |].
      * rewrite Hpos3; [done|lia].
      * intros Hswo Hh. apply Hheap3; [done| |by apply Hhole|by apply Hheap2, Hhole].
        rewrite (reorder_Len _ _ Hre1). lia.
Qed.

Lemma heap_Pop_spec pq a :
  inv pq -> items pq !! 0 = Some a ->
  exists pq', heap_Pop pq = Some (pq', a) /\ removes pq a pq'.
Proof.
  intros Hinv Ha. pose proof (lookup_lt_Some _ _ _ Ha) as Hi. fold (Len pq) in Hi.
  unfold heap_Pop. set (n := Len pq - 1) in *.
  destruct (Swap_spec pq 0 n Hinv Hi ltac:(lia))
    as (pq1 & -> & Hits1 & Hvals1 & Hinv1 & Hre1). simpl.
  assert (Ha1 : items pq1 !! n = Some a).
  { rewrite Hits1. unfold Len in *. rewrite lookup_swap by lia.
    destruct (decide (n = 0)) as [->|]; [done|]. by rewrite decide_True. }
  assert (Hhole : strict_weak_order less -> heap pq -> hole less n (vals pq1) 0).
  { intros Hswo Hh.
    apply (hole_ext less n (vals pq)).
    - apply heap_hole; [done| |rewrite length_vals; lia].
      eapply heap_upto_mono; [exact Hh|lia].
    - intros k Hk Hki. rewrite Hvals1.
      rewrite lookup_swap by (rewrite length_vals; lia).
      rewrite decide_False by done. by rewrite decide_False by lia. }
  destruct (down_spec pq1 0 n Hinv1) as
    (pq2 & moved & -> & Hinv2 & Hre2 & Hsame & Hpos2 & Hheap2).
  { rewrite (reorder_Len _ _ Hre1). lia. }
  simpl. apply Pop_after_reorder; [done|by eapply reorder_trans|lia| |].
  - by rewrite Hpos2.
  - intros Hswo Hh. specialize (Hheap2 Hswo (Hhole Hswo Hh)).
    destruct moved; [done|]. rewrite (Hsame eq_refl).
    apply (hole_closed less n _ 0); [by apply Hhole|done|by left].
Qed.

Lemma removes_Len pq a pq' : removes pq a pq' -> Len pq = S (Len pq').
Proof. intros (_ & Hp & _). unfold Len. by rewrite Hp. Qed.

Lemma removes_vals pq a pq' :
  removes pq a pq' -> vals pq ≡ₚ Value (item (mem pq) a) :: vals pq'.
Proof.
  intros (_ & Hp & _ & Hv & _). unfold vals. rewrite Hp. simpl.
  apply Permutation_cons; [done|]. apply eq_reflexive_Permutation, list_fmap_ext.
  intros; by rewrite Hv.
Qed.

Lemma adds_Len pq a pq' : adds pq a pq' -> Len pq' = S (Len pq).
Proof. intros (_ & Hp & _). unfold Len. by rewrite Hp. Qed.

Lemma adds_vals pq a pq' :
  adds pq a pq' -> vals pq' ≡ₚ Value (item (mem pq) a) :: vals pq.
Proof.
  intros (_ & Hp & _ & Hv & _). unfold vals. rewrite Hp. simpl.
  rewrite Hv. apply Permutation_cons; [done|].
  apply eq_reflexive_Permutation, list_fmap_ext. intros; by rewrite Hv.
Qed.

Lemma heap_Push_spec pq x :
  inv pq -> x < length (mem pq) -> x ∉ items pq ->
  exists pq', heap_Push pq x = Some pq' /\ adds pq x pq'.
Proof.
  intros [Hnd Hidx] Hx Hnot. unfold heap_Push.
  set (pq0 := Push pq x).
  assert (Hinv0 : inv pq0).
  { split; simpl.
    - apply NoDup_app. split; [done|]. split; [|apply NoDup_singleton].
      intros y Hy Hy'. apply list_elem_of_singleton in Hy'. by subst.
    - intros k b Hk. rewrite length_set_index.
      apply lookup_app_Some in Hk as [Hk|[Hge Hk]].
      + destruct (Hidx _ _ Hk) as [Hblt Hbi]. split; [done|].
        rewrite item_set_index_ne; [done|]. intros ->.
        apply Hnot, list_elem_of_lookup. eauto.
      + apply list_lookup_singleton_Some in Hk as [Hk0 <-]. split; [done|].
        rewrite index_set_index_eq by done. lia. }
  assert (HLen0 : Len pq0 = S (Len pq)).
  { unfold Len. simpl. rewrite length_app. simpl. lia. }
  assert (Hvals0 : forall k, k < Len pq -> vals pq0 !! k = vals pq !! k).
  { intros k Hk. rewrite !vals_lookup. simpl. rewrite lookup_app_l by done.
    destruct (items pq !! k); [|done]. simpl. by rewrite Value_set_index. }
  destruct (up_spec pq0 (Len pq0 - 1) Hinv0 ltac:(lia))
    as (pq' & E & Hinv' & (Hlen & Hval & Hperm & Hframe) & _ & Hheap).
  exists pq'. split; [done|]. split; [done|]. split; [|split; [|split; [|split]]].
  - rewrite Hperm. simpl. by rewrite Permutation_app_comm.
  - rewrite Hlen. simpl. by rewrite length_set_index.
  - intros b. rewrite Hval. simpl. by rewrite Value_set_index.
  - intros b Hbx Hb. rewrite Hframe.
    + simpl. by rewrite item_set_index_ne.
    + simpl. intros Hin. apply elem_of_app in Hin as [Hin|Hin]; [done|].
      by apply list_elem_of_singleton in Hin.
  - intros Hswo Hh. unfold heap. rewrite (reorder_Len pq0 pq') by done.
    rewrite HLen0 in *. replace (S (Len pq) - 1) with (Len pq) in * by lia.
    assert (Hh0 : heap_upto less (Len pq) (vals pq0))
      by (by apply (heap_upto_ext less _ (vals pq))).
    destruct (hole_last less _ _ Hh0) as [Hhole Hc].
    apply Hheap; [done|lia|done..].
Qed.

(** *** The public operations *)

Lemma New_spec m : New m = Some (mkPQ m []).
Proof. done. Qed.

Lemma inv_New m : inv (mkPQ m []).
Proof. split; simpl; [apply NoDup_nil_2|done]. Qed.

Lemma heap_New m : heap (mkPQ m []).
Proof. intros k Hk. unfold Len in Hk. simpl in Hk. lia. Qed.

Lemma item_app_l m x a : a < length m -> item (m ++ x) a = item m a.
Proof. intros H. unfold item. by rewrite lookup_app_l. Qed.

(** [PushAndReturnItem] returns, with the address of the new item as
    handle; the queue gains exactly that entry. *)
Lemma PushAndReturnItem_spec pq v :
  inv pq ->
  exists pq',
    PushAndReturnItem pq v = Some (pq', length (mem pq)) /\
    inv pq' /\
    items pq' ≡ₚ length (mem pq) :: items pq /\
    length (mem pq') = S (length (mem pq)) /\
    Value (item (mem pq') (length (mem pq))) = v /\
    (forall b, b < length (mem pq) ->
       Value (item (mem pq') b) = Value (item (mem pq) b)) /\
    (forall b, b < length (mem pq) -> b ∉ items pq ->
       item (mem pq') b = item (mem pq) b) /\
    Len pq' = S (Len pq) /\
    vals pq' ≡ₚ v :: vals pq /\
    (strict_weak_order less -> heap pq -> heap pq').
Proof.
  intros [Hnd Hidx]. unfold PushAndReturnItem.
  set (x := length (mem pq)). set (pqa := mkPQ (mem pq ++ [mkItem v 0]) (items pq)).
  assert (Hold : forall a, a ∈ items pq -> a < x).
  { intros a Ha. apply list_elem_of_lookup in Ha as [k Hk]. by destruct (Hidx _ _ Hk). }
  assert (Hinva : inv pqa).
  { split; [done|]. simpl. intros k a Hk. destruct (Hidx _ _ Hk) as [Halt Hai].
    rewrite length_app, item_app_l by done. simpl. split; [lia|done]. }
  assert (Hvalsa : vals pqa = vals pq).
  { unfold vals. simpl. apply list_fmap_ext. intros k a Hk.
    destruct (Hidx _ _ Hk) as [Halt _]. simpl. by rewrite item_app_l. }
  assert (Hxv : item (mem pqa) x = mkItem v 0).
  { unfold item, x. simpl. by rewrite list_lookup_middle. }
  destruct (heap_Push_spec pqa x Hinva) as (pq' & -> & Hadd).
  { simpl. rewrite length_app. simpl. unfold x. lia. }
  { intros Hin. apply Hold in Hin. lia. }
  pose proof (adds_Len _ _ _ Hadd) as HL. pose proof (adds_vals _ _ _ Hadd) as HV.
  destruct Hadd as (Hinv' & Hperm & Hlen & Hval & Hframe & Hheap).
  simpl. exists pq'. split; [done|]. split; [done|]. split; [done|].
  split; [rewrite Hlen; simpl; rewrite length_app; simpl; lia|].
  split; [by rewrite Hval, Hxv|].
  split; [intros b Hb; rewrite Hval; simpl; by rewrite item_app_l|].
  split.
  { intros b Hb Hnot. rewrite Hframe; [|unfold x; lia|done].
    simpl. by rewrite item_app_l. }
  split; [done|]. split; [by rewrite HV, Hxv, Hvalsa|].
  intros Hswo Hh. apply Hheap; [done|]. unfold heap. by rewrite Hvalsa.
Qed.

Lemma PushValue_spec pq v :
  inv pq ->
  exists pq',
    PushValue pq v = Some pq' /\ inv pq' /\
    PushAndReturnItem pq v = Some (pq', length (mem pq)).
Proof.
  intros Hinv. destruct (PushAndReturnItem_spec pq v Hinv) as (pq' & E & Hinv' & _).
  exists pq'. unfold PushValue. rewrite E. done.
Qed.

(** [PopValue] on a queue that is not empty removes the entry at
    position 0 and returns its value. *)
Lemma PopValue_spec pq a :
  inv pq -> items pq !! 0 = Some a ->
  exists pq',
    PopValue pq = Some (pq', (Value (item (mem pq) a), true)) /\
    removes pq a pq'.
Proof.
  intros Hinv Ha. pose proof (lookup_lt_Some _ _ _ Ha) as Hlt.
  destruct (heap_Pop_spec pq a Hinv Ha) as (pq' & E & Hrem).
  exists pq'. unfold PopValue, Len. destruct (length (items pq)); [lia|].
  simpl. rewrite E. simpl. split; [|done].
  destruct Hrem as (_ & _ & _ & Hv & _). by rewrite Hv.
Qed.

Lemma PopValue_empty pq : Len pq = 0 -> PopValue pq = Some (pq, (zero, false)).
Proof. unfold PopValue. by intros ->. Qed.

(** [RemoveItem] when the handle's stored index is outside the slice. *)
Lemma RemoveItem_out_of_range pq it :
  (index (item (mem pq) it) < 0 \/ Z.of_nat (Len pq) <= index (item (mem pq) it))%Z ->
  RemoveItem pq it = Some (pq, (zero, false)).
Proof.
  intros H. unfold RemoveItem.
  destruct (index (item (mem pq) it) <? 0)%Z eqn:E1; [done|].
  destruct (Z.of_nat (Len pq) <=? index (item (mem pq) it))%Z eqn:E2; [done|].
  apply Z.ltb_ge in E1. apply Z.leb_gt in E2. lia.
Qed.

(** [RemoveItem] when the handle's stored index is a position of the
    slice: the entry at that position is removed, whatever the handle. *)
Lemma RemoveItem_in_range pq it a :
  inv pq ->
  (0 <= index (item (mem pq) it))%Z ->
  items pq !! Z.to_nat (index (item (mem pq) it)) = Some a ->
  exists pq',
    RemoveItem pq it = Some (pq', (Value (item (mem pq) a), true)) /\
    removes pq a pq'.
Proof.
  intros Hinv H0 Ha. pose proof (lookup_lt_Some _ _ _ Ha) as Hlt.
  destruct (heap_Remove_spec pq _ a Hinv Ha) as (pq' & E & Hrem).
  exists pq'. unfold RemoveItem.
  replace (index (item (mem pq) it) <? 0)%Z with false
    by (symmetry; apply Z.ltb_ge; lia).
  replace (Z.of_nat (Len pq) <=? index (item (mem pq) it))%Z with false
    by (symmetry; apply Z.leb_gt; unfold Len; lia).
  simpl. rewrite E. simpl. split; [|done].
  destruct Hrem as (_ & _ & _ & Hv & _). by rewrite Hv.
Qed.

(** A live handle of the queue designates its own entry. *)
Lemma RemoveItem_live pq it :
  inv pq -> it ∈ items pq ->
  exists pq',
    RemoveItem pq it = Some (pq', (Value (item (mem pq) it), true)) /\
    removes pq it pq'.
Proof.
  intros Hinv Hin. apply list_elem_of_lookup in Hin as [k Hk].
  destruct Hinv as [Hnd Hidx]. destruct (Hidx _ _ Hk) as [_ Hi].
  apply RemoveItem_in_range; [done|lia|]. rewrite Hi. by rewrite Nat2Z.id.
Qed.

(** *** Sequences of calls *)

Lemma pushValues_pushAll vs :
  forall pq, pushValues pq vs = (pushAll pq vs ≫= fun r => Some r.1).
Proof.
  induction vs as [|v vs IH]; intros pq; [done|].
  cbn [pushValues pushAll]. unfold PushValue.
  destruct (PushAndReturnItem pq v) as [[pq1 h]|]; [|done]. simpl.
  rewrite IH. by destruct (pushAll pq1 vs) as [[pq2 hs]|].
Qed.

Lemma pushAll_spec vs :
  forall pq,
    inv pq ->
    exists pq',
      pushAll pq vs = Some (pq', seq (length (mem pq)) (length vs)) /\
      inv pq' /\
      items pq' ≡ₚ seq (length (mem pq)) (length vs) ++ items pq /\
      length (mem pq') = length (mem pq) + length vs /\
      (forall k v, vs !! k = Some v ->
         Value (item (mem pq') (length (mem pq) + k)) = v) /\
      (forall b, b < length (mem pq) ->
         Value (item (mem pq') b) = Value (item (mem pq) b)) /\
      (forall b, b < length (mem pq) -> b ∉ items pq ->
         item (mem pq') b = item (mem pq) b) /\
      Len pq' = Len pq + length vs /\
      vals pq' ≡ₚ vs ++ vals pq /\
      (strict_weak_order less -> heap pq -> heap pq').
Proof.
  induction vs as [|v vs IH]; intros pq Hinv.
  - exists pq. simpl. rewrite !Nat.add_0_r.
    do 4 (split; [done|]). split; [intros k v Hk; by rewrite lookup_nil in Hk|].
    do 4 (split; [done|]). done.
  - destruct (PushAndReturnItem_spec pq v Hinv)
      as (pq1 & E1 & Hinv1 & Hp1 & Hl1 & Hv1 & Hold1 & Hfr1 & HL1 & HV1 & Hh1).
    destruct (IH pq1 Hinv1)
      as (pq' & E & Hinv' & Hp & Hl & Hv & Hold & Hfr & HL & HV & Hh).
    assert (Hin1 : forall b, b ∈ items pq1 -> b = length (mem pq) \/ b ∈ items pq).
    { intros b Hb. rewrite Hp1 in Hb. by apply elem_of_cons in Hb. }
    exists pq'. cbn [pushAll]. rewrite E1. simpl. rewrite E, Hl1. simpl.
    split; [done|]. split; [done|]. split.
    { rewrite Hp, Hl1, Hp1. by rewrite Permutation_middle. }
    split; [lia|]. split.
    { intros k x Hk. destruct k as [|k]; simpl in Hk.
      - injection Hk as <-. rewrite Nat.add_0_r, Hold by lia. done.
      - replace (length (mem pq) + S k) with (length (mem pq1) + k) by lia.
        by apply Hv. }
    split; [intros b Hb; rewrite Hold by lia; by apply Hold1|].
    split.
    { intros b Hb Hnot. rewrite Hfr; [by apply Hfr1|lia|].
      intros Hin. apply Hin1 in Hin as [->|Hin]; [lia|done]. }
    split; [lia|]. split; [by rewrite HV, HV1, Permutation_middle|].
    intros Hswo Hhp. by apply Hh, Hh1.
Qed.

Lemma top_min pq a :
  strict_weak_order less -> heap pq -> items pq !! 0 = Some a ->
  forall y, y ∈ vals pq -> less y (Value (item (mem pq) a)) = false.
Proof.
  intros Hswo Hh Ha y Hy. apply list_elem_of_lookup in Hy as [k Hk].
  apply (heap_top less Hswo (Len pq) (vals pq) _ Hh) with k.
  - by rewrite length_vals.
  - by rewrite vals_lookup, Ha.
  - rewrite <- length_vals. by eapply lookup_lt_Some.
  - done.
Qed.

Section Scenarios.
Hypothesis Hswo : strict_weak_order less.

Lemma popN_spec n :
  forall pq,
    inv pq -> heap pq -> n <= Len pq ->
    exists out pq',
      popN n pq = Some (found <$> out, pq') /\
      inv pq' /\ heap pq' /\
      length out = n /\
      Len pq' = Len pq - n /\
      vals pq ≡ₚ out ++ vals pq' /\
      StronglySorted (le_of less) out /\
      (forall x y, x ∈ out -> y ∈ vals pq' -> less y x = false).
Proof.
  induction n as [|n IH]; intros pq Hinv Hheap Hn.
  - exists [], pq. simpl. rewrite Nat.sub_0_r.
    do 6 (split; [done|]). split; [constructor|].
    intros x y Hx. by apply elem_of_nil in Hx.
  - destruct (lookup_lt_is_Some_2 (items pq) 0) as [a Ha]; [unfold Len in Hn; lia|].
    destruct (PopValue_spec pq a Hinv Ha) as (pq1 & E1 & Hrem).
    pose proof (removes_Len _ _ _ Hrem) as HL1.
    pose proof (removes_vals _ _ _ Hrem) as HV1.
    pose proof (top_min pq a Hswo Hheap Ha) as Hmin.
    destruct Hrem as (Hinv1 & _ & _ & _ & _ & _ & Hh1).
    destruct (IH pq1 Hinv1 (Hh1 Hswo Hheap) ltac:(lia))
      as (out & pq' & E & Hinv' & Hheap' & Hlen & HL & HV & Hsorted & Hle).
    set (x := Value (item (mem pq) a)) in *.
    assert (Hxall : forall y, y ∈ out ++ vals pq' -> less y x = false).
    { intros y Hy. apply Hmin. rewrite HV1, HV. apply elem_of_cons. by right. }
    exists (x :: out), pq'. cbn [popN]. rewrite E1. simpl. rewrite E. simpl.
    split; [done|]. split; [done|]. split; [done|]. split; [lia|].
    split; [lia|]. split; [by rewrite HV1, HV|]. split.
    + constructor; [done|]. apply Forall_forall. intros y Hy.
      apply Hxall, elem_of_app. by left.
    + intros x' y Hx' Hy. apply elem_of_cons in Hx' as [->|Hx'].
      * apply Hxall, elem_of_app. by right.
      * by apply Hle.
Qed.

Lemma removeAll_spec rs :
  forall pq,
    inv pq -> heap pq -> NoDup rs -> rs ⊆ items pq ->
    exists pq',
      removeAll pq rs
        = Some ((fun h => (Value (item (mem pq) h), true)) <$> rs, pq') /\
      inv pq' /\ heap pq' /\
      items pq ≡ₚ rs ++ items pq' /\
      (forall b, Value (item (mem pq') b) = Value (item (mem pq) b)) /\
      Len pq' = Len pq - length rs /\
      length rs <= Len pq.
Proof.
  induction rs as [|r rs IH]; intros pq Hinv Hheap Hnd Hsub.
  - exists pq. simpl. rewrite Nat.sub_0_r. do 6 (split; [done|]). lia.
  - apply NoDup_cons in Hnd as [Hr Hnd].
    destruct (RemoveItem_live pq r Hinv) as (pq1 & E1 & Hrem).
    { apply Hsub. by left. }
    pose proof (removes_Len _ _ _ Hrem) as HL1.
    destruct Hrem as (Hinv1 & Hp1 & _ & Hv1 & _ & _ & Hh1).
    destruct (IH pq1 Hinv1 (Hh1 Hswo Hheap) Hnd)
      as (pq' & E & Hinv' & Hheap' & Hp & Hv & HL & Hle).
    { intros h Hh. assert (Hin : h ∈ items pq) by (apply Hsub; by right).
      rewrite Hp1 in Hin. apply elem_of_cons in Hin as [->|Hin]; done. }
    exists pq'. cbn [removeAll]. rewrite E1. simpl. rewrite E. simpl.
    split.
    { do 3 f_equal. apply list_fmap_ext. intros k h _. simpl. by rewrite Hv1. }
    split; [done|]. split; [done|]. split; [by rewrite Hp1, Hp|].
    split; [intros b; by rewrite Hv, Hv1|]. split; lia.
Qed.

(** C1. For a comparator that is a strict weak ordering and any
    sequence [vs], inserting every value into a new queue with
    [PushValue] (which leaves the same queue as [PushAndReturnItem]) and
    then calling [PopValue] [len(vs)] times returns, each time with
    [found = true], values [out] that are a permutation of [vs] and in
    priority order: for positions [i < j], [less(out[j], out[i])] is
    false.  The queue is empty afterwards. *)
Theorem PopValue_sorts (m0 : list Item) (vs : list T) :
  exists pq0 pq1 pq2 out,
    New m0 = Some pq0 /\
    pushValues pq0 vs = Some pq1 /\
    (pushAll pq0 vs ≫= fun r => Some r.1) = Some pq1 /\
    popN (length vs) pq1 = Some (found <$> out, pq2) /\
    out ≡ₚ vs /\
    in_order less out /\
    Len pq2 = 0 /\
    PopValue pq2 = Some (pq2, (zero, false)).
Proof.
  destruct (pushAll_spec vs (mkPQ m0 []) (inv_New m0))
    as (pq1 & E1 & Hinv1 & _ & _ & _ & _ & _ & HL1 & HV1 & Hh1).
  specialize (Hh1 Hswo (heap_New m0)). simpl in HV1.
  change (Len (mkPQ m0 [])) with 0 in HL1. simpl in HL1.
  rewrite app_nil_r in HV1.
  destruct (popN_spec (length vs) pq1 Hinv1 Hh1 ltac:(lia))
    as (out & pq2 & E2 & Hinv2 & _ & Hlen & HL2 & HV2 & Hsorted & _).
  assert (HL20 : Len pq2 = 0) by lia.
  assert (Hnil : vals pq2 = []).
  { apply length_zero_iff_nil. by rewrite length_vals. }
  rewrite Hnil, app_nil_r in HV2.
  exists (mkPQ m0 []), pq1, pq2, out.
  split; [done|]. split; [by rewrite pushValues_pushAll, E1|].
  split; [by rewrite E1|]. split; [done|]. split; [by rewrite <- HV2|].
  split; [by apply StronglySorted_in_order|]. split; [done|].
  by apply PopValue_empty.
Qed.

(** C2. For a strict weak ordering: insert [vs] with
    [PushAndReturnItem] (the handles are the addresses of the new items,
    in order), call [RemoveItem] on distinct handles [rs] among them,
    then [PopValue] until empty.  Every [RemoveItem] returns its
    handle's value with [found = true]; the extracted values [out]
    together with the removed ones are a permutation of [vs], and [out]
    is in priority order.  [Len()] is the number of insertions minus the
    number of removals and extractions after every call. *)
Theorem RemoveItem_then_drain (m0 : list Item) (vs : list T) (rs : list nat) :
  NoDup rs ->
  rs ⊆ seq (length m0) (length vs) ->
  exists pq0 pq1 pq2 pq3 out,
    New m0 = Some pq0 /\
    pushAll pq0 vs = Some (pq1, seq (length m0) (length vs)) /\
    (forall k v, vs !! k = Some v -> Value (item (mem pq1) (length m0 + k)) = v) /\
    removeAll pq1 rs
      = Some ((fun h => (Value (item (mem pq1) h), true)) <$> rs, pq2) /\
    popN (length vs - length rs) pq2 = Some (found <$> out, pq3) /\
    out ++ ((fun h => Value (item (mem pq1) h)) <$> rs) ≡ₚ vs /\
    in_order less out /\
    Len pq3 = 0 /\
    (forall k, k <= length vs ->
       exists pqk hk, pushAll pq0 (take k vs) = Some (pqk, hk) /\ Len pqk = k) /\
    (forall k, k <= length rs ->
       exists pqk rk, removeAll pq1 (take k rs) = Some (rk, pqk) /\
                      Len pqk = length vs - k) /\
    (forall k, k <= length vs - length rs ->
       exists pqk ok, popN k pq2 = Some (ok, pqk) /\
                      Len pqk = length vs - length rs - k).
Proof.
  intros Hnd Hsub.
  destruct (pushAll_spec vs (mkPQ m0 []) (inv_New m0))
    as (pq1 & E1 & Hinv1 & Hp1 & _ & Hval1 & _ & _ & HL1 & HV1 & Hh1).
  specialize (Hh1 Hswo (heap_New m0)). simpl in E1, Hp1, Hval1, HV1.
  change (Len (mkPQ m0 [])) with 0 in HL1. simpl in HL1.
  rewrite app_nil_r in Hp1, HV1.
  assert (Hsub1 : rs ⊆ items pq1) by (intros h Hh; rewrite Hp1; by apply Hsub).
  destruct (removeAll_spec rs pq1 Hinv1 Hh1 Hnd Hsub1)
    as (pq2 & E2 & Hinv2 & Hh2 & Hp2 & Hv2 & HL2 & Hle2).
  destruct (popN_spec (length vs - length rs) pq2 Hinv2 Hh2 ltac:(lia))
    as (out & pq3 & E3 & Hinv3 & _ & Hlen3 & HL3 & HV3 & Hsorted & _).
  assert (Hnil : vals pq3 = []).
  { apply length_zero_iff_nil. rewrite length_vals. lia. }
  rewrite Hnil, app_nil_r in HV3.
  assert (HVr : vals pq1 ≡ₚ ((fun h => Value (item (mem pq1) h)) <$> rs) ++ vals pq2).
  { unfold vals at 1. rewrite Hp2, fmap_app. apply Permutation_app_head.
    apply eq_reflexive_Permutation, list_fmap_ext. intros; simpl. by rewrite Hv2. }
  exists (mkPQ m0 []), pq1, pq2, pq3, out.
  split; [done|]. split; [done|]. split; [done|]. split; [done|].
  split; [done|]. split.
  { rewrite <- HV1, HVr, HV3. apply Permutation_app_comm. }
  split; [by apply StronglySorted_in_order|]. split; [lia|]. split; [|split].
  - intros k Hk.
    destruct (pushAll_spec (take k vs) (mkPQ m0 []) (inv_New m0))
      as (pqk & Ek & _ & _ & _ & _ & _ & _ & HLk & _).
    eexists pqk, _. split; [exact Ek|].
    change (Len (mkPQ m0 [])) with 0 in HLk. rewrite HLk, length_take. lia.
  - intros k Hk.
    destruct (removeAll_spec (take k rs) pq1 Hinv1 Hh1)
      as (pqk & Ek & _ & _ & _ & _ & HLk & _).
    { eapply sublist_NoDup; [done|apply sublist_take]. }
    { intros h Hh. apply Hsub1. by apply (subseteq_take k rs). }
    eexists pqk, _. split; [exact Ek|]. rewrite HLk, length_take. lia.
  - intros k Hk.
    destruct (popN_spec k pq2 Hinv2 Hh2 ltac:(lia))
      as (ok & pqk & Ek & _ & _ & _ & HLk & _).
    eexists pqk, _. split; [exact Ek|]. lia.
Qed.
End Scenarios.

(** *** Any sequence of public operations *)

Lemma tracked_New m0 : tracked m0 (mkPQ m0 []).
Proof.
  split; [apply inv_New|]. simpl. split; [done|]. split.
  { intros a Ha. by apply elem_of_nil in Ha. }
  split; [lia|done].
Qed.

Lemma tracked_removes m0 pq a pq' :
  tracked m0 pq -> removes pq a pq' -> tracked m0 pq'.
Proof.
  intros (Hinv & Hlen & Hown & Hgone & Hfor) (Hinv' & Hp & Hl & _ & Ha & Hframe & _).
  assert (Hsub : forall b, b ∈ items pq' -> b ∈ items pq).
  { intros b Hb. rewrite Hp. apply elem_of_cons. by right. }
  split; [done|]. split; [lia|]. split; [intros b Hb; by apply Hown, Hsub|]. split.
  - intros b Hb Hnot. destruct (decide (b = a)) as [->|Hba]; [done|].
    assert (Hnot' : b ∉ items pq).
    { rewrite Hp. intros Hin. apply elem_of_cons in Hin as [?|?]; done. }
    rewrite Hframe by done. apply Hgone; [lia|done].
  - intros b Hb. rewrite Hframe; [by apply Hfor|].
    intros Hin. apply Hown in Hin. lia.
Qed.

Lemma step_tracked m0 pq o :
  tracked m0 pq -> exists pq', step pq o = Some pq' /\ tracked m0 pq'.
Proof.
  intros Htr. pose proof Htr as (Hinv & Hlen & Hown & Hgone & Hfor).
  assert (Hpush : forall v, exists pq',
             PushAndReturnItem pq v = Some (pq', length (mem pq)) /\ tracked m0 pq').
  { intros v. destruct (PushAndReturnItem_spec pq v Hinv)
      as (pq' & E & Hinv' & Hp & Hl & _ & _ & Hframe & _).
    exists pq'. split; [done|]. split; [done|]. split; [lia|]. split.
    { intros b Hb. rewrite Hp in Hb. apply elem_of_cons in Hb as [->|Hb]; [lia|].
      by apply Hown. }
    split.
    - intros b Hb Hnot.
      assert (b <> length (mem pq) /\ b ∉ items pq) as [Hne Hnot'].
      { split; intros Hin; apply Hnot; rewrite Hp; apply elem_of_cons; auto. }
      rewrite Hframe by (done || lia). apply Hgone; [lia|done].
    - intros b Hb. rewrite Hframe; [by apply Hfor|lia|].
      intros Hin. apply Hown in Hin. lia. }
  destruct o as [v|v| |it|]; simpl.
  - destruct (Hpush v) as (pq' & E & Htr'). exists pq'. unfold PushValue.
    by rewrite E.
  - destruct (Hpush v) as (pq' & E & Htr'). exists pq'. by rewrite E.
  - destruct (items pq !! 0) as [a|] eqn:Ha.
    + destruct (PopValue_spec pq a Hinv Ha) as (pq' & -> & Hrem).
      exists pq'. split; [done|]. by eapply tracked_removes.
    + apply lookup_ge_None_1 in Ha.
      rewrite PopValue_empty by (unfold Len; lia). by exists pq.
  - destruct (decide (0 <= index (item (mem pq) it)
                      < Z.of_nat (Len pq))%Z) as [Hin|Hout].
    + destruct (lookup_lt_is_Some_2 (items pq) (Z.to_nat (index (item (mem pq) it))))
        as [a Ha]; [unfold Len in Hin; lia|].
      destruct (RemoveItem_in_range pq it a Hinv ltac:(lia) Ha) as (pq' & -> & Hrem).
      exists pq'. split; [done|]. by eapply tracked_removes.
    + rewrite RemoveItem_out_of_range by lia. by exists pq.
  - exists pq. split; [|done]. unfold Peek, Len.
    destruct (items pq) as [|a l]; done.
Qed.

Lemma run_tracked m0 ops :
  forall pq, tracked m0 pq -> exists pq', run pq ops = Some pq' /\ tracked m0 pq'.
Proof.
  induction ops as [|o ops IH]; intros pq Htr; [by exists pq|].
  destruct (step_tracked m0 pq o Htr) as (pq1 & E1 & Htr1).
  destruct (IH pq1 Htr1) as (pq' & E & Htr').
  exists pq'. simpl. rewrite E1. done.
Qed.

(** C7. Index bookkeeping.  After [New] and any sequence of public
    operations ([PushValue], [PushAndReturnItem], [PopValue], [RemoveItem]
    with any handle, [Peek]) every call has returned, every entry in the
    backing slice has its [index] field equal to its position, and every
    entry of the queue that is no longer in the slice has [index = -1]. *)
Theorem index_bookkeeping (m0 : list Item) (ops : list op) :
  exists pq0 pq,
    New m0 = Some pq0 /\
    run pq0 ops = Some pq /\
    (forall i a, items pq !! i = Some a ->
       index (item (mem pq) a) = Z.of_nat i) /\
    (forall a, length m0 <= a < length (mem pq) -> a ∉ items pq ->
       index (item (mem pq) a) = (-1)%Z).
Proof.
  destruct (run_tracked m0 ops _ (tracked_New m0))
    as (pq & E & (_ & Hidx) & _ & _ & Hgone & _).
  exists (mkPQ m0 []), pq. split; [done|]. split; [done|]. split; [|done].
  intros i a Ha. by destruct (Hidx i a Ha).
Qed.

(** C3 (as amended).  In the state after [New] and any sequence of public
    operations: [RemoveItem] with a handle whose stored index is negative
    or not below [Len()] returns the zero value with [found = false] and
    leaves the queue unchanged; every stale handle (an entry of this queue
    that was removed by [PopValue] or [RemoveItem]) is such a handle.
    [RemoveItem] with a handle whose stored index is a position of the
    slice, be it a handle of this queue or not, removes the entry at that
    position and returns its value with [found = true]. *)
Theorem RemoveItem_by_stored_index (m0 : list Item) (ops : list op) :
  exists pq0 pq,
    New m0 = Some pq0 /\
    run pq0 ops = Some pq /\
    (forall it,
       (index (item (mem pq) it) < 0 \/
        Z.of_nat (Len pq) <= index (item (mem pq) it))%Z ->
       RemoveItem pq it = Some (pq, (zero, false))) /\
    (forall it, length m0 <= it < length (mem pq) -> it ∉ items pq ->
       RemoveItem pq it = Some (pq, (zero, false))) /\
    (forall it a,
       (0 <= index (item (mem pq) it))%Z ->
       items pq !! Z.to_nat (index (item (mem pq) it)) = Some a ->
       exists pq',
         RemoveItem pq it = Some (pq', (Value (item (mem pq) a), true)) /\
         items pq ≡ₚ a :: items pq' /\
         Len pq = S (Len pq')).
Proof.
  destruct (run_tracked m0 ops _ (tracked_New m0))
    as (pq & E & Hinv & _ & _ & Hgone & _).
  exists (mkPQ m0 []), pq. split; [done|]. split; [done|]. split; [|split].
  - apply RemoveItem_out_of_range.
  - intros it Hit Hnot. apply RemoveItem_out_of_range. left.
    rewrite Hgone by done. lia.
  - intros it a H0 Ha.
    destruct (RemoveItem_in_range pq it a Hinv H0 Ha) as (pq' & E' & Hrem).
    exists pq'. split; [done|]. split; [by destruct Hrem as (_ & ? & _)|].
    by eapply removes_Len.
Qed.

(** The queue half of C8: on an empty queue [PopValue] and [Peek] return
    the zero value with [found = false] and the queue is unchanged. *)
Lemma empty_queue_reads pq :
  Len pq = 0 ->
  PopValue pq = Some (pq, (zero, false)) /\ Peek pq = Some (zero, false).
Proof. intros H. unfold PopValue, Peek. by rewrite H. Qed.

(** *** The heap property and the contents over any sequence of calls *)

Lemma step_heap pq o pq' :
  strict_weak_order less -> inv pq -> heap pq -> step pq o = Some pq' -> heap pq'.
Proof.
  intros Hswo Hinv Hh. destruct o as [v|v| |it|]; simpl.
  - unfold PushValue.
    destruct (PushAndReturnItem_spec pq v Hinv) as (pq1 & -> & Hrest).
    simpl. intros [= <-]. by apply Hrest.
  - destruct (PushAndReturnItem_spec pq v Hinv) as (pq1 & -> & Hrest).
    simpl. intros [= <-]. by apply Hrest.
  - destruct (items pq !! 0) as [a|] eqn:Ha.
    + destruct (PopValue_spec pq a Hinv Ha) as (pq1 & -> & Hrem).
      simpl. intros [= <-]. by apply Hrem.
    + apply lookup_ge_None_1 in Ha.
      rewrite PopValue_empty by (unfold Len; lia). simpl. by intros [= <-].
  - destruct (decide (0 <= index (item (mem pq) it)
                      < Z.of_nat (Len pq))%Z) as [Hin|Hout].
    + destruct (lookup_lt_is_Some_2 (items pq) (Z.to_nat (index (item (mem pq) it))))
        as [a Ha]; [unfold Len in Hin; lia|].
      destruct (RemoveItem_in_range pq it a Hinv ltac:(lia) Ha) as (pq1 & -> & Hrem).
      simpl. intros [= <-]. by apply Hrem.
    + rewrite RemoveItem_out_of_range by lia. simpl. by intros [= <-].
  - destruct (Peek pq); simpl; [by intros [= <-]|done].
Qed.

Lemma run_heap m0 ops :
  strict_weak_order less ->
  forall pq, tracked m0 pq -> heap pq ->
    exists pq', run pq ops = Some pq' /\ tracked m0 pq' /\ heap pq'.
Proof.
  intros Hswo. induction ops as [|o ops IH]; intros pq Htr Hh; [by exists pq|].
  destruct (step_tracked m0 pq o Htr) as (pq1 & E1 & Htr1).
  destruct (IH pq1 Htr1) as (pq' & E & Htr' & Hh').
  { eapply step_heap; [done| |done|done]. by destruct Htr. }
  exists pq'. simpl. rewrite E1. done.
Qed.

Lemma Peek_top pq a :
  items pq !! 0 = Some a -> Peek pq = Some (Value (item (mem pq) a), true).
Proof.
  intros Ha. unfold Peek, Len. rewrite Ha.
  destruct (items pq); [done|]. done.
Qed.

Lemma Peek_found pq t :
  Peek pq = Some (t, true) ->
  exists a, items pq !! 0 = Some a /\ t = Value (item (mem pq) a).
Proof.
  unfold Peek, Len. destruct (items pq) as [|a l]; simpl; [done|].
  intros [= <-]. by exists a.
Qed.

(** X13. The heap property is maintained.  For a comparator that is a
    strict weak ordering, after [New] and any sequence of public operations
    every call has returned, the value at each position [i] of the slice is
    not preceded by the value of either child (positions [2i+1], [2i+2]),
    and whenever [Peek] reports an entry, no value of the queue is before
    it. *)
Theorem heap_property_maintained (m0 : list Item) (ops : list op) :
  strict_weak_order less ->
  exists pq0 pq,
    New m0 = Some pq0 /\
    run pq0 ops = Some pq /\
    (forall i c p x,
       c = 2 * i + 1 \/ c = 2 * i + 2 ->
       vals pq !! i = Some p -> vals pq !! c = Some x -> less x p = false) /\
    (forall t, Peek pq = Some (t, true) ->
       forall y, y ∈ vals pq -> less y t = false).
Proof.
  intros Hswo.
  destruct (run_heap m0 ops Hswo _ (tracked_New m0) (heap_New m0))
    as (pq & E & Htr & Hh).
  exists (mkPQ m0 []), pq. split; [done|]. split; [done|]. split.
  - intros i c p x Hc Hp Hx.
    assert (Hc0 : 0 < c) by lia.
    apply (Hh c) with (x := x) (p := p).
    + split; [done|]. rewrite <- length_vals. by eapply lookup_lt_Some.
    + done.
    + by rewrite (proj2 (parent_child c i Hc0) Hc).
  - intros t Ht y Hy. destruct (Peek_found pq t Ht) as (a & Ha & ->).
    by apply (top_min pq a Hswo Hh Ha).
Qed.

(** X14. The contents are accounted for, whatever the comparator.  In the
    state after [New] and any sequence of public operations: [PushValue(v)]
    returns and the queue then holds the former values and [v], with [Len()]
    one more; if the queue is not empty, [Peek] and [PeekValue] report the
    value at position 0 with [found = true], [PopValue] returns that same
    value with [found = true], and the queue then holds the former values
    without it, with [Len()] one less. *)
Theorem contents_accounting (m0 : list Item) (ops : list op) :
  exists pq0 pq,
    New m0 = Some pq0 /\
    run pq0 ops = Some pq /\
    (forall v, exists pq',
       PushValue pq v = Some pq' /\
       vals pq' ≡ₚ v :: vals pq /\
       Len pq' = S (Len pq)) /\
    (Len pq <> 0 ->
     exists t pq',
       vals pq !! 0 = Some t /\
       Peek pq = Some (t, true) /\
       PeekValue pq = Some (t, true) /\
       PopValue pq = Some (pq', (t, true)) /\
       vals pq ≡ₚ t :: vals pq' /\
       Len pq = S (Len pq')).
Proof.
  destruct (run_tracked m0 ops _ (tracked_New m0)) as (pq & E & Hinv & _).
  exists (mkPQ m0 []), pq. split; [done|]. split; [done|]. split.
  - intros v.
    destruct (PushAndReturnItem_spec pq v Hinv)
      as (pq' & E' & _ & _ & _ & _ & _ & _ & HL & HV & _).
    exists pq'. unfold PushValue. rewrite E'. done.
  - intros Hne.
    destruct (lookup_lt_is_Some_2 (items pq) 0) as [a Ha];
      [unfold Len in Hne; lia|].
    destruct (PopValue_spec pq a Hinv Ha) as (pq' & E' & Hrem).
    exists (Value (item (mem pq) a)), pq'.
    split; [by rewrite vals_lookup, Ha|].
    split; [by apply Peek_top|]. split; [by apply Peek_top|].
    split; [done|]. split; [by apply removes_vals|by eapply removes_Len].
Qed.

(** X15. Insert and remove by handle is a round trip.  In the state after
    [New] and any sequence of public operations, [PushAndReturnItem(v)]
    returns a handle that was not in the queue; [RemoveItem] with that
    handle returns [v] with [found = true] and the queue holds its former
    values again, with the former [Len()]; a second [RemoveItem] with the
    same handle returns the zero value with [found = false] and changes
    nothing. *)
Theorem push_remove_roundtrip (m0 : list Item) (ops : list op) (v : T) :
  exists pq0 pq pq1 h pq2,
    New m0 = Some pq0 /\
    run pq0 ops = Some pq /\
    PushAndReturnItem pq v = Some (pq1, h) /\
    (h ∉ items pq) /\ (h ∈ items pq1) /\
    RemoveItem pq1 h = Some (pq2, (v, true)) /\
    vals pq2 ≡ₚ vals pq /\
    items pq2 ≡ₚ items pq /\
    Len pq2 = Len pq /\
    RemoveItem pq2 h = Some (pq2, (zero, false)).
Proof.
  destruct (run_tracked m0 ops _ (tracked_New m0)) as (pq & E & Hinv & _).
  destruct (PushAndReturnItem_spec pq v Hinv)
    as (pq1 & E1 & Hinv1 & Hp1 & _ & Hv1 & _ & _ & HL1 & HV1 & _).
  assert (Hin1 : length (mem pq) ∈ items pq1)
    by (rewrite Hp1; apply elem_of_cons; by left).
  destruct (RemoveItem_live pq1 _ Hinv1 Hin1) as (pq2 & E2 & Hrem).
  pose proof (removes_vals _ _ _ Hrem) as HV2.
  pose proof (removes_Len _ _ _ Hrem) as HL2.
  destruct Hrem as (_ & Hp2 & _ & _ & Hidx & _).
  exists (mkPQ m0 []), pq, pq1, (length (mem pq)), pq2.
  split; [done|]. split; [done|]. split; [done|]. split.
  { intros Hin. apply list_elem_of_lookup in Hin as [k Hk].
    destruct Hinv as [_ Hidx0]. destruct (Hidx0 _ _ Hk). lia. }
  split; [done|]. split; [by rewrite E2, Hv1|]. split.
  { rewrite Hv1, HV1 in HV2. by apply Permutation_cons_inv in HV2. }
  split.
  { rewrite Hp1 in Hp2. by apply Permutation_cons_inv in Hp2. }
  split; [lia|].
  apply RemoveItem_out_of_range. left. rewrite Hidx. lia.
Qed.

End PriorityQueue.

(** *** Concrete queues *)

Open Scope Z_scope.

(** The max-priority comparator of the tests: [less(a, b) = a > b]. *)
Definition greater (a b : Z) : bool := a >? b.

Lemma swo_greater : strict_weak_order greater.
Proof.
  unfold greater. split.
  - intros x. rewrite Z.gtb_ltb. apply Z.ltb_irrefl.
  - intros x y z. rewrite !Z.gtb_ltb, !Z.ltb_lt. lia.
  - intros x y z. rewrite !Z.gtb_ltb, !Z.ltb_ge. lia.
Qed.

(** The scenario of the specification and of the package test: insert
    10, 5, 20 into a max-priority queue; [Peek] reads 20; extraction yields
    20, 10, 5; the final size is 0. *)
Example max_queue_10_5_20 :
  (pq0 ← New 0 greater [];
   pq1 ← pushValues 0 greater pq0 [10; 5; 20];
   top ← Peek 0 pq1;
   '(out, pq2) ← popN 0 greater 3 pq1;
   Some (top, out, Len pq2))
  = Some ((20, true), [(20, true); (10, true); (5, true)], 0%nat).
Proof. reflexivity. Qed.

Lemma PopValue_sorts_witness :
  exists pq0 pq1 pq2 out,
    New 0 greater [] = Some pq0 /\
    pushValues 0 greater pq0 [10; 5; 20] = Some pq1 /\
    (pushAll 0 greater pq0 [10; 5; 20] ≫= fun r => Some r.1) = Some pq1 /\
    popN 0 greater (length [10; 5; 20]) pq1 = Some (found <$> out, pq2) /\
    out ≡ₚ [10; 5; 20] /\
    in_order greater out /\
    Len pq2 = 0%nat /\
    PopValue 0 greater pq2 = Some (pq2, (0, false)).
Proof. exact (PopValue_sorts 0 greater swo_greater [] [10; 5; 20]). Defined.

(** The package test continued: insert 10, 5, 20, 30, remove the handle of
    30 (address 3), extract the rest. *)
Example max_queue_remove_30 :
  (pq0 ← New 0 greater [];
   '(pq1, hs) ← pushAll 0 greater pq0 [10; 5; 20; 30];
   '(removed, pq2) ← removeAll 0 greater pq1 [3%nat];
   '(out, pq3) ← popN 0 greater 3 pq2;
   Some (hs, removed, out, Len pq3))
  = Some ([0; 1; 2; 3]%nat, [(30, true)], [(20, true); (10, true); (5, true)], 0%nat).
Proof. reflexivity. Qed.

Lemma RemoveItem_then_drain_witness :
  exists pq0 pq1 pq2 pq3 out,
    New 0 greater [] = Some pq0 /\
    pushAll 0 greater pq0 [10; 5; 20; 30] = Some (pq1, seq 0 4) /\
    (forall k v, [10; 5; 20; 30] !! k = Some v ->
       Value (item 0 (mem pq1) (0 + k)) = v) /\
    removeAll 0 greater pq1 [3%nat; 1%nat]
      = Some ((fun h => (Value (item 0 (mem pq1) h), true)) <$> [3%nat; 1%nat], pq2) /\
    popN 0 greater (4 - 2) pq2 = Some (found <$> out, pq3) /\
    out ++ ((fun h => Value (item 0 (mem pq1) h)) <$> [3%nat; 1%nat])
      ≡ₚ [10; 5; 20; 30] /\
    in_order greater out /\
    Len pq3 = 0%nat /\
    (forall k, (k <= 4)%nat ->
       exists pqk hk, pushAll 0 greater pq0 (take k [10; 5; 20; 30]) = Some (pqk, hk) /\
                      Len pqk = k) /\
    (forall k, (k <= 2)%nat ->
       exists pqk rk, removeAll 0 greater pq1 (take k [3%nat; 1%nat]) = Some (rk, pqk) /\
                      Len pqk = (4 - k)%nat) /\
    (forall k, (k <= 4 - 2)%nat ->
       exists pqk ok, popN 0 greater k pq2 = Some (ok, pqk) /\
                      Len pqk = (4 - 2 - k)%nat).
Proof.
  refine (RemoveItem_then_drain 0 greater swo_greater [] [10; 5; 20; 30]
            [3%nat; 1%nat] _ _).
  - apply NoDup_ListNoDup. repeat constructor; simpl; lia.
  - intros h Hh. apply elem_of_seq. simpl.
    apply elem_of_cons in Hh as [->|Hh]; [lia|].
    apply list_elem_of_singleton in Hh as ->. lia.
Defined.

(** C3, counterexample.  The store holds an item the caller made,
    [&Item[int]{Value: 7}] (address 0, index 0 as every fresh item); it was
    never pushed onto the queue.  After [PushValue(10)] on a new queue,
    [RemoveItem] with that foreign handle returns [(10, true)] and the queue
    is empty: the entry of 10 was removed. *)
Lemma RemoveItem_foreign_counterexample :
  exists pq0 pq1 pq2,
    New 0 greater [mkItem 7 0] = Some pq0 /\
    PushValue 0 greater pq0 10 = Some pq1 /\
    items pq1 = [1%nat] /\
    RemoveItem 0 greater pq1 0%nat = Some (pq2, (10, true)) /\
    RemoveItem 0 greater pq1 0%nat <> Some (pq1, (0, false)) /\
    Len pq1 = 1%nat /\ Len pq2 = 0%nat.
Proof.
  eexists _, _, _. split; [reflexivity|]. split; [reflexivity|].
  split; [reflexivity|]. split; [reflexivity|]. split; [|done].
  vm_compute. congruence.
Qed.

(** The index bookkeeping on the package test, as computed. *)
Example index_fields_after_remove :
  (pq0 ← New 0 greater [];
   pq ← run 0 greater pq0
          [OpPushValue 10; OpPushValue 5; OpPushValue 20;
           OpPushAndReturnItem 30; OpRemoveItem 3%nat; OpPopValue];
   Some (items pq, index <$> mem pq))
  = Some ([0; 1]%nat, [0; 1; -1; -1]).
Proof. reflexivity. Qed.

Lemma heap_property_maintained_witness :
  exists pq0 pq,
    New 0 greater [] = Some pq0 /\
    run 0 greater pq0
      [OpPushValue 10; OpPushValue 5; OpPushValue 20;
       OpPushAndReturnItem 30; OpRemoveItem 3%nat; OpPopValue] = Some pq /\
    (forall (i c : nat) p x,
       c = (2 * i + 1)%nat \/ c = (2 * i + 2)%nat ->
       vals 0 pq !! i = Some p -> vals 0 pq !! c = Some x -> greater x p = false) /\
    (forall t, Peek 0 pq = Some (t, true) ->
       forall y, y ∈ vals 0 pq -> greater y t = false).
Proof.
  exact (heap_property_maintained 0 greater []
           [OpPushValue 10; OpPushValue 5; OpPushValue 20;
            OpPushAndReturnItem 30; OpRemoveItem 3%nat; OpPopValue]
           swo_greater).
Defined.

Close Scope Z_scope.

End priorityqueue.

(** ** Empty containers *)

(** C8. Reads and removals on an empty container signal absence and change
    nothing: [PopValue] and [Peek] on an empty priority queue, and
    [PopFront], [PopBack], [PeekFront], [PeekBack] on an empty deque, each
    return (without panic) the zero value with [found = false], and the
    container is the same, still empty, container afterwards. *)
Theorem empty_container_reads {T : Type} (zero : T) (less : T -> T -> bool)
    (pq : priorityqueue.PriorityQueue) (d : deque.Deque) :
  priorityqueue.Len pq = 0 ->
  deque.Len d = 0 ->
  priorityqueue.PopValue zero less pq = Some (pq, (zero, false)) /\
  priorityqueue.Peek zero pq = Some (zero, false) /\
  deque.PopFront zero d = ((zero, false), d) /\
  deque.PopBack zero d = ((zero, false), d) /\
  deque.PeekFront zero d = (zero, false) /\
  deque.PeekBack zero d = (zero, false).
Proof.
  intros Hpq Hd.
  destruct (priorityqueue.empty_queue_reads zero less pq Hpq) as [H1 H2].
  destruct (deque.empty_deque_reads zero d Hd) as (H3 & H4 & H5 & H6).
  done.
Qed.

Lemma empty_container_reads_witness :
  let pq := priorityqueue.mkPQ [] [] in
  let d := deque.New in
  priorityqueue.PopValue 0%Z priorityqueue.greater pq = Some (pq, (0%Z, false)) /\
  priorityqueue.Peek 0%Z pq = Some (0%Z, false) /\
  deque.PopFront 0%Z d = ((0%Z, false), d) /\
  deque.PopBack 0%Z d = ((0%Z, false), d) /\
  deque.PeekFront 0%Z d = (0%Z, false) /\
  deque.PeekBack 0%Z d = (0%Z, false).
Proof.
  exact (empty_container_reads 0%Z priorityqueue.greater
           (priorityqueue.mkPQ [] []) deque.New eq_refl eq_refl).
Defined.
